(** * Dual virtual element discretisation and grid-bucket assembly (porepy)

    A shallow embedding of [dual.py] ([matrix], [rhs], [extract], [projectU])
    and of the tagging and coupling passes of [porepy/fracs/meshing.py]
    ([tag_faces], [nodes_per_face], [assemble_in_bucket]).

    Numbers: numpy's float64 values are modelled by exact rationals ([Qc]);
    rounding, overflow and the IEEE special values are outside the model.
    Exceptions: a computation that may raise returns a value of [res].
    Sparse matrices: the stored entries of a scipy matrix are a finite map
    from coordinates to values ([gmap (nat * nat) _]). *)

From Stdlib Require Import QArith Qcanon Qcabs Lia String.
From stdpp Require Import gmap list.

Open Scope Qc_scope.

(** ** Exceptions *)

Inductive exn : Type :=
  | AssertionError   (* a failed [assert] *)
  | LinAlgError      (* numpy.linalg: singular matrix *)
  | IndexError       (* index out of bounds *)
  | ValueError       (* shape mismatch, impossible reshape, ... *)
  | Undefined.       (* a buffer from [np.empty] read before it was written *)

Inductive res (A : Type) : Type :=
  | Ok (a : A)
  | Raise (e : exn).
Arguments Ok {A} a.
Arguments Raise {A} e.

Definition bind {A B : Type} (m : res A) (f : A -> res B) : res B :=
  match m with
  | Ok a => f a
  | Raise e => Raise e
  end.

Notation "'do' x <- m ; k" := (bind m (fun x => k))
  (at level 10, x name, m at level 100, k at level 200).
Notation "'do' ' p <- m ; k" := (bind m (fun p => k))
  (at level 10, p pattern, m at level 100, k at level 200).

Definition is_ok {A : Type} (m : res A) : Prop := exists a, m = Ok a.

(** [l[i]]: indexing past the end raises [IndexError]. *)
Definition index {A : Type} (l : list A) (i : nat) : res A :=
  match l !! i with
  | Some a => Ok a
  | None => Raise IndexError
  end.

(** [l[a:b]]: slicing clips and never raises. *)
Definition slice {A : Type} (a b : nat) (l : list A) : list A :=
  take (b - a) (drop a l).

(** Monadic map over a list, left to right. *)
Fixpoint mapM {A B : Type} (f : A -> res B) (l : list A) : res (list B) :=
  match l with
  | [] => Ok []
  | a :: l' => do b <- f a; do bs <- mapM f l'; Ok (b :: bs)
  end.

(** ** Dense arrays *)

Module Dense.

Abbreviation vec := (list Qc).
(** A two-dimensional array is the list of its rows.  The number of columns
    is passed to the operations that need it, so that an array with no row
    keeps its shape. *)
Abbreviation mat := (list (list Qc)).

Definition qltb (a b : Qc) : bool :=
  match a ?= b with Lt => true | _ => false end.

Definition qmax (a b : Qc) : Qc := if qltb a b then b else a.

Definition vsum (v : vec) : Qc := foldr Qcplus 0 v.

(** [np.dot] of two vectors. *)
Definition vdot (u v : vec) : Qc := vsum (zip_with Qcmult u v).

Definition entry (M : mat) (i j : nat) : Qc := nth j (nth i M []) 0.

Definition col (j : nat) (M : mat) : vec := map (fun r => nth j r 0) M.

(** [M.T] for [M] with [c] columns. *)
Definition transpose (c : nat) (M : mat) : mat :=
  map (fun j => col j M) (seq 0 c).

(** [np.dot(A, v)]. *)
Definition mv (A : mat) (v : vec) : vec := map (fun r => vdot r v) A.

(** [np.dot(A, B)] for [B] with [c] columns. *)
Definition mmul (c : nat) (A B : mat) : mat :=
  map (fun r => map (fun j => vdot r (col j B)) (seq 0 c)) A.

Definition madd (A B : mat) : mat := zip_with (zip_with Qcplus) A B.
Definition msub (A B : mat) : mat := zip_with (zip_with Qcminus) A B.

(** [w * M], [M * w] and [M / w] for a scalar [w]. *)
Definition mscale (w : Qc) (M : mat) : mat := map (map (Qcmult w)) M.
Definition mtimes (M : mat) (w : Qc) : mat := map (map (fun x => x * w)) M.
Definition mdiv (M : mat) (w : Qc) : mat := map (map (fun x => x / w)) M.

(** [np.eye(n)]. *)
Definition eye (n : nat) : mat :=
  map (fun i => map (fun j => if Nat.eqb i j then 1 else 0) (seq 0 n))
      (seq 0 n).

(** [np.linalg.norm(M, np.inf)]: the largest absolute row sum. *)
Definition norm_inf (M : mat) : Qc :=
  foldr qmax 0 (map (fun r => vsum (map Qcabs r)) M).

(** [np.all(np.abs(M) < tol)]. *)
Definition all_below (tol : Qc) (M : mat) : bool :=
  forallb (forallb (fun x => qltb (Qcabs x) tol)) M.

(** *** [np.linalg.inv]

    Gauss-Jordan elimination on the rows of [M | I].  In exact arithmetic
    the choice of the pivot does not change the result; the first row with
    a non-zero entry in the current column is taken. *)

Definition vaxpy (a : Qc) (x y : vec) : vec :=
  zip_with (fun xi yi => yi - a * xi) x y.

Fixpoint find_pivot (j : nat) (rows : list vec) : option (vec * list vec) :=
  match rows with
  | [] => None
  | r :: rs =>
      if Qc_eq_bool (nth j r 0) 0 then
        match find_pivot j rs with
        | Some (p, rest) => Some (p, r :: rest)
        | None => None
        end
      else Some (r, rs)
  end.

Definition eliminate (j : nat) (p : vec) (r : vec) : vec :=
  vaxpy (nth j r 0) p r.

Fixpoint gauss_jordan (cols : list nat) (done todo : list vec)
  : res (list vec) :=
  match cols with
  | [] => Ok done
  | j :: cols' =>
      match find_pivot j todo with
      | None => Raise LinAlgError
      | Some (p, rest) =>
          let p' := map (fun x => x / nth j p 0) p in
          gauss_jordan cols'
            (map (eliminate j p') done ++ [p'])
            (map (eliminate j p') rest)
      end
  end.

Definition inv (M : mat) : res mat :=
  let n := length M in
  do rows <- gauss_jordan (seq 0 n) [] (zip_with app M (eye n));
  Ok (map (drop n) rows).

(** The finite sum of [f 0], ..., [f (n - 1)]. *)
Fixpoint msum (n : nat) (f : nat -> Qc) : Qc :=
  match n with
  | O => 0
  | S n' => msum n' f + f n'
  end.

End Dense.

Import Dense.

(** ** Sparse matrices (scipy.sparse) *)

Module Sparse.

(** Compressed sparse column storage.  The shape is kept by the owner of
    the matrix (the grid). *)
Record csc (V : Type) : Type := {
  indptr : list nat;
  indices : list nat;
  data : list V
}.
Arguments indptr {V} c.
Arguments indices {V} c.
Arguments data {V} c.

(** A stored entry in coordinate format: row, column, value. *)
Abbreviation triplet := (nat * nat * Qc)%type.

(** The stored entries (row, value) of column [c]. *)
Definition column {V : Type} (A : csc V) (c : nat) : list (nat * V) :=
  match indptr A !! c, indptr A !! S c with
  | Some a, Some b => slice a b (zip (indices A) (data A))
  | _, _ => []
  end.

(** [A.tocoo()]: the stored entries, column after column. *)
Definition tocoo {V : Type} (A : csc V) (ncols : nat) : list (nat * nat * V) :=
  flat_map (fun c => map (fun e => (fst e, c, snd e)) (column A c))
           (seq 0 ncols).

(** [coo.sum_duplicates()] sorts by (column, row), with a stable sort, and
    adds up the values stored at one coordinate. *)
Fixpoint insert_row (e : nat * Qc) (l : list (nat * Qc)) : list (nat * Qc) :=
  match l with
  | [] => [e]
  | e' :: l' =>
      if (fst e <? fst e')%nat then e :: l else e' :: insert_row e l'
  end.

Definition sort_rows (l : list (nat * Qc)) : list (nat * Qc) :=
  foldl (fun acc e => insert_row e acc) [] l.

Fixpoint sum_dups (l : list (nat * Qc)) : list (nat * Qc) :=
  match l with
  | [] => []
  | e :: l' =>
      match sum_dups l' with
      | e' :: t =>
          if (fst e =? fst e')%nat then (fst e, snd e + snd e') :: t
          else e :: e' :: t
      | [] => [e]
      end
  end.

(** [sps.find(A)]: rows, columns and values of the non-zero entries, after
    [sum_duplicates]. *)
Definition find (A : csc Qc) (ncols : nat) : list triplet :=
  flat_map
    (fun c =>
       map (fun e => (fst e, c, snd e))
           (filter (fun e => snd e <> 0) (sum_dups (sort_rows (column A c)))))
    (seq 0 ncols).

(** A matrix in a compressed format after [sum_duplicates]: its shape and
    its stored entries. *)
Record sparse : Type := {
  shape : nat * nat;
  entries : gmap (nat * nat) Qc
}.

(** Adding one coordinate-format entry to the stored entries: duplicate
    coordinates are summed. *)
Definition coo_add (m : gmap (nat * nat) Qc) (t : triplet) : gmap (nat * nat) Qc :=
  let '(i, j, v) := t in
  partial_alter
    (fun o => Some (match o with Some x => x + v | None => v end)) (i, j) m.

Definition coo_sum (ts : list triplet) : gmap (nat * nat) Qc :=
  foldl coo_add ∅ ts.

(** The sum of the values that a list of entries holds at the coordinate
    [k]. *)
Definition at_key (k : nat * nat) (t : triplet) : Qc :=
  if decide (fst t = k) then snd t else 0.

Definition ksum (ts : list triplet) (k : nat * nat) : Qc :=
  vsum (map (at_key k) ts).

(** [sps.coo_matrix((data, (I, J))).tocsr()]: the shape is inferred from the
    largest indices, which needs a non-empty index array. *)
Definition coo_matrix (bI bJ : list nat) (bdata : list Qc) : res sparse :=
  match bI, bJ with
  | [], _ | _, [] => Raise ValueError
  | _, _ =>
      Ok {| shape := (S (foldr Nat.max 0%nat bI), S (foldr Nat.max 0%nat bJ));
            entries := coo_sum (zip (zip bI bJ) bdata) |}
  end.

End Sparse.

Import Sparse.

(** ** Grids and permeability

    The grid and the permeability tensor are built outside the files
    embedded here; they are records of the attributes these files read. *)

(** A column of one of the 3 x N geometry arrays. *)
Abbreviation vec3 := (Qc * Qc * Qc)%type.

Definition v3 (p : vec3) : vec := let '(x, y, z) := p in [x; y; z].

(** The 3 x 3 block of one cell in [k.perm], as its three rows. *)
Abbreviation mat33 := (vec3 * vec3 * vec3)%type.

Definition m33 (K : mat33) : mat := let '(r0, r1, r2) := K in [v3 r0; v3 r1; v3 r2].

(** Face tags.  [has_tag] flags are kept per face: a tag is added and removed
    without touching the other tags of the face. *)
Inductive FaceTag : Type := NONE | DOMAIN_BOUNDARY | FRACTURE | TIP.

Record tagset : Type := {
  on_domain_boundary : bool;
  on_fracture : bool;
  on_tip : bool
}.

Record grid : Type := {
  name : string;
  dim : nat;
  num_nodes : nat;
  num_faces : nat;
  num_cells : nat;
  (** signed incidence, of shape (num_faces, num_cells) *)
  cell_faces : csc Qc;
  (** incidence of shape (num_nodes, num_faces) *)
  face_nodes : csc bool;
  (** result of [cell_nodes()], of shape (num_nodes, num_cells) *)
  cell_nodes : csc bool;
  face_normals : list vec3;
  face_centers : list vec3;
  cell_centers : list vec3;
  cell_volumes : vec;
  (** result of [cell_diameters()] *)
  cell_diameters : vec;
  global_point_ind : list nat;
  (** result of [get_boundary_faces()] *)
  boundary_faces : list nat;
  face_tags : list tagset
}.

Record second_order_tensor : Type := { perm : list mat33 }.

(** The permeability of cell [c] is a symmetric tensor. *)
Definition symmetric_perm (k : second_order_tensor) (c : nat) : Prop :=
  forall Kc, perm k !! c = Some Kc ->
    forall i j, entry (m33 Kc) i j = entry (m33 Kc) j i.

(** ** dual.py *)

Module Dual.

Definition tol : Qc := Q2Qc (1 # 10000000000).

(** [faces[loc]] and [sgn[loc]] for
    [loc = slice(indptr[c], indptr[c+1])], given the output of [sps.find]. *)
Definition cell_loc (g : grid) (fs : list triplet) (c : nat)
  : res (list triplet) :=
  do a <- index (indptr (cell_faces g)) c;
  do b <- index (indptr (cell_faces g)) (S c);
  Ok (slice a b fs).

Definition faces_of (loc : list triplet) : list nat := map (fun t => fst (fst t)) loc.
Definition sgn_of (loc : list triplet) : vec := map snd loc.

(** The local matrices of one cell, before the consistency check. *)
Record local_matrices : Type := {
  faces_loc : list nat;
  diam : Qc;
  K : mat;
  D : mat;
  G : mat;
  F : mat
}.

(** The monomial [lambda pt, i=i: (pt[i] - c_center[i]) / diams[c]]. *)
Definition mono (c_center : vec3) (diam : Qc) (i : nat) (pt : vec3) : Qc :=
  (nth i (v3 pt) 0 - nth i (v3 c_center) 0) / diam.

(** The body of the loop over the cells, up to the local matrix [F].
    A grid of dimension above 3 fails in [np.dot(K, g)]; a grid of
    dimension 0 fails in [reshape((g.dim, -1))]. *)
Definition local (g : grid) (k : second_order_tensor) (fs : list triplet)
    (c : nat) : res local_matrices :=
  let d := dim g in
  do loc <- cell_loc g fs c;
  do c_center <- index (cell_centers g) c;
  do diam <- index (cell_diameters g) c;
  let grad := mdiv (eye d) diam in
  do Kc <- index (perm k) c;
  let K := take d (map (take d) (m33 Kc)) in
  do normalsT <-
    mapM (fun f => do nf <- index (face_normals g) f; Ok (take d (v3 nf)))
         (faces_of loc);
  let n := length (faces_of loc) in
  if (3 <? d)%nat then Raise ValueError else
  let D := transpose n (map (fun gi => mv normalsT (mv K gi)) grad) in
  do vol <- index (cell_volumes g) c;
  let G := mtimes (mmul d grad (mmul d K (transpose d grad))) vol in
  do F <-
    mapM (fun i =>
            mapM (fun t : triplet =>
                    do pt <- index (face_centers g) (fst (fst t));
                    Ok (snd t * mono c_center diam i pt))
                 loc)
         (seq 0 d);
  if (d =? 0)%nat then Raise ValueError else
  Ok {| faces_loc := faces_of loc; diam := diam; K := K;
        D := D; G := G; F := F |}.

(** [np.all(np.abs(G - np.dot(F, D)) < tol)]. *)
Definition consistent (d : nat) (L : local_matrices) : bool :=
  all_below tol (msub (G L) (mmul d (F L) (D L))).

(** [Pi_s = np.dot(np.linalg.inv(G), F)]. *)
Definition Pi_s (L : local_matrices) : res mat :=
  do Ginv <- inv (G L);
  Ok (mmul (length (faces_loc L)) Ginv (F L)).

(** The local Hdiv-stiffness matrix [A]. *)
Definition stiffness (L : local_matrices) : res mat :=
  let ndof := length (faces_loc L) in
  do Pi <- Pi_s L;
  let I_Pi := msub (eye ndof) (mmul ndof (D L) Pi) in
  do Kinv <- inv (K L);
  let w := norm_inf Kinv in
  Ok (madd (mmul ndof (transpose ndof Pi) (mmul ndof (G L) Pi))
           (mscale w (mmul ndof (transpose ndof I_Pi) I_Pi))).

(** The local block as the specification writes it,
    [A = Pi^T G Pi + w (I - D Pi)^T (I - D Pi)], entry by entry, for [Pi]
    with [d] rows and [D] with [n] rows. *)
Definition delta (i j : nat) : Qc := if Nat.eqb i j then 1 else 0.

Definition stiffness_spec (d n : nat) (Pi G D : mat) (w : Qc) (a b : nat) : Qc :=
  msum d (fun i => entry Pi i a * msum d (fun j => entry G i j * entry Pi j b))
  + w * msum n (fun f =>
                  (delta f a - msum d (fun i => entry D f i * entry Pi i a))
                  * (delta f b - msum d (fun i => entry D f i * entry Pi i b))).

(** One turn of the loop of [matrix]: the faces of the cell and its
    local matrix [A]. *)
Definition cell_block (g : grid) (k : second_order_tensor)
    (fs : list triplet) (c : nat) : res (list nat * mat) :=
  do L <- local g k fs c;
  if consistent (dim g) L then
    do A <- stiffness L;
    Ok (faces_loc L, A)
  else Raise AssertionError.

(** [cols = np.tile(faces_loc, (ndof, 1))]: [cols.T.ravel()],
    [cols.ravel()] and [A.ravel()]. *)
Definition rows_idx (faces : list nat) : list nat :=
  flat_map (fun fa => map (fun _ => fa) faces) faces.
Definition cols_idx (faces : list nat) : list nat :=
  flat_map (fun _ => faces) faces.
Definition ravel (A : mat) : vec := concat A.

(** The coordinate entries that one cell writes to the buffers. *)
Definition cell_triplets (blk : list nat * mat) : list triplet :=
  zip (zip (rows_idx (fst blk)) (cols_idx (fst blk))) (ravel (snd blk)).

(** The buffers [I], [J] and [data], filled cell after cell. *)
Abbreviation buffers := (list nat * list nat * vec)%type.

Fixpoint assemble (g : grid) (k : second_order_tensor) (fs : list triplet)
    (cells : list nat) (acc : buffers) : res buffers :=
  match cells with
  | [] => Ok acc
  | c :: cells' =>
      do blk <- cell_block g k fs c;
      let '(bI, bJ, bdata) := acc in
      assemble g k fs cells'
        (bI ++ rows_idx (fst blk), bJ ++ cols_idx (fst blk),
         bdata ++ ravel (snd blk))
  end.

(** [np.sum(np.square(indptr[1:] - indptr[:-1]))]. *)
Definition buffer_size (ip : list nat) : Z :=
  fold_right Z.add 0%Z
    (zip_with (fun b a => ((Z.of_nat b - Z.of_nat a) * (Z.of_nat b - Z.of_nat a))%Z)
              (drop 1 ip) ip).

Definition shift_divT (nf : nat) (p : nat * nat) : nat * nat :=
  (fst p, (nf + snd p)%nat).
Definition shift_div (nf : nat) (p : nat * nat) : nat * nat :=
  ((nf + snd p)%nat, fst p).

Definition add_entries (m1 m2 : gmap (nat * nat) Qc) : gmap (nat * nat) Qc :=
  union_with (fun x y => Some (x + y)) m1 m2.

(** [sps.bmat([[mass, div.T], [div, None]])] for [div = -g.cell_faces.T]:
    the blocks of one block row must have the same number of rows, those
    of one block column the same number of columns. *)
Definition bmat (g : grid) (mass : sparse) : res sparse :=
  let nf := num_faces g in
  let nc := num_cells g in
  let cf := Qcopp <$> coo_sum (tocoo (cell_faces g) nc) in
  if decide (shape mass = (nf, nf)) then
    Ok {| shape := ((nf + nc)%nat, (nf + nc)%nat);
          entries :=
            add_entries (entries mass)
              (add_entries (kmap (shift_divT nf) cf) (kmap (shift_div nf) cf)) |}
  else Raise ValueError.

Definition mass_matrix (g : grid) (k : second_order_tensor) : res sparse :=
  let fs := find (cell_faces g) (num_cells g) in
  let size := buffer_size (indptr (cell_faces g)) in
  do bufs <- assemble g k fs (seq 0 (num_cells g)) ([], [], []);
  let '(bI, bJ, bdata) := bufs in
  if decide (Z.of_nat (length bI) = size) then coo_matrix bI bJ bdata
  else Raise Undefined.

Definition matrix {BC : Type} (g : grid) (k : second_order_tensor)
    (bc : option BC) : res sparse :=
  do mass <- mass_matrix g k;
  bmat g mass.

(** Broadcasting of two one-dimensional arrays in an element-wise
    operation: equal lengths, or one of them of length 1. *)
Definition broadcast {A : Type} (u v : list A) : res (list (A * A)) :=
  if decide (length u = length v) then Ok (zip u v)
  else match u, v with
       | x :: nil, _ => Ok (map (fun y => (x, y)) v)
       | _, y :: nil => Ok (map (fun x => (x, y)) u)
       | _, _ => Raise ValueError
       end.

(** [a[lo:] = v] for a one-dimensional [v]: [v] is broadcast to the length
    of the slice. *)
Definition assign_tail {A : Type} (a : list A) (lo : nat) (v : list A)
  : res (list A) :=
  let n := length (drop lo a) in
  if decide (length v = n) then Ok (take lo a ++ v)
  else match v with
       | x :: nil => Ok (take lo a ++ replicate n x)
       | _ => Raise ValueError
       end.

(** The source term [f] maps the array of the cell centres to one value per
    cell. *)
Definition rhs {BC : Type} (g : grid) (f : list vec3 -> vec) (bc : option BC)
  : res vec :=
  let size := (num_faces g + num_cells g)%nat in
  let zeros := replicate size 0 in
  do prod <- broadcast (cell_volumes g) (f (cell_centers g));
  assign_tail zeros (size - num_cells g)
              (map (fun p => - (fst p * snd p)) prod).

Definition extract (g : grid) (up : vec) : res (vec * vec) :=
  Ok (take (num_faces g) up, drop (num_faces g) up).

(** One turn of the loop of [projectU]: the column [P0u[:, c]], whose
    entries from [g.dim] on stay zero. *)
Definition project_cell (g : grid) (k : second_order_tensor)
    (fs : list triplet) (u : vec) (c : nat) : res vec :=
  do L <- local g k fs c;
  if consistent (dim g) L then
    do Pi <- Pi_s L;
    do u_loc <- mapM (index u) (faces_loc L);
    Ok (take 3 (map (fun x => x / diam L) (mv Pi u_loc) ++ [0; 0; 0]))
  else Raise AssertionError.

(** [P0u], as the list of its columns. *)
Definition projectU (g : grid) (k : second_order_tensor) (u : vec)
  : res (list vec) :=
  mapM (project_cell g k (find (cell_faces g) (num_cells g)) u)
       (seq 0 (num_cells g)).

End Dual.

(** ** Tagging of faces and assembly of the grid bucket (meshing.py) *)

Module Meshing.

(** ['s' in name], for a name that is a string. *)
Fixpoint contains (s : string) (name : string) : bool :=
  orb (String.prefix s name)
      match name with
      | EmptyString => false
      | String _ rest => contains s rest
      end.

Definition is_tensor (g : grid) : bool :=
  orb (contains "TensorGrid" (name g)) (contains "CartGrid" (name g)).

Definition nodes_per_face (g : grid) : res nat :=
  if andb (is_tensor g) (dim g =? 3)%nat then Ok 4%nat
  else if contains "TetrahedralGrid" (name g) then Ok 3%nat
  else if andb (is_tensor g) (dim g =? 2)%nat then Ok 2%nat
  else if contains "TriangleGrid" (name g) then Ok 2%nat
  else if andb (is_tensor g) (dim g =? 1)%nat then Ok 1%nat
  else Raise ValueError.

(** *** Tag storage

    Modelled from the spec: the grid stores the tags of each face and
    offers adding and removing one tag for a set of faces; [NONE] stands
    for no tag. *)

Definition set_tag (tag : FaceTag) (b : bool) (t : tagset) : tagset :=
  match tag with
  | NONE => t
  | DOMAIN_BOUNDARY =>
      {| on_domain_boundary := b; on_fracture := on_fracture t;
         on_tip := on_tip t |}
  | FRACTURE =>
      {| on_domain_boundary := on_domain_boundary t; on_fracture := b;
         on_tip := on_tip t |}
  | TIP =>
      {| on_domain_boundary := on_domain_boundary t;
         on_fracture := on_fracture t; on_tip := b |}
  end.

Definition has_tag (tag : FaceTag) (t : tagset) : bool :=
  match tag with
  | NONE => negb (orb (on_domain_boundary t) (orb (on_fracture t) (on_tip t)))
  | DOMAIN_BOUNDARY => on_domain_boundary t
  | FRACTURE => on_fracture t
  | TIP => on_tip t
  end.

Definition with_face_tags (g : grid) (tags : list tagset) : grid := {|
  name := name g; dim := dim g;
  num_nodes := num_nodes g; num_faces := num_faces g; num_cells := num_cells g;
  cell_faces := cell_faces g; face_nodes := face_nodes g;
  cell_nodes := cell_nodes g;
  face_normals := face_normals g; face_centers := face_centers g;
  cell_centers := cell_centers g; cell_volumes := cell_volumes g;
  cell_diameters := cell_diameters g;
  global_point_ind := global_point_ind g;
  boundary_faces := boundary_faces g;
  face_tags := tags
|}.

(** Modelled from the spec: [g.add_face_tag(f, tag)] for an array [f] of
    face indices. *)
Definition add_face_tag (g : grid) (f : list nat) (tag : FaceTag) : res grid :=
  do _ <- mapM (index (face_tags g)) f;
  Ok (with_face_tags g
        (foldl (fun tags i => alter (set_tag tag true) i tags) (face_tags g) f)).

(** Modelled from the spec: [g.remove_face_tag(mask, tag)] for a boolean
    mask over the faces. *)
Definition remove_face_tag (g : grid) (mask : list bool) (tag : FaceTag)
  : res grid :=
  if decide (length mask = length (face_tags g)) then
    Ok (with_face_tags g
          (zip_with (fun (m : bool) t => if m then set_tag tag false t else t)
                    mask (face_tags g)))
  else Raise IndexError.

(** *** tag_faces *)

(** Modelled from the spec: [mcolon.mcolon(lo, hi)], the indices of the
    ranges [lo[i] : hi[i]], one range after the other. *)
Definition mcolon (lo hi : list nat) : list nat :=
  flat_map (fun p => seq (fst p) (snd p - fst p)) (zip lo hi).

(** [a.reshape((n, m), order='F')], as the list of its [m] columns. *)
Definition reshape_F {A : Type} (n m : nat) (a : list A) : res (list (list A)) :=
  if decide (length a = (n * m)%nat) then
    Ok (map (fun j => slice (j * n) (j * n + n) a) (seq 0 m))
  else Raise ValueError.

(** [a[mask]] for a boolean mask of the length of [a]. *)
Definition select {A : Type} (mask : list bool) (a : list A) : list A :=
  map snd (filter (fun p => fst p = true) (zip mask a)).

(** The rows of the non-zero entries of [g_h.face_nodes[:, bnd_faces]].
    [np.unique] is left out: the result is only tested for membership. *)
Definition bnd_nodes_of (g_h : grid) : res (list nat) :=
  do cols <- mapM (fun f => if (f <? num_faces g_h)%nat
                            then Ok (column (face_nodes g_h) f)
                            else Raise IndexError)
                  (boundary_faces g_h);
  Ok (map fst (filter (fun e => snd e = true) (concat cols))).

(** The global nodes of the boundary faces of [g], face after face. *)
Definition nodes_glb (g : grid) : res (list nat) :=
  let bnd_faces_l := boundary_faces g in
  let ip := indptr (face_nodes g) in
  do lo <- mapM (index ip) bnd_faces_l;
  do hi <- mapM (fun f => index ip (S f)) bnd_faces_l;
  let fn_loc := mcolon lo hi in
  do nodes_loc <- mapM (index (indices (face_nodes g))) fn_loc;
  mapM (index (global_point_ind g)) nodes_loc.

(** [is_tip], one flag per boundary face of [g]. *)
Definition tip_flags (bnd_nodes : list nat) (g : grid) : res (list bool) :=
  do glb <- nodes_glb g;
  let is_tip := map (fun n => negb (bool_decide (n ∈ bnd_nodes))) glb in
  do n_per_face <- nodes_per_face g;
  do cols <- reshape_F n_per_face (length (boundary_faces g)) is_tip;
  Ok (map (existsb id) cols).

(** The body of the loop over the grids of the intermediate dimensions. *)
Definition tag_lower (bnd_nodes : list nat) (g : grid) : res grid :=
  do is_tip <- tip_flags bnd_nodes g;
  do g1 <- add_face_tag g (select is_tip (boundary_faces g)) TIP;
  add_face_tag g1 (select (map negb is_tip) (boundary_faces g)) DOMAIN_BOUNDARY.

(** One turn of the loop over the grids of the highest dimension, on the
    grids of the intermediate dimensions [mid]. *)
Definition tag_from (g_h : grid) (mid : list (list grid))
  : res (grid * list (list grid)) :=
  do g_h' <- add_face_tag g_h (boundary_faces g_h) DOMAIN_BOUNDARY;
  do bnd_nodes <- bnd_nodes_of g_h;
  do mid' <- mapM (mapM (tag_lower bnd_nodes)) mid;
  Ok (g_h', mid').

Fixpoint tag_loop (top : list grid) (mid : list (list grid))
  : res (list grid * list (list grid)) :=
  match top with
  | [] => Ok ([], mid)
  | g_h :: top' =>
      do r <- tag_from g_h mid;
      do r' <- tag_loop top' (snd r);
      Ok (fst r :: fst r', snd r')
  end.

Definition reset_domain_boundary (g : grid) : res grid :=
  remove_face_tag g (replicate (num_faces g) true) DOMAIN_BOUNDARY.

(** [tag_faces] changes its grids in place; the value is the list of the
    grids after the call, for a call that raises nothing. *)
Definition tag_faces (grids : list (list grid)) (check_highest_dim : bool)
  : res (list (list grid)) :=
  do grids1 <- mapM (mapM reset_domain_boundary) grids;
  do top <- index grids1 0;
  if andb check_highest_dim (negb (length top =? 1)%nat)
  then Raise AssertionError
  else
    let mid := slice 1 (length grids1 - 1) grids1 in
    do r <- tag_loop top mid;
    Ok (fst r :: snd r ++ drop (1 + length mid) grids1).

(** *** assemble_in_bucket *)

Fixpoint insert_sorted (x : nat) (l : list nat) : list nat :=
  match l with
  | [] => [x]
  | y :: l' => if (x <=? y)%nat then x :: l else y :: insert_sorted x l'
  end.

(** [np.sort] of one column. *)
Definition sort (l : list nat) : list nat := foldr insert_sorted [] l.

(** A boolean matrix in compressed format: its shape and the coordinates
    of its stored entries. *)
Record bool_matrix : Type := {
  bshape : nat * nat;
  stored : gset (nat * nat)
}.

(** [sps.csc_matrix((np.ones(n, dtype=bool), (rows, cols)), shape)]. *)
Definition csc_matrix (rows cols : list nat) (shape : nat * nat)
  : res bool_matrix :=
  if decide (length rows = length cols) then
    if andb (forallb (fun r => (r <? fst shape)%nat) rows)
            (forallb (fun c => (c <? snd shape)%nat) cols)
    then Ok {| bshape := shape; stored := list_to_set (zip rows cols) |}
    else Raise ValueError
  else Raise ValueError.

(** [face_cells.size]: the number of stored entries. *)
Definition size (m : bool_matrix) : nat := length (elements (stored m)).

(** The sorted global nodes of each face of [hg]. *)
Definition face_signatures (hg : grid) (n_per_face : nat)
  : res (list (list nat)) :=
  do fn_loc <- reshape_F n_per_face (num_faces hg) (indices (face_nodes hg));
  do fn <- mapM (mapM (index (global_point_ind hg))) fn_loc;
  Ok (map sort fn).

(** Modelled from the spec: the sorted global nodes of the cell [c] of
    [lg]. *)
Definition cell_signature (lg : grid) (c : nat) : res (list nat) :=
  do glb <- mapM (index (global_point_ind lg))
                 (map fst (filter (fun e => snd e = true)
                                  (column (cell_nodes lg) c)));
  Ok (sort glb).

(** Modelled from the spec: [utils.obtain_interdim_mappings(lg, fn,
    n_per_face)] gives a face of the higher-dimensional grid and a cell of
    [lg] wherever the signature of the face equals that of the cell. *)
Definition obtain_interdim_mappings (lg : grid) (fn : list (list nat))
    (n_per_face : nat) : res (list nat * list nat) :=
  do sigs <- mapM (cell_signature lg) (seq 0 (num_cells lg));
  let pairs :=
    flat_map (fun cs =>
                map (fun fs => (fst fs, fst cs))
                    (filter (fun fs => snd fs = snd cs)
                            (zip (seq 0 (length fn)) fn)))
             (zip (seq 0 (num_cells lg)) sigs) in
  Ok (map fst pairs, map snd pairs).

(** Modelled from the spec: the bucket holds the grids, as its nodes, and
    the coupling matrices, on its edges.  A grid is named by its position
    in the lists of grids. *)
Record bucket_edge : Type := {
  high : nat * nat;
  low : nat * nat;
  face_cells : bool_matrix
}.

Record GridBucket : Type := {
  nodes : list grid;
  edges : list bucket_edge
}.

(** The coupling matrix of a pair of grids. *)
Definition coupling (hg : grid) (fn : list (list nat)) (n_per_face : nat)
    (lg : grid) : res bool_matrix :=
  do m <- obtain_interdim_mappings lg fn n_per_face;
  csc_matrix (snd m) (fst m) (num_cells lg, num_faces hg).

(** The body of the loop over the lower-dimensional grids: the edges added
    to the bucket. *)
Definition couple (d i : nat) (hg : grid) (fn : list (list nat))
    (n_per_face : nat) (jlg : nat * grid) : res (list bucket_edge) :=
  do fc <- coupling hg fn n_per_face (snd jlg);
  if (0 <? size fc)%nat
  then Ok ({| high := (d, i); low := (S d, fst jlg); face_cells := fc |} :: nil)
  else Ok nil.

Definition enumerate {A : Type} (l : list A) : list (nat * A) :=
  zip (seq 0 (length l)) l.

(** The body of the loop over the grids of one dimension. *)
Definition couple_high (d : nat) (lower : list grid) (ihg : nat * grid)
  : res (list bucket_edge) :=
  do n_per_face <- nodes_per_face (snd ihg);
  do fn <- face_signatures (snd ihg) n_per_face;
  do es <- mapM (couple d (fst ihg) (snd ihg) fn n_per_face) (enumerate lower);
  Ok (concat es).

(** The body of the loop over the dimensions. *)
Definition couple_dim (grids : list (list grid)) (d : nat)
  : res (list bucket_edge) :=
  do higher <- index grids d;
  do es <- mapM (fun ihg => do lower <- index grids (S d);
                            couple_high d lower ihg)
                (enumerate higher);
  Ok (concat es).

Definition assemble_in_bucket (grids : list (list grid)) : res GridBucket :=
  do es <- mapM (couple_dim grids) (seq 0 (length grids - 1));
  Ok {| nodes := concat grids; edges := concat es |}.

End Meshing.

(** ** Refinement of a one-dimensional grid (refinement.py) *)

Module Refinement.

(** An integer as a float. *)
Definition qn (n : nat) : Qc := Q2Qc (inject_Z (Z.of_nat n)).

(** [(i * a + (ratio - i) * b) / float(ratio)]. *)
Definition lin (i ratio : nat) (a b : Qc) : Qc :=
  (qn i * a + qn (ratio - i) * b) / qn ratio.

Definition lin3 (i ratio : nat) (a b : vec3) : vec3 :=
  let '(a0, a1, a2) := a in
  let '(b0, b1, b2) := b in
  (lin i ratio a0 b0, lin i ratio a1 b1, lin i ratio a2 b2).

(** The columns assigned to a slice of [n] columns: as many columns, or
    one column that is broadcast. *)
Definition broadcast_cols {A : Type} (n : nat) (cols : list A) : res (list A) :=
  if decide (length cols = n) then Ok cols
  else match cols with
       | x :: nil => Ok (replicate n x)
       | _ => Raise ValueError
       end.

Definition zero3 : vec3 := (0, 0, 0).

(** The node array [x] that [refine_grid_1d] builds from [g.nodes], as the
    list of its columns: [x[:, 0::ratio]] holds the old nodes and
    [x[:, i::ratio]] the new nodes of the cells.  A step of 0 is no
    slice. *)
Definition refine_nodes (num_cells : nat) (nodes : list vec3) (ratio : nat)
  : res (list vec3) :=
  if (ratio =? 0)%nat then Raise ValueError else
  do base <- broadcast_cols (S num_cells) nodes;
  do inner <-
    mapM (fun i => broadcast_cols num_cells
                     (zip_with (lin3 i ratio) (removelast nodes) (tail nodes)))
         (seq 1 (ratio - 1));
  Ok (map (fun p =>
             if (p mod ratio =? 0)%nat then nth (p / ratio) base zero3
             else nth (p / ratio) (nth (p mod ratio - 1) inner []) zero3)
          (seq 0 (num_cells * ratio + 1))).

End Refinement.

(** ** Well-formed data *)

(** A block as [cell_block] returns it: an [n] by [n] matrix for [n] faces. *)
Definition square_block (blk : list nat * mat) : Prop :=
  length (snd blk) = length (fst blk) /\
  Forall (fun r => length r = length (fst blk)) (snd blk).

(** The stored row indices of [g.cell_faces] are face indices: the matrix
    has [g.num_faces] rows. *)
Definition rows_in_range (g : grid) : Prop :=
  Forall (fun t : triplet => (fst (fst t) < num_faces g)%nat)
         (tocoo (cell_faces g) (num_cells g)).

(** The global nodes of the face [f] of [g]. *)
Definition face_nodes_glb (g : grid) (f : nat) : res (list nat) :=
  do a <- index (indptr (face_nodes g)) f;
  do b <- index (indptr (face_nodes g)) (S f);
  do loc <- mapM (index (indices (face_nodes g))) (seq a (b - a));
  mapM (index (global_point_ind g)) loc.

(** Every boundary face of [g] has [n] nodes. *)
Definition boundary_faces_have (g : grid) (n : nat) : Prop :=
  forall f a b, f ∈ boundary_faces g ->
    indptr (face_nodes g) !! f = Some a ->
    indptr (face_nodes g) !! S f = Some b -> (b - a = n)%nat.

(** Some node of [ns] is no boundary node of the grid of the highest
    dimension; all of them are. *)
Definition some_inner (bnd_nodes ns : list nat) : bool :=
  existsb (fun x => negb (bool_decide (x ∈ bnd_nodes))) ns.

Definition all_on_boundary (bnd_nodes ns : list nat) : bool :=
  forallb (fun x => bool_decide (x ∈ bnd_nodes)) ns.

(** The turns of the loop body of [tag_faces] that one grid of an
    intermediate dimension goes through: one for each grid of the highest
    dimension. *)
Fixpoint tag_passes (top : list grid) (g : grid) : res grid :=
  match top with
  | [] => Ok g
  | g_h :: top' =>
      do bnd_nodes <- Meshing.bnd_nodes_of g_h;
      do g1 <- Meshing.tag_lower bnd_nodes g;
      tag_passes top' g1
  end.

(** [g'] is [g] but for its face tags, which keep their FRACTURE and TIP
    flags: FRACTURE is as in [g], and TIP is not taken away. *)
Definition tags_grow (g g' : grid) : Prop :=
  g' = Meshing.with_face_tags g (face_tags g') /\
  Forall2 (fun t t' => on_fracture t' = on_fracture t /\
                       (on_tip t = true -> on_tip t' = true))
          (face_tags g) (face_tags g').

(** ** Example data *)

Module Examples.

Definition q (n : Z) (d : positive) : Qc := Q2Qc (n # d).

(** The unit permeability. *)
Definition id33 : mat33 := ((1, 0, 0), (0, 1, 0), (0, 0, 1)).

(** A one-dimensional Cartesian grid of two unit cells, [0,1] and [1,2],
    with the faces at x = 0, 1, 2. *)
Definition line2 : grid := {|
  name := "CartGrid";
  dim := 1; num_nodes := 3; num_faces := 3; num_cells := 2;
  cell_faces := {| indptr := [0; 2; 4]%nat; indices := [0; 1; 1; 2]%nat;
                   data := [-1; 1; -1; 1] |};
  face_nodes := {| indptr := [0; 1; 2; 3]%nat; indices := [0; 1; 2]%nat;
                   data := [true; true; true] |};
  cell_nodes := {| indptr := [0; 2; 4]%nat; indices := [0; 1; 1; 2]%nat;
                   data := [true; true; true; true] |};
  face_normals := [(1, 0, 0); (1, 0, 0); (1, 0, 0)];
  face_centers := [(0, 0, 0); (1, 0, 0); (q 2 1, 0, 0)];
  cell_centers := [(q 1 2, 0, 0); (q 3 2, 0, 0)];
  cell_volumes := [1; 1];
  cell_diameters := [1; 1];
  global_point_ind := [0; 1; 2]%nat;
  boundary_faces := [0; 2]%nat;
  face_tags := replicate 3 {| on_domain_boundary := false; on_fracture := false;
                              on_tip := false |}
|}.

Definition unit_perm2 : second_order_tensor := {| perm := [id33; id33] |}.


Definition no_tags : tagset :=
  {| on_domain_boundary := false; on_fracture := false; on_tip := false |}.

(** The topology of a three-dimensional Cartesian grid of 2 x 2 x 2 cells:
    27 nodes, numbered along x, then y, then z, and 36 faces, those normal
    to x first, then those normal to y, then those normal to z.  Node 13 is
    the only node in the interior.  The geometry is not computed yet, as
    when the grids are tagged and put in the bucket. *)
Definition cube8_face_nodes : list nat :=
  [0; 3; 12; 9; 1; 4; 13; 10; 2; 5; 14; 11; 3; 6; 15; 12; 4; 7; 16; 13; 5;
  8; 17; 14; 9; 12; 21; 18; 10; 13; 22; 19; 11; 14; 23; 20; 12; 15; 24; 21;
  13; 16; 25; 22; 14; 17; 26; 23; 0; 1; 10; 9; 1; 2; 11; 10; 3; 4; 13; 12;
  4; 5; 14; 13; 6; 7; 16; 15; 7; 8; 17; 16; 9; 10; 19; 18; 10; 11; 20; 19;
  12; 13; 22; 21; 13; 14; 23; 22; 15; 16; 25; 24; 16; 17; 26; 25; 0; 1; 4;
  3; 1; 2; 5; 4; 3; 4; 7; 6; 4; 5; 8; 7; 9; 10; 13; 12; 10; 11; 14; 13; 12;
  13; 16; 15; 13; 14; 17; 16; 18; 19; 22; 21; 19; 20; 23; 22; 21; 22; 25;
  24; 22; 23; 26; 25]%nat.

Definition cube8_cell_faces : list nat :=
  [0; 1; 12; 14; 24; 28; 1; 2; 13; 15; 25; 29; 3; 4; 14; 16; 26; 30; 4; 5;
  15; 17; 27; 31; 6; 7; 18; 20; 28; 32; 7; 8; 19; 21; 29; 33; 9; 10; 20; 22;
  30; 34; 10; 11; 21; 23; 31; 35]%nat.

Definition cube8_cell_nodes : list nat :=
  [0; 1; 3; 4; 9; 10; 12; 13; 1; 2; 4; 5; 10; 11; 13; 14; 3; 4; 6; 7; 12;
  13; 15; 16; 4; 5; 7; 8; 13; 14; 16; 17; 9; 10; 12; 13; 18; 19; 21; 22; 10;
  11; 13; 14; 19; 20; 22; 23; 12; 13; 15; 16; 21; 22; 24; 25; 13; 14; 16;
  17; 22; 23; 25; 26]%nat.

Definition cube8_boundary_faces : list nat :=
  [0; 2; 3; 5; 6; 8; 9; 11; 12; 13; 16; 17; 18; 19; 22; 23; 24; 25; 26; 27;
  32; 33; 34; 35]%nat.

Definition cube8 : grid := {|
  name := "CartGrid";
  dim := 3; num_nodes := 27; num_faces := 36; num_cells := 8;
  cell_faces := {| indptr := map (Nat.mul 6) (seq 0 9);
                   indices := cube8_cell_faces;
                   data := concat (replicate 24 [-1; 1]) |};
  face_nodes := {| indptr := map (Nat.mul 4) (seq 0 37);
                   indices := cube8_face_nodes;
                   data := replicate 144 true |};
  cell_nodes := {| indptr := map (Nat.mul 8) (seq 0 9);
                   indices := cube8_cell_nodes;
                   data := replicate 64 true |};
  face_normals := []; face_centers := []; cell_centers := [];
  cell_volumes := []; cell_diameters := [];
  global_point_ind := seq 0 27;
  boundary_faces := cube8_boundary_faces;
  face_tags := replicate 36 no_tags
|}.

(** A fracture in the plane x = 1 of that grid: one square cell with the
    nodes (1,0,0), (1,1,0), (1,0,1) and (1,1,1), that is the nodes 1, 4, 10
    and 13 of the three-dimensional grid.  Its four faces are the edges
    of the square; the edges 1 and 3 end at the interior node 13. *)
Definition square1 : grid := {|
  name := "CartGrid";
  dim := 2; num_nodes := 4; num_faces := 4; num_cells := 1;
  cell_faces := {| indptr := [0; 4]%nat; indices := [0; 1; 2; 3]%nat;
                   data := [-1; 1; -1; 1] |};
  face_nodes := {| indptr := [0; 2; 4; 6; 8]%nat;
                   indices := [0; 2; 1; 3; 0; 1; 2; 3]%nat;
                   data := replicate 8 true |};
  cell_nodes := {| indptr := [0; 4]%nat; indices := [0; 1; 2; 3]%nat;
                   data := replicate 4 true |};
  face_normals := []; face_centers := []; cell_centers := [];
  cell_volumes := []; cell_diameters := [];
  global_point_ind := [1; 4; 10; 13]%nat;
  boundary_faces := [0; 1; 2; 3]%nat;
  face_tags := replicate 4 no_tags
|}.


(** The grids of the dimensions 3, 2, 1 and 0. *)
Definition fractured_cube : list (list grid) :=
  (cube8 :: nil) :: (square1 :: nil) :: nil :: nil :: nil.

End Examples.

(** * Properties *)

Import Dual.

(** ** Entries of the dense operations *)

Section DenseFacts.

Lemma msum_ext n f g :
  (forall t, (t < n)%nat -> f t = g t) -> msum n f = msum n g.
Proof.
  induction n as [|n IH]; simpl; intros H; [done|].
  rewrite IH by (intros; apply H; lia). rewrite H by lia. done.
Qed.

Lemma msum_add n f g :
  msum n (fun t => f t + g t) = msum n f + msum n g.
Proof. induction n as [|n IH]; simpl; [ring | rewrite IH; ring]. Qed.

Lemma msum_scale n a f : msum n (fun t => a * f t) = a * msum n f.
Proof. induction n as [|n IH]; simpl; [ring | rewrite IH; ring]. Qed.

Lemma msum_zero n : msum n (fun _ => 0) = 0.
Proof. induction n as [|n IH]; simpl; [done | rewrite IH; ring]. Qed.

Lemma msum_swap n m (f : nat -> nat -> Qc) :
  msum n (fun i => msum m (fun j => f i j)) =
  msum m (fun j => msum n (fun i => f i j)).
Proof.
  induction n as [|n IH]; simpl.
  - by rewrite msum_zero.
  - rewrite IH, <- msum_add. done.
Qed.

Lemma msum_tail n m f :
  (m <= n)%nat -> (forall t, (m <= t < n)%nat -> f t = 0) ->
  msum n f = msum m f.
Proof.
  induction n as [|n IH]; intros Hle H.
  - by replace m with 0%nat by lia.
  - destruct (decide (m = S n)) as [->|Hne]; [done|].
    simpl. rewrite IH by (try lia; intros; apply H; lia).
    rewrite H by lia. ring.
Qed.

Lemma vsum_app u v : vsum (u ++ v) = vsum u + vsum v.
Proof.
  unfold vsum. induction u as [|x u IH]; simpl; [ring | rewrite IH; ring].
Qed.

Lemma vsum_msum l : vsum l = msum (length l) (fun t => nth t l 0).
Proof.
  induction l as [|x l IH] using rev_ind; [done|].
  rewrite vsum_app, length_app, Nat.add_1_r. simpl.
  rewrite app_nth2, Nat.sub_diag by lia. simpl.
  rewrite IH. unfold vsum. simpl. f_equal; [|ring].
  apply msum_ext. intros t Ht. by rewrite app_nth1.
Qed.

Lemma nth_zip_with_mult u v t :
  nth t (zip_with Qcmult u v) 0 = nth t u 0 * nth t v 0.
Proof.
  rewrite !nth_lookup, lookup_zip_with.
  destruct (u !! t), (v !! t); simpl; ring.
Qed.

Lemma vdot_msum u v m :
  (Nat.min (length u) (length v) <= m)%nat ->
  vdot u v = msum m (fun t => nth t u 0 * nth t v 0).
Proof.
  intros Hm. unfold vdot. rewrite vsum_msum, length_zip_with.
  rewrite (msum_ext _ _ (fun t => nth t u 0 * nth t v 0))
    by (intros; apply nth_zip_with_mult).
  symmetry. apply msum_tail; [done|].
  intros t Ht. rewrite !nth_lookup.
  destruct (decide (length u <= t)%nat).
  - rewrite (lookup_ge_None_2 u) by done. simpl. ring.
  - rewrite (lookup_ge_None_2 v) by lia. simpl. ring.
Qed.

Lemma nth_col j M i : nth i (col j M) 0 = entry M i j.
Proof.
  unfold col, entry. rewrite !nth_lookup, list_lookup_fmap.
  destruct (M !! i) as [r|]; simpl; [by rewrite nth_lookup | done].
Qed.

Lemma length_col j M : length (col j M) = length M.
Proof. apply length_map. Qed.

Lemma nth_map_seq {A : Type} (f : nat -> A) n i d :
  (i < n)%nat -> nth i (map f (seq 0 n)) d = f i.
Proof.
  intros Hi. rewrite nth_lookup, list_lookup_fmap, lookup_seq_lt by done.
  done.
Qed.

Lemma entry_transpose c M i j :
  (i < c)%nat -> entry (transpose c M) i j = entry M j i.
Proof.
  intros Hi. unfold entry at 1, transpose.
  rewrite nth_map_seq by done. apply nth_col.
Qed.

Lemma length_transpose c M : length (transpose c M) = c.
Proof. unfold transpose. by rewrite length_map, length_seq. Qed.

Lemma length_mmul c A B : length (mmul c A B) = length A.
Proof. apply length_map. Qed.

Lemma row_mmul c A B i :
  (i < length A)%nat ->
  nth i (mmul c A B) [] =
  map (fun j => vdot (nth i A []) (col j B)) (seq 0 c).
Proof.
  intros Hi. unfold mmul.
  destruct (lookup_lt_is_Some_2 A i Hi) as [r Hr].
  rewrite (nth_lookup_Some A i [] r Hr).
  apply nth_lookup_Some. by rewrite list_lookup_fmap, Hr.
Qed.

Lemma entry_mmul c A B i j m :
  (i < length A)%nat -> (j < c)%nat ->
  (Nat.min (length (nth i A [])) (length B) <= m)%nat ->
  entry (mmul c A B) i j = msum m (fun t => entry A i t * entry B t j).
Proof.
  intros Hi Hj Hm. unfold entry at 1.
  rewrite row_mmul, nth_map_seq by done.
  rewrite (vdot_msum _ _ m) by (by rewrite length_col).
  apply msum_ext. intros t _. by rewrite nth_col.
Qed.

Lemma Forall_rows_mmul c A B :
  Forall (fun r => length r = c) (mmul c A B).
Proof.
  unfold mmul. apply Forall_forall. intros r Hr.
  apply list_elem_of_fmap in Hr as (r' & -> & _).
  by rewrite length_map, length_seq.
Qed.

Lemma entry_zip_with (op : Qc -> Qc -> Qc) (A B : mat) i j :
  (i < length A)%nat -> (i < length B)%nat ->
  (j < length (nth i A []))%nat -> (j < length (nth i B []))%nat ->
  entry (zip_with (zip_with op) A B) i j = op (entry A i j) (entry B i j).
Proof.
  intros HA HB HjA HjB. unfold entry.
  destruct (lookup_lt_is_Some_2 A i HA) as [ra Hra].
  destruct (lookup_lt_is_Some_2 B i HB) as [rb Hrb].
  rewrite (nth_lookup_Some A i [] ra Hra) in *.
  rewrite (nth_lookup_Some B i [] rb Hrb) in *.
  rewrite (nth_lookup_Some (zip_with (zip_with op) A B) i [] (zip_with op ra rb)).
  2:{ rewrite lookup_zip_with, Hra, Hrb. done. }
  destruct (lookup_lt_is_Some_2 ra j HjA) as [x Hx].
  destruct (lookup_lt_is_Some_2 rb j HjB) as [y Hy].
  rewrite (nth_lookup_Some ra j 0 x Hx), (nth_lookup_Some rb j 0 y Hy).
  apply nth_lookup_Some. rewrite lookup_zip_with, Hx, Hy. done.
Qed.

Lemma Forall_rows_zip_with (op : Qc -> Qc -> Qc) (A B : mat) n :
  Forall (fun r => length r = n) A -> Forall (fun r => length r = n) B ->
  Forall (fun r => length r = n) (zip_with (zip_with op) A B).
Proof.
  intros HA. revert B. induction HA as [|ra A Hra HA IH]; intros B HB.
  - constructor.
  - destruct HB as [|rb B Hrb HB]; simpl; constructor; [|by apply IH].
    rewrite length_zip_with. lia.
Qed.

Lemma entry_mscale w M i j : entry (mscale w M) i j = w * entry M i j.
Proof.
  unfold entry, mscale. rewrite !nth_lookup, list_lookup_fmap.
  destruct (M !! i) as [r|]; simpl; [|ring].
  rewrite ?nth_lookup, list_lookup_fmap. destruct (r !! j); simpl; ring.
Qed.

Lemma Forall_rows_mscale w M n :
  Forall (fun r => length r = n) M ->
  Forall (fun r => length r = n) (mscale w M).
Proof.
  unfold mscale. intros H. apply Forall_fmap. eapply Forall_impl; [done|].
  intros r Hr. simpl. by rewrite length_map.
Qed.

Lemma entry_mtimes M w i j : entry (mtimes M w) i j = entry M i j * w.
Proof.
  unfold entry, mtimes. rewrite !nth_lookup, list_lookup_fmap.
  destruct (M !! i) as [r|]; simpl; [|ring].
  rewrite ?nth_lookup, list_lookup_fmap. destruct (r !! j); simpl; ring.
Qed.

Lemma entry_eye n i j :
  (i < n)%nat -> (j < n)%nat ->
  entry (eye n) i j = if Nat.eqb i j then 1 else 0.
Proof.
  intros Hi Hj. unfold entry, eye. by rewrite !nth_map_seq.
Qed.

Lemma length_eye n : length (eye n) = n.
Proof. unfold eye. by rewrite length_map, length_seq. Qed.

Lemma Forall_rows_eye n : Forall (fun r => length r = n) (eye n).
Proof.
  unfold eye. apply Forall_forall. intros r Hr.
  apply list_elem_of_fmap in Hr as (i & -> & _).
  by rewrite length_map, length_seq.
Qed.

Lemma length_row {n} M i :
  Forall (fun r : vec => length r = n) M -> (i < length M)%nat ->
  length (nth i M []) = n.
Proof.
  intros H Hi. destruct (lookup_lt_is_Some_2 M i Hi) as [r Hr].
  rewrite (nth_lookup_Some M i [] r Hr).
  by apply (Forall_lookup_1 _ _ _ _ H Hr).
Qed.

End DenseFacts.

(** ** The error monad *)

Lemma bind_ok {A B : Type} (m : res A) (f : A -> res B) (b : B) :
  bind m f = Ok b -> exists a, m = Ok a /\ f a = Ok b.
Proof. destruct m as [a|e]; simpl; [eauto | discriminate]. Qed.

Lemma bind_raise {A B : Type} (m : res A) (f : A -> res B) (e : exn) :
  bind m f = Raise e ->
  m = Raise e \/ exists a, m = Ok a /\ f a = Raise e.
Proof. destruct m as [a|e']; simpl; [eauto | intros [= ->]; auto]. Qed.

Lemma index_ok {A : Type} (l : list A) (i : nat) (a : A) :
  index l i = Ok a <-> l !! i = Some a.
Proof. unfold index. destruct (l !! i); split; congruence. Qed.

Lemma index_raise {A : Type} (l : list A) (i : nat) (e : exn) :
  index l i = Raise e -> e = IndexError /\ (length l <= i)%nat.
Proof.
  unfold index. destruct (l !! i) eqn:H; [discriminate|].
  intros [= <-]. split; [reflexivity|]. by apply lookup_ge_None.
Qed.

Lemma mapM_raise {A B : Type} (f : A -> res B) (l : list A) (e : exn) :
  mapM f l = Raise e -> exists a, a ∈ l /\ f a = Raise e.
Proof.
  induction l as [|a l IH]; simpl; [discriminate|].
  intros H. apply bind_raise in H as [H|(b & Hb & H)].
  - exists a. split; [left|done].
  - apply bind_raise in H as [H|(bs & Hbs & H)]; [|discriminate].
    destruct (IH H) as (a' & Hin & Ha'). exists a'. split; [by right|done].
Qed.

Lemma mapM_ok {A B : Type} (f : A -> res B) (l : list A) (bs : list B) :
  mapM f l = Ok bs -> Forall2 (fun a b => f a = Ok b) l bs.
Proof.
  revert bs. induction l as [|a l IH]; simpl; intros bs H.
  - injection H as <-. constructor.
  - apply bind_ok in H as (b & Hb & H).
    apply bind_ok in H as (bs' & Hbs & H). injection H as <-.
    constructor; auto.
Qed.

Lemma mapM_length {A B : Type} (f : A -> res B) (l : list A) (bs : list B) :
  mapM f l = Ok bs -> length bs = length l.
Proof. intros H. apply mapM_ok in H. symmetry. by eapply Forall2_length. Qed.

(** ** Which exceptions the steps of a cell can raise *)









(** ** The loops over the cells *)







(** ** The consistency check of [matrix] and [projectU] *)

Section ConsistencyCheck.

Variables (g : grid) (k : second_order_tensor).
Let fs := find (cell_faces g) (num_cells g).



End ConsistencyCheck.





(** ** [extract] *)

(** C7: on a vector of length [num_faces + num_cells], [extract] returns its
    first [num_faces] entries and its last [num_cells] entries, and the two
    parts concatenated are the vector. *)
Theorem extract_roundtrip (g : grid) (up : vec) :
  length up = (num_faces g + num_cells g)%nat ->
  exists u p,
    extract g up = Ok (u, p) /\
    length u = num_faces g /\ length p = num_cells g /\
    (forall i, (i < num_faces g)%nat -> u !! i = up !! i) /\
    (forall j, (j < num_cells g)%nat -> p !! j = up !! (num_faces g + j)%nat) /\
    u ++ p = up.
Proof.
  intros Hlen. exists (take (num_faces g) up), (drop (num_faces g) up).
  split; [reflexivity|].
  split; [rewrite length_take; lia|].
  split; [rewrite length_drop; lia|].
  split; [intros i Hi; by apply lookup_take_lt|].
  split; [intros j Hj; apply lookup_drop|].
  apply take_drop.
Qed.

Lemma extract_roundtrip_witness :
  exists u p,
    extract Examples.line2 [1; 1; 1; 0; 0] = Ok (u, p) /\
    length u = 3%nat /\ length p = 2%nat /\ u ++ p = [1; 1; 1; 0; 0].
Proof.
  destruct (extract_roundtrip Examples.line2 [1; 1; 1; 0; 0])
    as (u & p & H & Hu & Hp & _ & _ & Happ); [reflexivity|].
  exists u, p. repeat split; assumption.
Defined.

(** C8, as stated: [extract] would fail on every vector whose length is not
    [num_faces + num_cells].  It does not: slicing never raises. *)
Lemma extract_size_mismatch_counterexample :
  ~ (forall (g : grid) (up : vec),
       length up <> (num_faces g + num_cells g)%nat ->
       exists e, extract g up = Raise e).
Proof.
  intros H.
  destruct (H Examples.line2 [1; 1] ltac:(simpl; lia)) as [e He].
  discriminate.
Qed.

(** C8, amended: [extract] has no error case.  For a vector of any length it
    returns the entries before position [num_faces] and the entries from
    there on; these two parts always concatenate to the input. *)
Theorem extract_total (g : grid) (up : vec) :
  exists u p,
    extract g up = Ok (u, p) /\
    u = take (num_faces g) up /\ p = drop (num_faces g) up /\
    length u = Nat.min (num_faces g) (length up) /\
    length p = (length up - num_faces g)%nat /\
    u ++ p = up.
Proof.
  exists (take (num_faces g) up), (drop (num_faces g) up).
  repeat split.
  - apply length_take.
  - apply length_drop.
  - apply take_drop.
Qed.

(** ** The boundary-condition argument *)

(** C9: [matrix] and [rhs] do not depend on their argument [bc]. *)
Theorem bc_is_ignored {BC1 BC2 : Type} (g : grid) (k : second_order_tensor)
    (f : list vec3 -> vec) (bc1 : option BC1) (bc2 : option BC2) :
  matrix g k bc1 = matrix g k bc2 /\ rhs g f bc1 = rhs g f bc2.
Proof. split; reflexivity. Qed.

(** ** The local matrices of a cell *)

Lemma entry_take_take d (M : mat) i j :
  (i < d)%nat -> (j < d)%nat ->
  entry (take d (map (take d) M)) i j = entry M i j.
Proof.
  intros Hi Hj. unfold entry.
  assert (nth i (take d (map (take d) M)) [] = take d (nth i M [])) as ->.
  { rewrite !nth_lookup, lookup_take_lt, list_lookup_fmap by done.
    destruct (M !! i) as [r|]; simpl; [done | by rewrite take_nil]. }
  by rewrite !nth_lookup, lookup_take_lt.
Qed.

Lemma sandwich_sym d (P S : nat -> nat -> Qc) x y :
  (forall a b, (a < d)%nat -> (b < d)%nat -> S a b = S b a) ->
  msum d (fun a => P x a * msum d (fun b => S a b * P y b)) =
  msum d (fun a => P y a * msum d (fun b => S a b * P x b)).
Proof.
  intros HS.
  rewrite (msum_ext d _ (fun a => msum d (fun b => P x a * (S a b * P y b))))
    by (intros; by rewrite msum_scale).
  rewrite (msum_ext d (fun a => P y a * _)
             (fun a => msum d (fun b => P y a * (S a b * P x b))))
    by (intros; by rewrite msum_scale).
  rewrite (msum_swap d d (fun a b => P y a * (S a b * P x b))).
  apply msum_ext. intros a Ha. apply msum_ext. intros b Hb.
  rewrite (HS a b) by done. ring.
Qed.

Section LocalShapes.

Variables (g : grid) (k : second_order_tensor) (fs : list triplet) (c : nat).
Variable L : local_matrices.
Hypothesis HL : local g k fs c = Ok L.

Let d := dim g.
Let n := length (faces_loc L).

Lemma local_inv :
  exists loc c_center vol Kc,
    cell_loc g fs c = Ok loc /\
    cell_centers g !! c = Some c_center /\
    cell_diameters g !! c = Some (diam L) /\
    cell_volumes g !! c = Some vol /\
    perm k !! c = Some Kc /\
    (1 <= d <= 3)%nat /\
    faces_loc L = faces_of loc /\
    K L = take d (map (take d) (m33 Kc)) /\
    G L = mtimes (mmul d (mdiv (eye d) (diam L))
                    (mmul d (K L) (transpose d (mdiv (eye d) (diam L))))) vol /\
    (exists normalsT,
       length normalsT = n /\
       D L = transpose n
               (map (fun gi => mv normalsT (mv (K L) gi))
                    (mdiv (eye d) (diam L)))) /\
    length (F L) = d /\ Forall (fun r => length r = n) (F L).
Proof.
  unfold local in HL.
  apply bind_ok in HL as (loc & Hloc & H).
  apply bind_ok in H as (cc & Hcc & H).
  apply bind_ok in H as (dm & Hdm & H).
  apply bind_ok in H as (Kc & HKc & H).
  apply bind_ok in H as (nT & HnT & H).
  destruct (3 <? dim g)%nat eqn:Hd3; [discriminate|].
  apply bind_ok in H as (vol & Hvol & H).
  apply bind_ok in H as (FF & HFF & H).
  destruct (dim g =? 0)%nat eqn:Hd0; [discriminate|].
  injection H as <-. simpl in *.
  apply Nat.ltb_ge in Hd3. apply Nat.eqb_neq in Hd0.
  apply index_ok in Hcc, Hdm, HKc, Hvol.
  exists loc, cc, vol, Kc. repeat split; try done; try (subst d; lia).
  - exists nT. split; [|done]. by apply mapM_length in HnT.
  - apply mapM_length in HFF. by rewrite HFF, length_seq.
  - apply mapM_ok in HFF. apply Forall_forall. intros r Hr.
    apply list_elem_of_lookup in Hr as [i Hi].
    destruct (Forall2_lookup_r _ _ _ _ _ HFF Hi) as (j & _ & Hj).
    apply mapM_length in Hj. subst n. unfold faces_of.
    by rewrite length_map.
Qed.

Lemma local_length_D : length (D L) = n.
Proof.
  destruct local_inv as (?&?&?&?&_&_&_&_&_&_&_&_&_&(nT&_&->)&_).
  apply length_transpose.
Qed.

Lemma local_rows_D : Forall (fun r => length r = d) (D L).
Proof.
  destruct local_inv as (?&?&?&?&_&_&_&_&_&_&_&_&_&(nT&_&->)&_).
  unfold transpose. apply Forall_forall. intros r Hr.
  apply list_elem_of_fmap in Hr as (j & -> & _).
  rewrite length_col, length_map. unfold mdiv. by rewrite length_map, length_eye.
Qed.

Lemma local_length_G : length (G L) = d.
Proof.
  destruct local_inv as (?&?&?&?&_&_&_&_&_&_&_&_&->&_).
  unfold mtimes, mdiv. by rewrite length_map, length_mmul, length_map, length_eye.
Qed.

Lemma local_rows_G : Forall (fun r => length r = d) (G L).
Proof.
  destruct local_inv as (?&?&?&?&_&_&_&_&_&_&_&_&->&_).
  unfold mtimes. apply Forall_fmap.
  eapply Forall_impl; [apply Forall_rows_mmul|].
  intros r Hr. simpl. by rewrite length_map.
Qed.

Lemma local_length_F : length (F L) = d.
Proof. by destruct local_inv as (?&?&?&?&_&_&_&_&_&_&_&_&_&_&?&_). Qed.

Lemma local_rows_F : Forall (fun r => length r = n) (F L).
Proof. by destruct local_inv as (?&?&?&?&_&_&_&_&_&_&_&_&_&_&_&?). Qed.

End LocalShapes.

Section LocalBlock.

Variables (g : grid) (k : second_order_tensor) (fs : list triplet) (c : nat).
Variable L : local_matrices.
Hypothesis HL : local g k fs c = Ok L.
Hypothesis Hsym : symmetric_perm k c.

Let d := dim g.
Let n := length (faces_loc L).

Lemma local_G_sym i j :
  (i < d)%nat -> (j < d)%nat -> entry (G L) i j = entry (G L) j i.
Proof.
  intros Hi Hj.
  destruct (local_inv g k fs c L HL)
    as (loc & cc & vol & Kc & _ & _ & _ & _ & HKc & Hd & _ & HK & HG & _).
  fold d in Hd, HK, HG.
  set (grad := mdiv (eye d) (diam L)) in *.
  assert (Hgrad : length grad = d)
    by (unfold grad, mdiv; by rewrite length_map, length_eye).
  assert (HlenK : length (K L) = d).
  { rewrite HK, length_take, length_map.
    destruct Kc as [[r0 r1] r2]. simpl. lia. }
  assert (HKsym : forall a b, (a < d)%nat -> (b < d)%nat ->
                    entry (K L) a b = entry (K L) b a).
  { intros a b Ha Hb. rewrite HK, !entry_take_take by done.
    by apply Hsym. }
  assert (HX : forall x y, (x < d)%nat -> (y < d)%nat ->
            entry (G L) x y =
            msum d (fun a => entry grad x a *
                      msum d (fun b => entry (K L) a b * entry grad y b)) * vol).
  { intros x y Hx Hy. rewrite HG, entry_mtimes. f_equal.
    rewrite (entry_mmul _ _ _ _ _ d)
      by (rewrite ?length_mmul, ?HlenK, ?Hgrad; lia).
    apply msum_ext. intros a Ha. f_equal.
    rewrite (entry_mmul _ _ _ _ _ d)
      by (rewrite ?length_transpose, ?HlenK; lia).
    apply msum_ext. intros b Hb. f_equal. by apply entry_transpose. }
  rewrite !HX by done. f_equal.
  by apply (sandwich_sym d (entry grad) (entry (K L))).
Qed.

End LocalBlock.

(** The entries of the local block of a cell. *)
Lemma cell_block_entries (g : grid) (k : second_order_tensor)
    (fs : list triplet) (c : nat) (faces : list nat) (A : mat) :
  cell_block g k fs c = Ok (faces, A) ->
  let n := length faces in
  let d := dim g in
  exists L Ginv Kinv,
    local g k fs c = Ok L /\ faces_loc L = faces /\
    inv (G L) = Ok Ginv /\ inv (K L) = Ok Kinv /\
    let Pi := mmul n Ginv (F L) in
    Pi_s L = Ok Pi /\
    (forall i a, (a < n)%nat ->
       entry Pi i a = msum d (fun j => entry Ginv i j * entry (F L) j a)) /\
    length A = n /\ Forall (fun r => length r = n) A /\
    (forall a b, (a < n)%nat -> (b < n)%nat ->
       entry A a b =
       stiffness_spec d n Pi (G L) (D L) (norm_inf Kinv) a b) /\
    (symmetric_perm k c ->
     forall a b, (a < n)%nat -> (b < n)%nat -> entry A a b = entry A b a).
Proof.
  intros Hblk n d. unfold cell_block in Hblk.
  apply bind_ok in Hblk as (L & HL & H).
  destruct (consistent (dim g) L); [|discriminate].
  apply bind_ok in H as (A' & HA & H). injection H as <- <-.
  fold n. unfold stiffness in HA. fold n in HA.
  apply bind_ok in HA as (Pi & HPi & HA).
  apply bind_ok in HA as (Kinv & HKinv & HA).
  injection HA as HA.
  pose proof HPi as HPi'. unfold Pi_s in HPi'. fold n in HPi'.
  apply bind_ok in HPi' as (Ginv & HGinv & HPi').
  injection HPi' as HPi'.
  exists L, Ginv, Kinv. split; [done|]. split; [done|].
  split; [done|]. split; [done|]. cbv zeta. rewrite HPi'.
  split; [done|].
  pose proof (local_length_D g k fs c L HL) as HlenD. fold n in HlenD.
  pose proof (local_rows_D g k fs c L HL) as HrowsD. fold d in HrowsD.
  pose proof (local_length_G g k fs c L HL) as HlenG. fold d in HlenG.
  pose proof (local_rows_G g k fs c L HL) as HrowsG. fold d in HrowsG.
  pose proof (local_length_F g k fs c L HL) as HlenF. fold d in HlenF.
  set (w := norm_inf Kinv) in *.
  set (I_Pi := msub (eye n) (mmul n (D L) Pi)) in *.
  (* entries of Pi *)
  assert (HPi_entry : forall i a, (a < n)%nat ->
            entry Pi i a = msum d (fun j => entry Ginv i j * entry (F L) j a)).
  { intros i a Ha. rewrite <- HPi'.
    destruct (decide (i < length Ginv)%nat) as [Hi|Hi].
    - apply entry_mmul; [done|done|]. rewrite HlenF. lia.
    - unfold entry at 1. rewrite (nth_overflow (mmul n Ginv (F L)))
        by (rewrite length_mmul; lia).
      rewrite (msum_ext _ _ (fun _ => 0)); [by rewrite msum_zero; destruct a|].
      intros j _. unfold entry at 1. rewrite (nth_overflow Ginv) by lia.
      destruct j; simpl; ring. }
  (* entries of D Pi and of I - D Pi *)
  assert (HDPi : forall f a, (f < n)%nat -> (a < n)%nat ->
            entry (mmul n (D L) Pi) f a =
            msum d (fun i => entry (D L) f i * entry Pi i a)).
  { intros f a Hf Ha. apply entry_mmul; [lia|done|].
    rewrite (length_row (D L) f HrowsD) by lia. lia. }
  assert (HI_Pi : forall f a, (f < n)%nat -> (a < n)%nat ->
            entry I_Pi f a =
            delta f a - msum d (fun i => entry (D L) f i * entry Pi i a)).
  { intros f a Hf Ha. unfold I_Pi, msub.
    rewrite entry_zip_with.
    - rewrite entry_eye, HDPi by done. done.
    - by rewrite length_eye.
    - rewrite length_mmul. lia.
    - rewrite (length_row (eye n) f (Forall_rows_eye n)); [done|].
      by rewrite length_eye.
    - rewrite (length_row _ f (Forall_rows_mmul n (D L) Pi)); [done|].
      rewrite length_mmul. lia. }
  assert (HlenI : length I_Pi = n).
  { unfold I_Pi, msub. rewrite length_zip_with, length_eye, length_mmul. lia. }
  (* the two terms of A *)
  set (X := mmul n (transpose n Pi) (mmul n (G L) Pi)) in *.
  set (Y := mmul n (transpose n I_Pi) I_Pi) in *.
  assert (HX : forall a b, (a < n)%nat -> (b < n)%nat ->
            entry X a b =
            msum d (fun i => entry Pi i a *
                      msum d (fun j => entry (G L) i j * entry Pi j b))).
  { intros a b Ha Hb. unfold X.
    rewrite (entry_mmul _ _ _ _ _ d)
      by (rewrite ?length_transpose, ?length_mmul; lia).
    apply msum_ext. intros i Hi. rewrite entry_transpose by done. f_equal.
    apply entry_mmul; [lia|done|].
    rewrite (length_row (G L) i HrowsG) by lia. lia. }
  assert (HY : forall a b, (a < n)%nat -> (b < n)%nat ->
            entry Y a b = msum n (fun f => entry I_Pi f a * entry I_Pi f b)).
  { intros a b Ha Hb. unfold Y.
    rewrite (entry_mmul _ _ _ _ _ n)
      by (rewrite ?length_transpose; lia).
    apply msum_ext. intros f Hf. by rewrite entry_transpose. }
  assert (HA_entry : forall a b, (a < n)%nat -> (b < n)%nat ->
            entry A' a b = entry X a b + w * entry Y a b).
  { intros a b Ha Hb. rewrite <- HA. unfold madd.
    rewrite entry_zip_with.
    - by rewrite entry_mscale.
    - unfold X. by rewrite length_mmul, length_transpose.
    - unfold mscale, Y. by rewrite length_map, length_mmul, length_transpose.
    - rewrite (length_row X a (Forall_rows_mmul n _ _)); [done|].
      unfold X. by rewrite length_mmul, length_transpose.
    - rewrite (length_row (mscale w Y) a
                 (Forall_rows_mscale w Y n (Forall_rows_mmul n _ _))); [done|].
      unfold mscale, Y. by rewrite length_map, length_mmul, length_transpose. }
  split; [done|].
  split.
  { rewrite <- HA. unfold madd, mscale.
    rewrite length_zip_with, length_map. unfold X, Y.
    rewrite !length_mmul, !length_transpose. lia. }
  split.
  { rewrite <- HA. apply Forall_rows_zip_with.
    - apply Forall_rows_mmul.
    - apply Forall_rows_mscale, Forall_rows_mmul. }
  split.
  - intros a b Ha Hb. rewrite HA_entry, HX, HY by done.
    unfold stiffness_spec. f_equal. f_equal.
    apply msum_ext. intros f Hf. by rewrite !HI_Pi.
  - intros Hsym a b Ha Hb. rewrite !HA_entry, !HX, !HY by done.
    f_equal.
    + apply (sandwich_sym d (fun x i => entry Pi i x) (entry (G L))).
      intros i j Hi Hj. by apply (local_G_sym g k fs c L HL Hsym).
    + f_equal. apply msum_ext. intros f _. ring.
Qed.


Lemma symmetric_unit_perm2 c : symmetric_perm Examples.unit_perm2 c.
Proof.
  intros Kc HKc i j.
  assert (Kc = Examples.id33) as ->.
  { destruct c as [|[|c]]; simpl in HKc; [by injection HKc..|discriminate]. }
  destruct i as [|[|[|i]]], j as [|[|[|j]]]; try reflexivity;
    unfold entry; simpl; try (by destruct i); try (by destruct j).
  by destruct i, j.
Qed.


(** ** Stored entries of a matrix built from coordinate lists *)

Section CooFacts.

Implicit Types (ts : list triplet) (k : nat * nat) (m : gmap (nat * nat) Qc).

Lemma ksum_cons t ts k : ksum (t :: ts) k = at_key k t + ksum ts k.
Proof. reflexivity. Qed.

Lemma ksum_app ts1 ts2 k : ksum (ts1 ++ ts2) k = ksum ts1 k + ksum ts2 k.
Proof. unfold ksum. by rewrite map_app, vsum_app. Qed.

Lemma ksum_absent ts k :
  ~ Exists (fun t => fst t = k) ts -> ksum ts k = 0.
Proof.
  induction ts as [|t ts IH]; intros H; [done|].
  rewrite ksum_cons, IH by (intros ?; apply H; by right).
  unfold at_key. case_decide; [|ring]. destruct H. by left.
Qed.

Lemma foldl_coo_add_lookup m ts k :
  foldl coo_add m ts !! k =
  match m !! k with
  | Some x => Some (x + ksum ts k)
  | None =>
      if decide (Exists (fun t => fst t = k) ts) then Some (ksum ts k)
      else None
  end.
Proof.
  revert m. induction ts as [|[[i j] v] ts IH]; intros m; simpl.
  - destruct (m !! k) as [x|]; [f_equal; unfold ksum; simpl; unfold vsum; simpl; ring|].
    first [done | case_decide as H; [by apply Exists_nil in H | done]].
  - rewrite IH, ksum_cons. unfold at_key. simpl.
    destruct (decide ((i, j) = k)) as [<-|Hne].
    + rewrite lookup_partial_alter_eq.
      destruct (m !! (i, j)) as [x|].
      * f_equal. ring.
      * rewrite decide_True by (by left). done.
    + rewrite lookup_partial_alter_ne by done.
      destruct (m !! k) as [x|]; [f_equal; ring|].
      destruct (decide (Exists (fun t => t.1 = k) ts)) as [H|H].
      * rewrite decide_True by (by right). f_equal. ring.
      * rewrite decide_False; [done|].
        intros H'. apply Exists_cons in H' as [H'|H']; [by apply Hne | done].
Qed.

Lemma coo_sum_lookup ts k :
  coo_sum ts !! k =
  if decide (Exists (fun t => fst t = k) ts) then Some (ksum ts k) else None.
Proof. unfold coo_sum. by rewrite foldl_coo_add_lookup, lookup_empty. Qed.

Lemma coo_sum_lookup_None ts k :
  coo_sum ts !! k = None <-> ~ Exists (fun t => fst t = k) ts.
Proof. rewrite coo_sum_lookup. case_decide; split; try done. Qed.

End CooFacts.

(** ** Sums with few non-zero terms *)

Lemma msum_all_zero n f :
  (forall t, (t < n)%nat -> f t = 0) -> msum n f = 0.
Proof.
  intros H. rewrite (msum_ext n f (fun _ => 0)) by done. apply msum_zero.
Qed.

Lemma msum_single n f t0 :
  (t0 < n)%nat -> (forall t, (t < n)%nat -> t <> t0 -> f t = 0) ->
  msum n f = f t0.
Proof.
  induction n as [|n IH]; intros Ht0 H; [lia|]. simpl.
  destruct (decide (t0 = n)) as [->|Hne].
  - rewrite msum_all_zero; [ring|]. intros t Ht. apply H; lia.
  - rewrite IH by (try lia; intros; apply H; lia).
    rewrite (H n) by lia. ring.
Qed.

Lemma msum_two n f t1 t2 :
  (t1 < n)%nat -> (t2 < n)%nat -> t1 <> t2 ->
  (forall t, (t < n)%nat -> t <> t1 -> t <> t2 -> f t = 0) ->
  msum n f = f t1 + f t2.
Proof.
  induction n as [|n IH]; intros Ht1 Ht2 Hne H; [lia|]. simpl.
  destruct (decide (t1 = n)) as [->|Hne1].
  - rewrite (msum_single n f t2) by (try lia; intros; apply H; lia). ring.
  - destruct (decide (t2 = n)) as [->|Hne2].
    + rewrite (msum_single n f t1) by (try lia; intros; apply H; lia). ring.
    + rewrite IH by (try lia; intros; apply H; lia).
      rewrite (H n) by lia. ring.
Qed.

Lemma vsum_map_msum {A : Type} (h : A -> Qc) (l : list A) (d : A) :
  vsum (map h l) = msum (length l) (fun a => h (nth a l d)).
Proof.
  rewrite vsum_msum, length_map. apply msum_ext. intros t Ht.
  rewrite (nth_indep _ 0 (h d)) by (by rewrite length_map).
  apply map_nth.
Qed.

(** ** What a cell writes to the buffers *)

Section CellTriplets.

Lemma zip_const_row (fa : nat) (inner : list nat) (row : list Qc) :
  zip (zip (map (fun _ => fa) inner) inner) row =
  map (fun p => (fa, fst p, snd p)) (zip inner row).
Proof.
  revert row. induction inner as [|fb inner IH]; intros [|v row]; simpl;
    try done.
  by rewrite IH.
Qed.

Lemma cell_triplets_rows (outer inner : list nat) (R : mat) :
  length R = length outer ->
  Forall (fun r => length r = length inner) R ->
  zip (zip (flat_map (fun fa => map (fun _ => fa) inner) outer)
           (flat_map (fun _ => inner) outer))
      (concat R) =
  flat_map (fun p => map (fun e => (fst p, fst e, snd e)) (zip inner (snd p)))
           (zip outer R).
Proof.
  revert R. induction outer as [|fa outer IH]; intros [|row R] Hlen Hrows;
    simpl in *; try done.
  inversion Hrows as [|? ? Hrow Hrows']; subst.
  rewrite !zip_with_app by (by rewrite ?length_zip_with, ?length_map; lia).
  fold (zip (map (fun _ : nat => fa) inner) inner).
  rewrite zip_const_row. f_equal. apply IH; [lia | done].
Qed.

Lemma ksum_flat_map {A : Type} (Fn : A -> list triplet) (l : list A) k :
  ksum (flat_map Fn l) k = vsum (map (fun x => ksum (Fn x) k) l).
Proof.
  induction l as [|x l IH]; simpl; [done|].
  rewrite ksum_app, IH. done.
Qed.

Lemma ksum_cell_triplets (faces : list nat) (A : mat) (i j : nat) :
  let n := length faces in
  length A = n -> Forall (fun r => length r = n) A ->
  ksum (cell_triplets (faces, A)) (i, j) =
  msum n (fun a => msum n (fun b =>
    if decide ((nth a faces 0%nat, nth b faces 0%nat) = (i, j))
    then entry A a b else 0)).
Proof.
  intros n HlenA Hrows. unfold cell_triplets, rows_idx, cols_idx, ravel. simpl.
  rewrite cell_triplets_rows by done.
  rewrite ksum_flat_map.
  rewrite (vsum_map_msum _ _ (0%nat, [])).
  rewrite length_zip_with, HlenA, Nat.min_id. fold n.
  apply msum_ext. intros a Ha.
  assert (Hnth : nth a (zip faces A) (0%nat, []) = (nth a faces 0%nat, nth a A [])).
  { destruct (lookup_lt_is_Some_2 faces a Ha) as [fa Hfa].
    destruct (lookup_lt_is_Some_2 A a ltac:(lia)) as [ra Hra].
    rewrite (nth_lookup_Some faces a _ fa Hfa), (nth_lookup_Some A a _ ra Hra).
    apply nth_lookup_Some. by rewrite lookup_zip_with, Hfa, Hra. }
  rewrite Hnth. simpl.
  unfold ksum. rewrite map_map.
  rewrite (vsum_map_msum _ _ (0%nat, 0)).
  rewrite length_zip_with, (length_row A a Hrows) by lia.
  fold n. rewrite Nat.min_id.
  apply msum_ext. intros b Hb. unfold at_key. simpl.
  assert (Hnth' : nth b (zip faces (nth a A [])) (0%nat, 0) =
                  (nth b faces 0%nat, entry A a b)).
  { unfold entry.
    destruct (lookup_lt_is_Some_2 faces b Hb) as [fb Hfb].
    destruct (lookup_lt_is_Some_2 (nth a A []) b
                ltac:(rewrite (length_row A a Hrows); lia)) as [v Hv].
    rewrite (nth_lookup_Some faces b _ fb Hfb), (nth_lookup_Some _ b _ v Hv).
    apply nth_lookup_Some. by rewrite lookup_zip_with, Hfb, Hv. }
  rewrite Hnth'. done.
Qed.

Lemma stored_cell_triplets (faces : list nat) (A : mat) (i j : nat) :
  let n := length faces in
  length A = n -> Forall (fun r => length r = n) A ->
  Exists (fun t => fst t = (i, j)) (cell_triplets (faces, A)) <->
  i ∈ faces /\ j ∈ faces.
Proof.
  intros n HlenA Hrows. unfold cell_triplets, rows_idx, cols_idx, ravel. simpl.
  rewrite cell_triplets_rows by done.
  rewrite Exists_exists. split.
  - intros (t & Hin & Hkey).
    apply list_elem_of_In, in_flat_map in Hin as (p & Hp & Hin).
    apply in_map_iff in Hin as (e & <- & He). simpl in Hkey.
    injection Hkey as <- <-.
    apply list_elem_of_In in Hp, He.
    destruct p as [fa row], e as [fb v].
    apply elem_of_zip_l in Hp. apply elem_of_zip_l in He. done.
  - intros [Hi Hj].
    apply list_elem_of_lookup in Hi as [a Ha], Hj as [b Hb].
    destruct (lookup_lt_is_Some_2 A a) as [ra Hra].
    { apply lookup_lt_Some in Ha. lia. }
    destruct (lookup_lt_is_Some_2 ra b) as [v Hv].
    { rewrite (Forall_lookup_1 _ _ _ _ Hrows Hra).
      by apply lookup_lt_Some in Hb. }
    exists (i, j, v). split; [|done].
    apply list_elem_of_In, in_flat_map. exists (i, ra). split.
    + apply list_elem_of_In, list_elem_of_lookup. exists a.
      by rewrite lookup_zip_with, Ha, Hra.
    + apply in_map_iff. exists (j, v). split; [done|].
      apply list_elem_of_In, list_elem_of_lookup. exists b. simpl.
      by rewrite lookup_zip_with, Hb, Hv.
Qed.

End CellTriplets.

(** ** The mass block assembled by [matrix] *)

Section Assembly.

Variables (g : grid) (k : second_order_tensor).
Let fs := find (cell_faces g) (num_cells g).

Lemma cell_block_square fs' c blk :
  cell_block g k fs' c = Ok blk -> square_block blk.
Proof.
  destruct blk as [faces A]. intros H.
  destruct (cell_block_entries g k fs' c faces A H)
    as (L & Ginv & Kinv & _ & _ & _ & _ & _ & _ & Hlen & Hrows & _).
  by split.
Qed.

Lemma assemble_ok fs' cells acc bufs :
  assemble g k fs' cells acc = Ok bufs ->
  exists blks,
    Forall2 (fun c blk => cell_block g k fs' c = Ok blk) cells blks /\
    bufs = (fst (fst acc) ++ flat_map (fun blk => rows_idx (fst blk)) blks,
            snd (fst acc) ++ flat_map (fun blk => cols_idx (fst blk)) blks,
            snd acc ++ flat_map (fun blk => ravel (snd blk)) blks).
Proof.
  revert acc bufs. induction cells as [|c cells IH]; intros [[bI bJ] bdata] bufs H.
  - simpl in H. injection H as <-. exists []. split; [constructor|].
    simpl. by rewrite !app_nil_r.
  - simpl in H. destruct (cell_block g k fs' c) as [blk|e] eqn:Hc; [|discriminate].
    simpl in H. apply IH in H as (blks & Hall & ->).
    exists (blk :: blks). split; [by constructor|].
    simpl. by rewrite !app_assoc.
Qed.

Lemma length_flat_map_const {A B : Type} (f : A -> list B) l m :
  Forall (fun x => length (f x) = m) l ->
  length (flat_map f l) = (length l * m)%nat.
Proof.
  induction 1 as [|x l Hx _ IH]; simpl; [done|].
  rewrite length_app, IH, Hx. lia.
Qed.

Lemma length_rows_idx faces :
  length (rows_idx faces) = (length faces * length faces)%nat.
Proof.
  unfold rows_idx. apply length_flat_map_const, Forall_forall.
  intros x _. by rewrite length_map.
Qed.

Lemma length_cols_idx faces :
  length (cols_idx faces) = (length faces * length faces)%nat.
Proof.
  unfold cols_idx. apply length_flat_map_const, Forall_forall. done.
Qed.

Lemma length_ravel (A : mat) n :
  Forall (fun r => length r = n) A -> length (ravel A) = (length A * n)%nat.
Proof.
  unfold ravel. induction 1 as [|r A Hr _ IH]; simpl; [done|].
  rewrite length_app, IH, Hr. lia.
Qed.

Lemma zip_blocks blks :
  Forall square_block blks ->
  zip (zip (flat_map (fun blk => rows_idx (fst blk)) blks)
           (flat_map (fun blk => cols_idx (fst blk)) blks))
      (flat_map (fun blk => ravel (snd blk)) blks) =
  flat_map cell_triplets blks.
Proof.
  induction 1 as [|[faces A] blks [Hlen Hrows] _ IH]; simpl in *; [done|].
  rewrite !zip_with_app; rewrite ?length_zip_with, ?length_rows_idx,
    ?length_cols_idx, ?(length_ravel A _ Hrows), ?Hlen; try lia.
  by rewrite IH.
Qed.

Lemma le_foldr_max (x : nat) (l : list nat) :
  x ∈ l -> (x <= foldr Nat.max 0%nat l)%nat.
Proof.
  induction 1 as [x l|x y l _ IH]; simpl; lia.
Qed.

Lemma coo_matrix_ok bI bJ bdata m :
  coo_matrix bI bJ bdata = Ok m ->
  m = {| shape := (S (foldr Nat.max 0%nat bI), S (foldr Nat.max 0%nat bJ));
         entries := coo_sum (zip (zip bI bJ) bdata) |}.
Proof.
  unfold coo_matrix. destruct bI, bJ; try discriminate.
  intros H. by injection H as <-.
Qed.

(** The stored entries of the mass block: every index pair written by some
    cell is stored, with the sum of all the values written at it. *)
Lemma mass_matrix_entries mass :
  mass_matrix g k = Ok mass ->
  exists blks,
    Forall2 (fun c blk => cell_block g k fs c = Ok blk)
            (seq 0 (num_cells g)) blks /\
    entries mass = coo_sum (flat_map cell_triplets blks) /\
    fst (shape mass) =
      S (foldr Nat.max 0%nat (flat_map (fun blk => rows_idx (fst blk)) blks)).
Proof.
  unfold mass_matrix. fold fs. intros H.
  destruct (assemble g k fs (seq 0 (num_cells g)) ([], [], []))
    as [[[bI bJ] bdata]|e] eqn:Hasm; [|discriminate].
  simpl in H. case_decide; [|discriminate].
  apply assemble_ok in Hasm as (blks & Hall & Hbufs). simpl in Hbufs.
  injection Hbufs as -> -> ->.
  exists blks. split; [done|].
  assert (Hsq : Forall square_block blks).
  { apply Forall_forall. intros blk Hin.
    apply list_elem_of_lookup in Hin as [c Hc].
    destruct (Forall2_lookup_r _ _ _ _ _ Hall Hc) as (c' & _ & Hblk).
    by eapply cell_block_square. }
  apply coo_matrix_ok in H as ->. cbn [entries shape fst].
  split; [by rewrite zip_blocks | done].
Qed.

Lemma coo_matrix_keys bI bJ bdata m i j :
  coo_matrix bI bJ bdata = Ok m -> is_Some (entries m !! (i, j)) ->
  (i < fst (shape m))%nat /\ (j < snd (shape m))%nat.
Proof.
  intros H Hs. apply coo_matrix_ok in H as ->. cbn [entries shape fst snd] in *.
  rewrite coo_sum_lookup in Hs. case_decide as Hex; [|by destruct Hs].
  apply Exists_exists in Hex as ([[i' j'] v] & Hin & Hkey).
  simpl in Hkey. injection Hkey as -> ->.
  apply elem_of_zip_l in Hin.
  pose proof (elem_of_zip_l _ _ _ _ Hin) as Hi.
  pose proof (elem_of_zip_r _ _ _ _ Hin) as Hj.
  split; apply Nat.lt_succ_r; by apply le_foldr_max.
Qed.

Lemma mass_matrix_keys mass i j :
  mass_matrix g k = Ok mass -> is_Some (entries mass !! (i, j)) ->
  (i < fst (shape mass))%nat /\ (j < snd (shape mass))%nat.
Proof.
  unfold mass_matrix. intros H.
  destruct (assemble g k _ _ _) as [[[bI bJ] bdata]|e]; [|discriminate].
  simpl in H. case_decide; [|discriminate].
  by apply (coo_matrix_keys bI bJ bdata).
Qed.

Lemma Exists_flat_map {A B : Type} (P : B -> Prop) (Fn : A -> list B) l :
  Exists P (flat_map Fn l) <-> Exists (fun x => Exists P (Fn x)) l.
Proof.
  induction l as [|x l IH]; simpl.
  - by rewrite !Exists_nil.
  - by rewrite Exists_app, Exists_cons, IH.
Qed.

Lemma mass_matrix_lookup mass :
  mass_matrix g k = Ok mass ->
  exists blks,
    Forall2 (fun c blk => cell_block g k fs c = Ok blk)
            (seq 0 (num_cells g)) blks /\
    forall i j,
      entries mass !! (i, j) =
      if decide (Exists (fun blk => i ∈ fst blk /\ j ∈ fst blk) blks)
      then Some (vsum (map (fun blk => ksum (cell_triplets blk) (i, j)) blks))
      else None.
Proof.
  intros H. apply mass_matrix_entries in H as (blks & Hall & Hent & _).
  exists blks. split; [done|]. intros i j.
  rewrite Hent, coo_sum_lookup, ksum_flat_map.
  apply decide_ext. rewrite Exists_flat_map.
  rewrite !Exists_exists. 
  assert (Hsq : forall blk, blk ∈ blks -> square_block blk).
  { intros blk Hin. apply list_elem_of_lookup in Hin as [c Hc].
    destruct (Forall2_lookup_r _ _ _ _ _ Hall Hc) as (c' & _ & Hblk).
    by eapply cell_block_square. }
  split; intros (blk & Hin & HP); exists blk; (split; [done|]);
    destruct blk as [faces A]; destruct (Hsq _ Hin) as [Hlen Hrows];
    by apply (stored_cell_triplets faces A i j Hlen Hrows).
Qed.

End Assembly.

(** ** The blocks put together by [sps.bmat] *)

#[global] Instance shift_divT_inj nf : Inj (=) (=) (shift_divT nf).
Proof. intros [i j] [i' j'] H. unfold shift_divT in H. simpl in H.
  injection H as -> H. f_equal. lia. Qed.

#[global] Instance shift_div_inj nf : Inj (=) (=) (shift_div nf).
Proof. intros [i j] [i' j'] H. unfold shift_div in H. simpl in H.
  injection H as H ->. f_equal. lia. Qed.

Section Blocks.

Variables (g : grid) (k : second_order_tensor).
Let nf := num_faces g.
Let nc := num_cells g.
Let B := coo_sum (tocoo (cell_faces g) nc).

Lemma matrix_ok {BC : Type} (bc : option BC) M :
  matrix g k bc = Ok M ->
  exists mass,
    mass_matrix g k = Ok mass /\ shape mass = (nf, nf) /\
    shape M = ((nf + nc)%nat, (nf + nc)%nat) /\
    entries M =
      add_entries (entries mass)
        (add_entries (kmap (shift_divT nf) (Qcopp <$> B))
                     (kmap (shift_div nf) (Qcopp <$> B))).
Proof.
  unfold matrix. intros H.
  destruct (mass_matrix g k) as [mass|e]; [|discriminate].
  simpl in H. unfold bmat in H. case_decide as Hshape; [|discriminate].
  injection H as <-. by exists mass.
Qed.

Lemma incidence_rows f c :
  rows_in_range g -> is_Some (B !! (f, c)) -> (f < nf)%nat.
Proof.
  intros Hr Hs. unfold B in Hs. rewrite coo_sum_lookup in Hs.
  case_decide as Hex; [|by destruct Hs].
  apply Exists_exists in Hex as (t & Hin & Hkey).
  unfold rows_in_range in Hr. rewrite Forall_forall in Hr.
  specialize (Hr t Hin). by rewrite Hkey in Hr.
Qed.

Lemma kmap_divT_low (m : gmap (nat * nat) Qc) i j :
  (j < nf)%nat -> (kmap (shift_divT nf) m : gmap (nat * nat) Qc) !! (i, j) = None.
Proof.
  intros Hj. apply lookup_kmap_None; [apply _|]. intros [r c] Heq.
  unfold shift_divT in Heq. simpl in Heq. injection Heq as _ ->. lia.
Qed.

Lemma kmap_div_low (m : gmap (nat * nat) Qc) i j :
  (i < nf)%nat -> (kmap (shift_div nf) m : gmap (nat * nat) Qc) !! (i, j) = None.
Proof.
  intros Hi. apply lookup_kmap_None; [apply _|]. intros [r c] Heq.
  unfold shift_div in Heq. simpl in Heq. injection Heq as -> _. lia.
Qed.

Lemma kmap_divT_high (m : gmap (nat * nat) Qc) i c :
  (kmap (shift_divT nf) m : gmap (nat * nat) Qc) !! (i, (nf + c)%nat) = m !! (i, c).
Proof. by rewrite <- (lookup_kmap (shift_divT nf) m (i, c)). Qed.

Lemma kmap_div_high (m : gmap (nat * nat) Qc) c j :
  (kmap (shift_div nf) m : gmap (nat * nat) Qc) !! ((nf + c)%nat, j) = m !! (j, c).
Proof. by rewrite <- (lookup_kmap (shift_div nf) m (j, c)). Qed.

Section WithMatrix.

Context {BC : Type} (bc : option BC) (M : sparse).
Hypothesis HM : matrix g k bc = Ok M.

Lemma matrix_mass_block i j :
  (i < nf)%nat -> (j < nf)%nat ->
  exists mass, mass_matrix g k = Ok mass /\
    entries M !! (i, j) = entries mass !! (i, j).
Proof.
  intros Hi Hj. destruct (matrix_ok bc M HM) as (mass & Hmass & Hshape & _ & ->).
  exists mass. split; [done|]. unfold add_entries.
  rewrite !lookup_union_with, kmap_divT_low, kmap_div_low by done.
  by destruct (entries mass !! (i, j)).
Qed.

Lemma matrix_mass_none i j :
  (nf <= i)%nat \/ (nf <= j)%nat ->
  exists mass, mass_matrix g k = Ok mass /\ entries mass !! (i, j) = None.
Proof.
  intros Hij. destruct (matrix_ok bc M HM) as (mass & Hmass & Hshape & _ & _).
  exists mass. split; [done|].
  destruct (entries mass !! (i, j)) eqn:E; [|done].
  destruct (mass_matrix_keys g k mass i j Hmass) as [Hi Hj]; [by rewrite E|].
  rewrite Hshape in Hi, Hj. simpl in Hi, Hj. lia.
Qed.

Lemma matrix_div_block f c :
  (f < nf)%nat ->
  entries M !! ((nf + c)%nat, f) = Qcopp <$> B !! (f, c).
Proof.
  intros Hf. destruct (matrix_mass_none (nf + c) f ltac:(lia))
    as (mass & Hmass & Hnone).
  destruct (matrix_ok bc M HM) as (mass' & Hmass' & _ & _ & ->).
  rewrite Hmass in Hmass'. injection Hmass' as <-.
  unfold add_entries.
  rewrite !lookup_union_with, Hnone, kmap_divT_low, kmap_div_high by done.
  rewrite lookup_fmap. by destruct (B !! (f, c)).
Qed.

Lemma matrix_divT_block f c :
  (f < nf)%nat ->
  entries M !! (f, (nf + c)%nat) = Qcopp <$> B !! (f, c).
Proof.
  intros Hf. destruct (matrix_mass_none f (nf + c) ltac:(lia))
    as (mass & Hmass & Hnone).
  destruct (matrix_ok bc M HM) as (mass' & Hmass' & _ & _ & ->).
  rewrite Hmass in Hmass'. injection Hmass' as <-.
  unfold add_entries.
  rewrite !lookup_union_with, Hnone, kmap_divT_high, kmap_div_low by done.
  rewrite lookup_fmap. by destruct (B !! (f, c)).
Qed.

Lemma matrix_pressure_block c1 c2 :
  rows_in_range g ->
  entries M !! ((nf + c1)%nat, (nf + c2)%nat) = None.
Proof.
  intros Hr. destruct (matrix_mass_none (nf + c1) (nf + c2) ltac:(lia))
    as (mass & Hmass & Hnone).
  destruct (matrix_ok bc M HM) as (mass' & Hmass' & _ & _ & ->).
  rewrite Hmass in Hmass'. injection Hmass' as <-.
  unfold add_entries.
  rewrite !lookup_union_with, Hnone, kmap_divT_high, kmap_div_high.
  rewrite !lookup_fmap.
  destruct (B !! ((nf + c1)%nat, c2)) eqn:E1.
  { pose proof (incidence_rows (nf + c1) c2 Hr ltac:(by rewrite E1)). lia. }
  destruct (B !! ((nf + c2)%nat, c1)) eqn:E2.
  { pose proof (incidence_rows (nf + c2) c1 Hr ltac:(by rewrite E2)). lia. }
  done.
Qed.

End WithMatrix.

End Blocks.

(** ** Contributions of one cell at one index pair *)

Lemma nth_faces_lookup (faces : list nat) a :
  (a < length faces)%nat -> faces !! a = Some (nth a faces 0%nat).
Proof.
  intros Ha. destruct (lookup_lt_is_Some_2 faces a Ha) as [x Hx].
  by rewrite (nth_lookup_Some faces a _ x Hx).
Qed.

Lemma ksum_block_diag (faces : list nat) (A : mat) (f a1 : nat) :
  square_block (faces, A) ->
  (forall a, faces !! a = Some f <-> a = a1) ->
  ksum (cell_triplets (faces, A)) (f, f) = entry A a1 a1.
Proof.
  intros [Hlen Hrows] Hocc. simpl in Hlen, Hrows.
  rewrite ksum_cell_triplets by done.
  assert (Ha1 : (a1 < length faces)%nat).
  { eapply lookup_lt_Some. by apply Hocc. }
  assert (Hf : nth a1 faces 0%nat = f).
  { apply nth_lookup_Some. by apply Hocc. }
  assert (Hne : forall a, (a < length faces)%nat -> a <> a1 ->
                          nth a faces 0%nat <> f).
  { intros a Ha Hna Heq. apply Hna, Hocc.
    by rewrite nth_faces_lookup, Heq. }
  rewrite (msum_single _ _ a1 Ha1).
  - rewrite (msum_single _ _ a1 Ha1).
    + rewrite Hf. by rewrite decide_True.
    + intros b Hb Hnb. rewrite decide_False; [done|].
      intros Heq. injection Heq as _ Heq. by apply (Hne b).
  - intros a Ha Hna. apply msum_all_zero. intros b Hb.
    rewrite decide_False; [done|].
    intros Heq. injection Heq as Heq _. by apply (Hne a).
Qed.

Lemma ksum_block_absent (faces : list nat) (A : mat) (i j : nat) :
  square_block (faces, A) -> i ∉ faces \/ j ∉ faces ->
  ksum (cell_triplets (faces, A)) (i, j) = 0.
Proof.
  intros [Hlen Hrows] Hno. apply ksum_absent. intros Hex.
  apply (stored_cell_triplets faces A i j Hlen Hrows) in Hex as [Hi Hj].
  by destruct Hno.
Qed.

Lemma ksum_block_sym (faces : list nat) (A : mat) (i j : nat) :
  square_block (faces, A) ->
  (forall a b, (a < length faces)%nat -> (b < length faces)%nat ->
     entry A a b = entry A b a) ->
  ksum (cell_triplets (faces, A)) (i, j) =
  ksum (cell_triplets (faces, A)) (j, i).
Proof.
  intros [Hlen Hrows] Hsym. simpl in Hlen, Hrows.
  rewrite !ksum_cell_triplets by done.
  rewrite msum_swap. apply msum_ext. intros a Ha.
  apply msum_ext. intros b Hb.
  rewrite (Hsym b a Hb Ha).
  destruct (decide ((nth b faces 0%nat, nth a faces 0%nat) = (i, j))) as [E|E].
  - injection E as <- <-. by rewrite decide_True.
  - rewrite decide_False; [done|]. intros E'. injection E' as <- <-. done.
Qed.

Section MassBlock.

Variables (g : grid) (k : second_order_tensor).
Let fs := find (cell_faces g) (num_cells g).

Lemma blocks_lookup blks c :
  Forall2 (fun c blk => cell_block g k fs c = Ok blk)
          (seq 0 (num_cells g)) blks ->
  (c < num_cells g)%nat ->
  exists blk, blks !! c = Some blk /\ cell_block g k fs c = Ok blk /\
              nth c blks ([], []) = blk.
Proof.
  intros Hall Hc.
  destruct (Forall2_lookup_l _ _ _ c c Hall) as (blk & Hblk & Hcb).
  { by apply lookup_seq. }
  exists blk. repeat split; try done. by apply nth_lookup_Some.
Qed.

Lemma mass_matrix_sym mass i j :
  mass_matrix g k = Ok mass ->
  (forall c, (c < num_cells g)%nat -> symmetric_perm k c) ->
  entries mass !! (i, j) = entries mass !! (j, i).
Proof.
  intros Hmass Hsym.
  destruct (mass_matrix_lookup g k mass Hmass) as (blks & Hall & Hlk).
  rewrite !Hlk.
  assert (Hvals :
    map (fun blk => ksum (cell_triplets blk) (i, j)) blks =
    map (fun blk => ksum (cell_triplets blk) (j, i)) blks).
  { apply map_ext_in. intros [faces A] Hin.
    apply list_elem_of_In, list_elem_of_lookup in Hin as [c Hc].
    destruct (Forall2_lookup_r _ _ _ _ _ Hall Hc) as (c' & Hc' & Hblk).
    apply lookup_seq in Hc' as [-> Hlt]. simpl in Hblk.
    apply ksum_block_sym; [by eapply cell_block_square|].
    destruct (cell_block_entries g k fs c faces A Hblk)
      as (L & Ginv & Kinv & _ & _ & _ & _ & _ & _ & _ & _ & _ & HA).
    apply HA, Hsym. simpl in Hlt. lia. }
  rewrite Hvals. apply decide_ext.
  rewrite !Exists_exists. split; intros (blk & Hin & H1 & H2); by exists blk.
Qed.

End MassBlock.

(** C1: a face shared by two cells, and met by no other cell, has as its
    diagonal entry in the matrix returned by [matrix] the sum of the
    diagonal entries that the local matrices of the two cells hold for it:
    the values written to one coordinate are added up. *)
Theorem mass_additive_at_shared_face {BC : Type} (g : grid)
    (k : second_order_tensor) (bc : option BC) (M : sparse)
    (f c1 c2 a1 a2 : nat) (faces1 faces2 : list nat) (A1 A2 : mat) :
  let fs := find (cell_faces g) (num_cells g) in
  matrix g k bc = Ok M ->
  (c1 < num_cells g)%nat -> (c2 < num_cells g)%nat -> c1 <> c2 ->
  cell_block g k fs c1 = Ok (faces1, A1) ->
  cell_block g k fs c2 = Ok (faces2, A2) ->
  (forall a, faces1 !! a = Some f <-> a = a1) ->
  (forall a, faces2 !! a = Some f <-> a = a2) ->
  (forall c faces A, (c < num_cells g)%nat -> c <> c1 -> c <> c2 ->
     cell_block g k fs c = Ok (faces, A) -> f ∉ faces) ->
  entries M !! (f, f) = Some (entry A1 a1 a1 + entry A2 a2 a2).
Proof.
  intros fs HM Hc1 Hc2 Hne Hb1 Hb2 Hocc1 Hocc2 Hother.
  destruct (matrix_ok g k bc M HM) as (mass & Hmass & Hshape & _ & _).
  destruct (mass_matrix_lookup g k mass Hmass) as (blks & Hall & Hlk).
  destruct (blocks_lookup g k blks c1 Hall Hc1) as (blk1 & Hl1 & Hcb1 & Hn1).
  destruct (blocks_lookup g k blks c2 Hall Hc2) as (blk2 & Hl2 & Hcb2 & Hn2).
  fold fs in Hcb1, Hcb2. rewrite Hb1 in Hcb1. rewrite Hb2 in Hcb2.
  injection Hcb1 as <-. injection Hcb2 as <-.
  assert (Hin1 : f ∈ faces1).
  { apply list_elem_of_lookup. exists a1. by apply Hocc1. }
  assert (Hentry : entries mass !! (f, f) =
                   Some (entry A1 a1 a1 + entry A2 a2 a2)).
  { rewrite Hlk. rewrite decide_True.
    2:{ apply Exists_exists. exists (faces1, A1). split; [|done].
        apply list_elem_of_lookup. by exists c1. }
    f_equal. rewrite (vsum_map_msum _ _ ([], [])).
    rewrite <- (Forall2_length _ _ _ Hall), length_seq.
    rewrite (msum_two _ _ c1 c2 Hc1 Hc2 Hne).
    - rewrite Hn1, Hn2.
      rewrite (ksum_block_diag faces1 A1 f a1),
              (ksum_block_diag faces2 A2 f a2); try done.
      + by apply (cell_block_square g k fs c2).
      + by apply (cell_block_square g k fs c1).
    - intros c Hc Hnc1 Hnc2.
      destruct (blocks_lookup g k blks c Hall Hc) as ([faces A] & _ & Hcb & ->).
      apply ksum_block_absent; [by apply (cell_block_square g k fs c)|].
      left. by apply (Hother c faces A). }
  assert (Hf : (f < num_faces g)%nat).
  { destruct (mass_matrix_keys g k mass f f Hmass) as [Hf _];
      [by rewrite Hentry|].
    by rewrite Hshape in Hf. }
  destruct (matrix_mass_block g k bc M HM f f Hf Hf) as (mass' & Hmass' & ->).
  rewrite Hmass in Hmass'. by injection Hmass' as <-.
Qed.

Lemma mass_additive_at_shared_face_witness :
  exists M A1 A2,
    matrix Examples.line2 Examples.unit_perm2 (@None unit) = Ok M /\
    entries M !! (1%nat, 1%nat) = Some (entry A1 1 1 + entry A2 0 0).
Proof.
  pose (fs := find (cell_faces Examples.line2) 2).
  destruct (matrix Examples.line2 Examples.unit_perm2 (@None unit))
    as [M|e] eqn:HM; [|vm_compute in HM; discriminate].
  destruct (cell_block Examples.line2 Examples.unit_perm2 fs 0)
    as [[faces1 A1]|e] eqn:H1; [|vm_compute in H1; discriminate].
  destruct (cell_block Examples.line2 Examples.unit_perm2 fs 1)
    as [[faces2 A2]|e] eqn:H2; [|vm_compute in H2; discriminate].
  exists M, A1, A2. split; [reflexivity|].
  assert (Hf1 : faces1 = [0; 1]%nat).
  { vm_compute in H1. by injection H1 as <- _. }
  assert (Hf2 : faces2 = [1; 2]%nat).
  { vm_compute in H2. by injection H2 as <- _. }
  apply (mass_additive_at_shared_face Examples.line2 Examples.unit_perm2
           None M 1 0 1 1 0 faces1 faces2 A1 A2 HM); try done.
  - simpl. lia.
  - simpl. lia.
  - subst faces1. intros [|[|[|a]]]; split; try done.
  - subst faces2. intros [|[|[|a]]]; split; try done.
  - intros c faces A Hc Hn1 Hn2. simpl in Hc. lia.
Defined.

(** C4: the matrix returned by [matrix] is square of size
    [num_faces + num_cells]; no entry is stored in its lower-right block;
    its lower-left block holds the negated entries of the transposed
    cell-face incidence matrix, its upper-right block the transpose of the
    lower-left one; and its upper-left block is symmetric.  The stored row
    indices of the incidence matrix are face indices, and the permeability
    of every cell is a symmetric tensor. *)
Theorem matrix_block_structure {BC : Type} (g : grid)
    (k : second_order_tensor) (bc : option BC) (M : sparse) :
  let nf := num_faces g in
  let nc := num_cells g in
  let B := coo_sum (tocoo (cell_faces g) nc) in
  matrix g k bc = Ok M ->
  rows_in_range g ->
  (forall c, (c < nc)%nat -> symmetric_perm k c) ->
  shape M = ((nf + nc)%nat, (nf + nc)%nat) /\
  (forall c1 c2, entries M !! ((nf + c1)%nat, (nf + c2)%nat) = None) /\
  (forall f c, (f < nf)%nat ->
     entries M !! ((nf + c)%nat, f) = Qcopp <$> B !! (f, c)) /\
  (forall f c, (f < nf)%nat ->
     entries M !! (f, (nf + c)%nat) = entries M !! ((nf + c)%nat, f)) /\
  (forall i j, (i < nf)%nat -> (j < nf)%nat ->
     entries M !! (i, j) = entries M !! (j, i)).
Proof.
  intros nf nc B HM Hrows Hsym.
  destruct (matrix_ok g k bc M HM) as (mass & Hmass & _ & Hshape & _).
  split; [done|]. split; [|split; [|split]].
  - intros c1 c2. by apply (matrix_pressure_block g k bc M HM).
  - intros f c Hf. by apply (matrix_div_block g k bc M HM).
  - intros f c Hf.
    by rewrite (matrix_divT_block g k bc M HM), (matrix_div_block g k bc M HM).
  - intros i j Hi Hj.
    destruct (matrix_mass_block g k bc M HM i j Hi Hj) as (m1 & Hm1 & ->).
    destruct (matrix_mass_block g k bc M HM j i Hj Hi) as (m2 & Hm2 & ->).
    rewrite Hm1 in Hm2. injection Hm2 as <-.
    by apply (mass_matrix_sym g k).
Qed.

Lemma rows_in_range_line2 : rows_in_range Examples.line2.
Proof. unfold rows_in_range. vm_compute. repeat constructor. Qed.

Lemma matrix_block_structure_witness :
  exists M,
    matrix Examples.line2 Examples.unit_perm2 (@None unit) = Ok M /\
    shape M = (5%nat, 5%nat) /\
    entries M !! (3%nat, 4%nat) = None /\
    entries M !! (0%nat, 3%nat) = entries M !! (3%nat, 0%nat) /\
    entries M !! (0%nat, 1%nat) = entries M !! (1%nat, 0%nat).
Proof.
  destruct (matrix Examples.line2 Examples.unit_perm2 (@None unit))
    as [M|e] eqn:HM; [|vm_compute in HM; discriminate].
  exists M. split; [reflexivity|].
  destruct (matrix_block_structure Examples.line2 Examples.unit_perm2 None M
              HM rows_in_range_line2 (fun c _ => symmetric_unit_perm2 c))
    as (Hshape & Hzero & _ & HdivT & Hsym).
  split; [exact Hshape|]. split; [exact (Hzero 0%nat 1%nat)|].
  split; [apply (HdivT 0%nat 0%nat); simpl; lia|].
  apply Hsym; simpl; lia.
Defined.

(** ** Loops that may raise *)

Lemma mapM_Forall2 {A B : Type} (f : A -> res B) (l : list A) (bs : list B) :
  Forall2 (fun a b => f a = Ok b) l bs -> mapM f l = Ok bs.
Proof.
  induction 1 as [|a b l bs Hab _ IH]; simpl; [done|].
  by rewrite Hab, IH.
Qed.

Lemma mapM_lookup {A B : Type} (f : A -> res B) l bs i a :
  mapM f l = Ok bs -> l !! i = Some a ->
  exists b, bs !! i = Some b /\ f a = Ok b.
Proof.
  intros H Ha. apply mapM_ok in H.
  destruct (Forall2_lookup_l _ _ _ _ _ H Ha) as (b & Hb & Hf). eauto.
Qed.

Lemma mapM_app_ok {A B : Type} (f : A -> res B) l1 l2 bs :
  mapM f (l1 ++ l2) = Ok bs ->
  exists bs1 bs2, mapM f l1 = Ok bs1 /\ mapM f l2 = Ok bs2 /\ bs = bs1 ++ bs2.
Proof.
  revert bs. induction l1 as [|a l1 IH]; simpl; intros bs H.
  - exists [], bs. done.
  - apply bind_ok in H as (b & Hb & H).
    apply bind_ok in H as (bs' & Hbs & H). injection H as <-.
    destruct (IH _ Hbs) as (bs1 & bs2 & H1 & H2 & ->).
    exists (b :: bs1), bs2. rewrite Hb, H1. done.
Qed.

(** ** The nodes of the boundary faces *)

Import Meshing.

Section TipFlags.

Variable g : grid.

Lemma nodes_glb_faces glb :
  nodes_glb g = Ok glb ->
  exists nss,
    Forall2 (fun f ns => face_nodes_glb g f = Ok ns) (boundary_faces g) nss /\
    glb = concat nss.
Proof.
  unfold nodes_glb. generalize (boundary_faces g) as l.
  intros l. revert glb. induction l as [|f l IH]; intros glb H.
  - simpl in H. injection H as <-. exists []. split; [constructor | done].
  - simpl in H.
    apply bind_ok in H as (lo & Hlo & H).
    apply bind_ok in Hlo as (a & Ha & Hlo).
    apply bind_ok in Hlo as (lo' & Hlo' & Hlo). injection Hlo as <-.
    apply bind_ok in H as (hi & Hhi & H).
    apply bind_ok in Hhi as (b & Hb & Hhi).
    apply bind_ok in Hhi as (hi' & Hhi' & Hhi). injection Hhi as <-.
    apply bind_ok in H as (loc & Hloc & H).
    unfold mcolon in Hloc. simpl in Hloc.
    apply mapM_app_ok in Hloc as (loc1 & loc2 & Hloc1 & Hloc2 & ->).
    apply mapM_app_ok in H as (ns & glb' & Hns & Hglb' & ->).
    destruct (IH glb') as (nss & Hall & ->).
    { rewrite Hlo', Hhi'. simpl. unfold mcolon. rewrite Hloc2. done. }
    exists (ns :: nss). split; [|done]. constructor; [|done].
    unfold face_nodes_glb. rewrite Ha, Hb. simpl. rewrite Hloc1. done.
Qed.

Lemma face_nodes_glb_length f ns n :
  boundary_faces_have g n -> f ∈ boundary_faces g ->
  face_nodes_glb g f = Ok ns -> length ns = n.
Proof.
  intros Hn Hin H. unfold face_nodes_glb in H.
  apply bind_ok in H as (a & Ha & H). apply bind_ok in H as (b & Hb & H).
  apply bind_ok in H as (loc & Hloc & H).
  apply mapM_length in H, Hloc. rewrite H, Hloc, length_seq.
  apply index_ok in Ha, Hb. by apply (Hn f).
Qed.

End TipFlags.

Lemma drop_concat_uniform {A : Type} (M : list (list A)) n j :
  Forall (fun r => length r = n) M ->
  drop (j * n) (concat M) = concat (drop j M).
Proof.
  intros H. revert j. induction H as [|r M Hr _ IH]; intros j.
  - simpl. by rewrite !drop_nil.
  - destruct j as [|j]; [done|]. simpl.
    rewrite drop_app_add' by done. apply IH.
Qed.

Lemma chunks_concat {A : Type} (M : list (list A)) n :
  Forall (fun r => length r = n) M ->
  map (fun j => slice (j * n) (j * n + n) (concat M)) (seq 0 (length M)) = M.
Proof.
  intros H. apply list_eq. intros j. rewrite list_lookup_fmap.
  destruct (M !! j) as [r|] eqn:Hj.
  - rewrite lookup_seq_lt by (by eapply lookup_lt_Some). simpl.
    unfold slice. replace (j * n + n - j * n)%nat with n by lia.
    rewrite (drop_concat_uniform M n j H).
    rewrite (drop_S _ _ _ Hj). simpl.
    rewrite take_app_length'; [done|].
    symmetry. by apply (Forall_lookup_1 _ _ _ _ H Hj).
  - rewrite lookup_seq_ge; [done|]. by apply lookup_ge_None.
Qed.

Lemma existsb_id_map {A : Type} (h : A -> bool) (l : list A) :
  existsb id (map h l) = existsb h l.
Proof. induction l as [|x l IH]; simpl; [done|]. by rewrite IH. Qed.

Lemma tip_flags_faces bnd g n flags :
  tip_flags bnd g = Ok flags ->
  nodes_per_face g = Ok n -> boundary_faces_have g n ->
  exists nss,
    Forall2 (fun f ns => face_nodes_glb g f = Ok ns) (boundary_faces g) nss /\
    flags = map (some_inner bnd) nss.
Proof.
  unfold tip_flags. intros H Hn Hhave.
  apply bind_ok in H as (glb & Hglb & H). rewrite Hn in H. simpl in H.
  apply bind_ok in H as (cols & Hcols & H). injection H as <-.
  destruct (nodes_glb_faces g glb Hglb) as (nss & Hall & ->).
  exists nss. split; [done|].
  assert (Hlen : Forall (fun r => length r = n) nss).
  { apply Forall_forall. intros ns Hin.
    apply list_elem_of_lookup in Hin as [p Hp].
    destruct (Forall2_lookup_r _ _ _ _ _ Hall Hp) as (f & Hf & Hfn).
    apply (face_nodes_glb_length g f ns n Hhave); [|done].
    apply list_elem_of_lookup. by exists p. }
  unfold reshape_F in Hcols. case_decide as Hsz; [|discriminate].
  injection Hcols as <-.
  rewrite (Forall2_length _ _ _ Hall).
  set (h := fun x : nat => negb (bool_decide (x ∈ bnd))).
  assert (Hmap : map h (concat nss) = concat (map (map h) nss)).
  { clear. induction nss as [|r M IH]; simpl; [done|].
    by rewrite map_app, IH. }
  rewrite Hmap.
  rewrite <- (length_map (map h) nss) at 1.
  rewrite chunks_concat.
  - rewrite map_map. apply map_ext. intros ns. apply existsb_id_map.
  - apply Forall_forall. intros r Hr.
    apply list_elem_of_In, in_map_iff in Hr as (ns & <- & Hns).
    rewrite length_map. rewrite Forall_forall in Hlen.
    by apply Hlen, list_elem_of_In.
Qed.

(** ** Adding and removing tags *)

Section Tags.

Lemma set_tag_idem tag b t : set_tag tag b (set_tag tag b t) = set_tag tag b t.
Proof. by destruct tag. Qed.

Lemma foldl_alter_lookup (h : tagset -> tagset) (fs : list nat)
    (tags : list tagset) (f : nat) :
  (forall t, h (h t) = h t) ->
  foldl (fun tags i => alter h i tags) tags fs !! f =
  (if bool_decide (f ∈ fs) then h else id) <$> tags !! f.
Proof.
  intros Hidem. revert tags. induction fs as [|i fs IH]; intros tags; simpl.
  - by destruct (tags !! f).
  - rewrite IH. destruct (decide (i = f)) as [->|Hne].
    + rewrite list_lookup_alter_eq.
      rewrite (bool_decide_eq_true_2 (f ∈ f :: fs)) by left.
      destruct (tags !! f) as [t|]; [|done]. simpl.
      case_bool_decide; simpl; by rewrite ?Hidem.
    + rewrite list_lookup_alter_ne by done.
      destruct (tags !! f) as [t|]; [|done]. simpl.
      repeat case_bool_decide; try done.
      * exfalso. match goal with H : ~ _ |- _ => apply H end. by right.
      * exfalso. match goal with H : f ∈ i :: fs |- _ =>
          apply elem_of_cons in H as [->|?] end; done.
Qed.

Lemma add_face_tag_ok g fs tag g' :
  add_face_tag g fs tag = Ok g' ->
  g' = with_face_tags g
         (foldl (fun tags i => alter (set_tag tag true) i tags)
                (face_tags g) fs) /\
  forall f, f ∈ fs -> is_Some (face_tags g !! f).
Proof.
  unfold add_face_tag. intros H. apply bind_ok in H as (ts & Hts & H).
  injection H as <-. split; [done|].
  intros f Hin. apply list_elem_of_lookup in Hin as [p Hp].
  destruct (mapM_lookup _ _ _ _ _ Hts Hp) as (t & _ & Ht).
  apply index_ok in Ht. by rewrite Ht.
Qed.

Lemma add_face_tag_lookup g fs tag g' f :
  add_face_tag g fs tag = Ok g' ->
  face_tags g' !! f =
  (if bool_decide (f ∈ fs) then set_tag tag true else id) <$> face_tags g !! f.
Proof.
  intros H. apply add_face_tag_ok in H as [-> _]. simpl.
  apply foldl_alter_lookup. intros t. apply set_tag_idem.
Qed.

Lemma reset_domain_boundary_ok g g' :
  reset_domain_boundary g = Ok g' ->
  g' = with_face_tags g (map (set_tag DOMAIN_BOUNDARY false) (face_tags g)).
Proof.
  unfold reset_domain_boundary, remove_face_tag. intros H.
  case_decide as Hlen; [|discriminate]. injection H as <-. f_equal.
  rewrite length_replicate in Hlen. rewrite Hlen.
  generalize (face_tags g) as tags. clear.
  induction tags as [|t tags IH]; simpl; [done|]. by rewrite IH.
Qed.

Lemma elem_of_select {A : Type} (mask : list bool) (l : list A) (x : A) :
  x ∈ select mask l <->
  exists p, mask !! p = Some true /\ l !! p = Some x.
Proof.
  unfold select. rewrite list_elem_of_fmap. split.
  - intros ([m y] & -> & Hin). apply list_elem_of_filter in Hin as [Hm Hin].
    simpl in Hm. subst m. apply list_elem_of_lookup in Hin as [p Hp].
    apply lookup_zip_with_Some in Hp as (m' & y' & Heq & Hm & Hy).
    injection Heq as <- <-. by exists p.
  - intros (p & Hm & Hl). exists (true, x). split; [done|].
    apply list_elem_of_filter. split; [done|].
    apply list_elem_of_lookup. exists p.
    apply lookup_zip_with_Some. by exists true, x.
Qed.

End Tags.

(** ** The tags written on a grid of an intermediate dimension *)

Lemma tag_lower_tags bnd g n g' :
  tag_lower bnd g = Ok g' ->
  nodes_per_face g = Ok n -> boundary_faces_have g n ->
  forall f, f ∈ boundary_faces g ->
    exists ns t t',
      face_nodes_glb g f = Ok ns /\
      face_tags g !! f = Some t /\ face_tags g' !! f = Some t' /\
      on_tip t' = orb (on_tip t) (some_inner bnd ns) /\
      on_domain_boundary t' =
        orb (on_domain_boundary t) (negb (some_inner bnd ns)) /\
      on_fracture t' = on_fracture t.
Proof.
  unfold tag_lower. intros H Hn Hhave f Hin.
  apply bind_ok in H as (flags & Hflags & H).
  apply bind_ok in H as (g1 & Hg1 & Hg').
  destruct (tip_flags_faces bnd g n flags Hflags Hn Hhave) as (nss & Hall & ->).
  pose proof Hin as Hin'.
  apply list_elem_of_lookup in Hin' as [p0 Hp0].
  destruct (Forall2_lookup_l _ _ _ _ _ Hall Hp0) as (ns & Hns & Hf).
  assert (Hsel1 : f ∈ select (map (some_inner bnd) nss) (boundary_faces g)
                  <-> some_inner bnd ns = true).
  { rewrite elem_of_select. split.
    - intros (p & Hm & Hl).
      destruct (Forall2_lookup_l _ _ _ _ _ Hall Hl) as (ns' & Hns' & Hf').
      rewrite Hf in Hf'. injection Hf' as <-.
      rewrite list_lookup_fmap, Hns' in Hm. by injection Hm.
    - intros Htip. exists p0. split; [|done].
      by rewrite list_lookup_fmap, Hns, <- Htip. }
  assert (Hsel2 : f ∈ select (map negb (map (some_inner bnd) nss))
                             (boundary_faces g)
                  <-> some_inner bnd ns = false).
  { rewrite elem_of_select. split.
    - intros (p & Hm & Hl).
      destruct (Forall2_lookup_l _ _ _ _ _ Hall Hl) as (ns' & Hns' & Hf').
      rewrite Hf in Hf'. injection Hf' as <-.
      rewrite !list_lookup_fmap, Hns' in Hm. simpl in Hm.
      injection Hm as Hm. by apply negb_true_iff.
    - intros Htip. exists p0. split; [|done].
      by rewrite !list_lookup_fmap, Hns; simpl; rewrite Htip. }
  pose proof (add_face_tag_lookup _ _ _ _ f Hg1) as Hl1.
  pose proof (add_face_tag_lookup _ _ _ _ f Hg') as Hl2.
  assert (Hbf : boundary_faces g1 = boundary_faces g).
  { apply add_face_tag_ok in Hg1 as [-> _]. done. }
  destruct (face_tags g !! f) as [t|] eqn:Ht.
  2:{ apply add_face_tag_ok in Hg1 as [_ Hsome].
      apply add_face_tag_ok in Hg' as [_ Hsome'].
      destruct (some_inner bnd ns) eqn:E.
      - destruct (Hsome f) as [? ?]; [by apply Hsel1 | congruence].
      - destruct (Hsome' f) as [t1 Ht1]; [by apply Hsel2|].
        rewrite Hl1 in Ht1. done. }
  exists ns, t. rewrite Hl2, Hl1. simpl.
  eexists. split; [done|]. split; [done|]. split; [reflexivity|].
  destruct (some_inner bnd ns) eqn:E.
  - rewrite (bool_decide_eq_true_2 _ (proj2 Hsel1 eq_refl)).
    rewrite bool_decide_eq_false_2.
    2:{ intros Hc. apply Hsel2 in Hc. done. }
    simpl. by rewrite !orb_true_r, ?orb_false_r.
  - rewrite (bool_decide_eq_true_2 _ (proj2 Hsel2 eq_refl)).
    rewrite bool_decide_eq_false_2.
    2:{ intros Hc. apply Hsel1 in Hc. done. }
    simpl. by rewrite !orb_true_r, ?orb_false_r.
Qed.

Lemma some_inner_all_on_boundary bnd ns :
  some_inner bnd ns = negb (all_on_boundary bnd ns).
Proof.
  unfold some_inner, all_on_boundary.
  induction ns as [|x ns IH]; simpl; [done|].
  rewrite IH. by destruct (bool_decide (x ∈ bnd)), (forallb _ ns).
Qed.

(** ** The passes of [tag_faces] *)

Section TagFaces.

Variables (grids grids' : list (list grid)) (chk : bool) (g_h : grid).
Hypothesis Hrun : tag_faces grids chk = Ok grids'.
Hypothesis Htop : grids !! 0%nat = Some (g_h :: nil).

(** With one grid of the highest dimension, every grid of an intermediate
    dimension goes through the reset and then once through the loop body. *)
Lemma tag_faces_single_top :
  exists bnd,
    bnd_nodes_of g_h = Ok bnd /\
    forall d gs j g,
      (1 <= d)%nat -> (S d < length grids)%nat ->
      grids !! d = Some gs -> gs !! j = Some g ->
      exists gs' g1 g',
        grids' !! d = Some gs' /\ gs' !! j = Some g' /\
        reset_domain_boundary g = Ok g1 /\ tag_lower bnd g1 = Ok g'.
Proof.
  unfold tag_faces in Hrun.
  apply bind_ok in Hrun as (grids1 & Hreset & H).
  apply bind_ok in H as (top & Htop1 & H).
  apply index_ok in Htop1.
  destruct (mapM_lookup _ _ _ _ _ Hreset Htop) as (top' & Htop' & Hmap).
  rewrite Htop1 in Htop'. injection Htop' as <-.
  simpl in Hmap. apply bind_ok in Hmap as (g_h1 & Hg_h1 & Hmap).
  injection Hmap as <-. simpl in H.
  rewrite andb_false_r in H.
  apply bind_ok in H as (r & Hloop & H). injection H as <-.
  simpl in Hloop. apply bind_ok in Hloop as (r0 & Hfrom & Hloop).
  injection Hloop as <-. simpl.
  unfold tag_from in Hfrom.
  apply bind_ok in Hfrom as (g_h' & Hg_h' & Hfrom).
  apply bind_ok in Hfrom as (bnd & Hbnd & Hfrom).
  apply bind_ok in Hfrom as (mid' & Hmid' & Hfrom). injection Hfrom as <-.
  simpl.
  exists bnd. split.
  { apply reset_domain_boundary_ok in Hg_h1. subst g_h1. exact Hbnd. }
  intros d gs j g Hd Hlen Hgs Hg.
  destruct d as [|d0]; [lia|].
  pose proof (mapM_length _ _ _ Hreset) as Hlen1.
  destruct (mapM_lookup _ _ _ _ _ Hreset Hgs) as (gs1 & Hgs1 & Hmap1).
  destruct (mapM_lookup _ _ _ _ _ Hmap1 Hg) as (g1 & Hg1 & Hr1).
  assert (Hmid : slice 1 (length grids1 - 1) grids1 !! d0 = Some gs1).
  { unfold slice. rewrite lookup_take_lt by lia. by rewrite lookup_drop. }
  destruct (mapM_lookup _ _ _ _ _ Hmid' Hmid) as (gs' & Hgs' & Hmap2).
  destruct (mapM_lookup _ _ _ _ _ Hmap2 Hg1) as (g' & Hg' & Hr2).
  exists gs', g1, g'. repeat split; try done.
  rewrite lookup_cons_ne_0 by done. simpl.
  rewrite lookup_app_l; [done|]. by eapply lookup_lt_Some.
Qed.

End TagFaces.

(** C5, as the code has it: after [tag_faces] on a hierarchy with one grid
    of the highest dimension, a boundary face of a grid of an intermediate
    dimension carries DOMAIN_BOUNDARY exactly when all its nodes are
    boundary nodes of the grid of the highest dimension, and is given TIP
    exactly when some node of it is not; one of the two tags is added,
    never both.  A TIP tag that the face carried before the call is
    kept. *)
Theorem tag_faces_lower_boundary (grids grids' : list (list grid))
    (chk : bool) (g_h : grid) (d j n : nat) (gs : list grid) (g : grid) :
  tag_faces grids chk = Ok grids' ->
  grids !! 0%nat = Some (g_h :: nil) ->
  (1 <= d)%nat -> (S d < length grids)%nat ->
  grids !! d = Some gs -> gs !! j = Some g ->
  nodes_per_face g = Ok n -> boundary_faces_have g n ->
  exists bnd gs' g',
    bnd_nodes_of g_h = Ok bnd /\
    grids' !! d = Some gs' /\ gs' !! j = Some g' /\
    forall f, f ∈ boundary_faces g ->
      exists ns t t',
        face_nodes_glb g f = Ok ns /\
        face_tags g !! f = Some t /\ face_tags g' !! f = Some t' /\
        on_domain_boundary t' = all_on_boundary bnd ns /\
        on_tip t' = orb (on_tip t) (negb (all_on_boundary bnd ns)) /\
        on_fracture t' = on_fracture t.
Proof.
  intros Hrun Htop Hd Hlen Hgs Hg Hn Hhave.
  destruct (tag_faces_single_top grids grids' chk g_h Hrun Htop)
    as (bnd & Hbnd & Hall).
  destruct (Hall d gs j g Hd Hlen Hgs Hg)
    as (gs' & g1 & g' & Hgs' & Hg' & Hreset & Hlower).
  exists bnd, gs', g'. repeat split; try done.
  intros f Hin.
  apply reset_domain_boundary_ok in Hreset. subst g1.
  destruct (tag_lower_tags bnd _ n g' Hlower Hn Hhave f Hin)
    as (ns & t1 & t' & Hns & Ht1 & Ht' & Htip & Hdb & Hfr).
  simpl in Ht1. rewrite list_lookup_fmap in Ht1.
  destruct (face_tags g !! f) as [t|] eqn:Ht; [|discriminate].
  injection Ht1 as <-.
  exists ns, t, t'. repeat split; try done.
  - rewrite Hdb. simpl. by rewrite some_inner_all_on_boundary, negb_involutive.
  - rewrite Htip. simpl. by rewrite some_inner_all_on_boundary.
Qed.

Lemma tag_faces_lower_boundary_witness :
  exists grids' gs' g' t',
    tag_faces Examples.fractured_cube true = Ok grids' /\
    grids' !! 1%nat = Some gs' /\ gs' !! 0%nat = Some g' /\
    face_tags g' !! 1%nat = Some t' /\
    on_domain_boundary t' = false /\ on_tip t' = true.
Proof.
  destruct (tag_faces Examples.fractured_cube true) as [grids'|e] eqn:Hrun;
    [|vm_compute in Hrun; discriminate].
  destruct (tag_faces_lower_boundary Examples.fractured_cube grids' true
              Examples.cube8 1 0 2 (Examples.square1 :: nil) Examples.square1
              Hrun eq_refl ltac:(lia) ltac:(simpl; lia) eq_refl eq_refl eq_refl)
    as (bnd & gs' & g' & Hbnd & Hgs' & Hg' & Hfaces).
  { intros f a b Hin Ha Hb. simpl in Hin.
    repeat (apply elem_of_cons in Hin as [->|Hin];
            [simpl in Ha, Hb; injection Ha as <-; injection Hb as <-; done|]).
    by apply elem_of_nil in Hin. }
  destruct (Hfaces 1%nat) as (ns & t & t' & Hns & Ht & Ht' & Hdb & Htip & _).
  { simpl. right. left. }
  exists grids', gs', g', t'. repeat split; try done.
  - rewrite Hdb. vm_compute in Hns. injection Hns as <-.
    vm_compute in Hbnd. injection Hbnd as <-. reflexivity.
  - rewrite Htip. vm_compute in Hns. injection Hns as <-.
    vm_compute in Hbnd. injection Hbnd as <-.
    vm_compute in Ht. injection Ht as <-. reflexivity.
Defined.

(** C5, as the specification has it, fails: the edge 1 of the fracture
    [square1] joins the node 4, a boundary node of the cube, and the
    interior node 13; it is tagged TIP, and not DOMAIN_BOUNDARY, although
    one of its nodes is a global boundary node. *)
Lemma tag_faces_tip_counterexample :
  exists grids' bnd gs' g' t',
    tag_faces Examples.fractured_cube true = Ok grids' /\
    bnd_nodes_of Examples.cube8 = Ok bnd /\
    face_nodes_glb Examples.square1 1 = Ok [4; 13]%nat /\
    4%nat ∈ bnd /\
    grids' !! 1%nat = Some gs' /\ gs' !! 0%nat = Some g' /\
    face_tags g' !! 1%nat = Some t' /\
    on_tip t' = true /\ on_domain_boundary t' = false.
Proof.
  destruct (tag_faces Examples.fractured_cube true) as [grids'|e] eqn:Hrun;
    [|vm_compute in Hrun; discriminate].
  destruct (bnd_nodes_of Examples.cube8) as [bnd|e] eqn:Hbnd;
    [|vm_compute in Hbnd; discriminate].
  vm_compute in Hrun. injection Hrun as <-.
  vm_compute in Hbnd. injection Hbnd as <-.
  do 5 eexists. split; [reflexivity|]. split; [reflexivity|].
  split; [reflexivity|]. split; [|repeat split; reflexivity].
  apply list_elem_of_In. vm_compute. tauto.
Qed.

(** ** The edges of the bucket *)

Section Bucket.

Lemma enumerate_lookup {A : Type} (l : list A) (i : nat) (p : nat * A) :
  enumerate l !! i = Some p <-> fst p = i /\ l !! i = Some (snd p).
Proof.
  unfold enumerate. rewrite lookup_zip_with_Some. split.
  - intros (i' & x & -> & Hi & Hx). apply lookup_seq in Hi as [-> _]. done.
  - intros [<- Hx]. exists (fst p), (snd p). destruct p as [i x]. simpl in *.
    repeat split; [|done]. apply lookup_seq. split; [done|].
    by eapply lookup_lt_Some.
Qed.

Lemma elem_of_concat_mapM {A B : Type} (f : A -> res (list B)) l es x :
  mapM f l = Ok es ->
  x ∈ concat es <-> exists i a ys, l !! i = Some a /\ f a = Ok ys /\ x ∈ ys.
Proof.
  intros H. apply mapM_ok in H.
  rewrite list_elem_of_In, in_concat. split.
  - intros (ys & Hys & Hx). apply list_elem_of_In in Hx, Hys.
    apply list_elem_of_lookup in Hys as [i Hi].
    destruct (Forall2_lookup_r _ _ _ _ _ H Hi) as (a & Ha & Hf).
    by exists i, a, ys.
  - intros (i & a & ys & Ha & Hf & Hx).
    destruct (Forall2_lookup_l _ _ _ _ _ H Ha) as (ys' & Hys' & Hf').
    rewrite Hf in Hf'. injection Hf' as <-.
    exists ys. split; [|by apply list_elem_of_In].
    apply list_elem_of_In, list_elem_of_lookup. by exists i.
Qed.

Lemma size_pos_iff (m : bool_matrix) :
  (0 <? size m)%nat = true <-> stored m <> ∅.
Proof.
  unfold size. rewrite Nat.ltb_lt. split.
  - intros Hlt Hempty. rewrite Hempty, elements_empty in Hlt. simpl in Hlt. lia.
  - intros Hne. destruct (elements (stored m)) eqn:E; [|simpl; lia].
    destruct Hne. apply leibniz_equiv. by apply elements_empty_iff.
Qed.

Lemma csc_matrix_ok rows cols shape m :
  csc_matrix rows cols shape = Ok m ->
  bshape m = shape /\ stored m = list_to_set (zip rows cols).
Proof.
  unfold csc_matrix. intros H. case_decide; [|discriminate].
  destruct (andb _ _); [|discriminate]. by injection H as <-.
Qed.

Lemma coupling_ok hg fn n lg fc :
  coupling hg fn n lg = Ok fc ->
  bshape fc = (num_cells lg, num_faces hg) /\
  forall c f,
    (c, f) ∈ stored fc <->
    (c < num_cells lg)%nat /\
    exists sig, fn !! f = Some sig /\ cell_signature lg c = Ok sig.
Proof.
  unfold coupling. intros H. apply bind_ok in H as ([faces cells] & Hm & H).
  apply csc_matrix_ok in H as [Hshape Hstored]. split; [done|].
  intros c f. rewrite Hstored, elem_of_list_to_set. simpl.
  unfold obtain_interdim_mappings in Hm.
  apply bind_ok in Hm as (sigs & Hsigs & Hm). injection Hm as <- <-.
  set (pairs := flat_map _ _).
  assert (Hzip : zip (map snd pairs) (map fst pairs) =
                 map (fun p => (snd p, fst p)) pairs).
  { clear. induction pairs as [|p ps IH]; simpl; [done|]. by rewrite IH. }
  rewrite Hzip, list_elem_of_fmap. unfold pairs.
  split.
  - intros ([f' c'] & Heq & Hin). simpl in Heq. injection Heq as <- <-.
    apply list_elem_of_In, in_flat_map in Hin as ([c0 sc] & Hcs & Hin).
    apply in_map_iff in Hin as ([f0 sf] & Heq & Hin). simpl in Heq.
    injection Heq as <- <-.
    apply list_elem_of_In, list_elem_of_filter in Hin as [Hsame Hin].
    simpl in Hsame. subst sf.
    apply list_elem_of_lookup in Hin as [p Hp].
    apply lookup_zip_with_Some in Hp as (f1 & s1 & Heq & Hf1 & Hs1).
    injection Heq as <- <-. apply lookup_seq in Hf1 as [-> _]. simpl in Hs1.
    apply list_elem_of_In, list_elem_of_lookup in Hcs as [q Hq].
    apply lookup_zip_with_Some in Hq as (c1 & s2 & Heq & Hc1 & Hs2).
    injection Heq as <- <-. apply lookup_seq in Hc1 as [-> Hlt].
    simpl in Hs2, Hlt. split; [done|]. exists sc. split; [done|].
    destruct (mapM_lookup _ _ _ q q Hsigs) as (sc' & Hsc' & Hsig).
    { by apply lookup_seq. }
    rewrite Hs2 in Hsc'. by injection Hsc' as <-.
  - intros (Hc & sig & Hf & Hsig).
    exists (f, c). split; [done|].
    apply list_elem_of_In, in_flat_map. exists (c, sig). split.
    + apply list_elem_of_In, list_elem_of_lookup. exists c.
      apply lookup_zip_with_Some. exists c, sig. repeat split.
      * by apply lookup_seq.
      * destruct (mapM_lookup _ _ _ c c Hsigs) as (sc' & Hsc' & Hsig').
        { by apply lookup_seq. }
        rewrite Hsig in Hsig'. by injection Hsig' as <-.
    + apply in_map_iff. exists (f, sig). split; [done|].
      apply list_elem_of_In, list_elem_of_filter. split; [done|].
      apply list_elem_of_lookup. exists f.
      apply lookup_zip_with_Some. exists f, sig. repeat split; [|done].
      apply lookup_seq. split; [done|]. by eapply lookup_lt_Some.
Qed.

Lemma couple_edges d i hg fn n jlg es e :
  couple d i hg fn n jlg = Ok es ->
  e ∈ es <->
  exists fc, coupling hg fn n (snd jlg) = Ok fc /\ stored fc <> ∅ /\
    e = {| high := (d, i); low := (S d, fst jlg); face_cells := fc |}.
Proof.
  unfold couple. intros H. apply bind_ok in H as (fc & Hfc & H).
  destruct (0 <? size fc)%nat eqn:Hsz; injection H as <-.
  - rewrite list_elem_of_singleton. split.
    + intros ->. exists fc. repeat split; try done. by apply size_pos_iff.
    + intros (fc' & Hfc' & _ & ->). rewrite Hfc in Hfc'. by injection Hfc' as <-.
  - split; [by intros ?%elem_of_nil|].
    intros (fc' & Hfc' & Hne & _). rewrite Hfc in Hfc'. injection Hfc' as <-.
    apply size_pos_iff in Hne. congruence.
Qed.

Lemma couple_high_edges d lower ihg es e :
  couple_high d lower ihg = Ok es ->
  e ∈ es <->
  exists n fn j lg fc,
    nodes_per_face (snd ihg) = Ok n /\ face_signatures (snd ihg) n = Ok fn /\
    lower !! j = Some lg /\ coupling (snd ihg) fn n lg = Ok fc /\
    stored fc <> ∅ /\
    e = {| high := (d, fst ihg); low := (S d, j); face_cells := fc |}.
Proof.
  unfold couple_high. intros H. apply bind_ok in H as (n & Hn & H).
  apply bind_ok in H as (fn & Hfn & H). apply bind_ok in H as (ess & Hess & H).
  injection H as <-. rewrite (elem_of_concat_mapM _ _ _ _ Hess). split.
  - intros (j & [j' lg] & ys & Hj & Hc & Hin).
    apply enumerate_lookup in Hj as [Hj' Hlg]. simpl in Hj', Hlg. subst j'.
    apply (couple_edges _ _ _ _ _ _ _ e Hc) in Hin as (fc & Hfc & Hne & ->).
    by exists n, fn, j, lg, fc.
  - intros (n' & fn' & j & lg & fc & Hn' & Hfn' & Hlg & Hfc & Hne & ->).
    rewrite Hn in Hn'. injection Hn' as <-.
    rewrite Hfn in Hfn'. injection Hfn' as <-.
    destruct (mapM_lookup _ _ _ j (j, lg) Hess) as (ys & _ & Hc).
    { by apply enumerate_lookup. }
    exists j, (j, lg), ys. repeat split; [by apply enumerate_lookup | done |].
    apply (couple_edges _ _ _ _ _ _ _ _ Hc). by exists fc.
Qed.

Lemma couple_dim_edges grids d es e :
  couple_dim grids d = Ok es ->
  e ∈ es <->
  exists higher lower i hg n fn j lg fc,
    grids !! d = Some higher /\ grids !! S d = Some lower /\
    higher !! i = Some hg /\
    nodes_per_face hg = Ok n /\ face_signatures hg n = Ok fn /\
    lower !! j = Some lg /\ coupling hg fn n lg = Ok fc /\
    stored fc <> ∅ /\
    e = {| high := (d, i); low := (S d, j); face_cells := fc |}.
Proof.
  unfold couple_dim. intros H. apply bind_ok in H as (higher & Hhigher & H).
  apply index_ok in Hhigher.
  apply bind_ok in H as (ess & Hess & H). injection H as <-.
  rewrite (elem_of_concat_mapM _ _ _ _ Hess). split.
  - intros (i & [i' hg] & ys & Hi & Hc & Hin).
    apply enumerate_lookup in Hi as [Hi' Hhg]. simpl in Hi', Hhg. subst i'.
    apply bind_ok in Hc as (lower & Hlower & Hc). apply index_ok in Hlower.
    apply (couple_high_edges _ _ _ _ e Hc) in Hin
      as (n & fn & j & lg & fc & Hn & Hfn & Hlg & Hfc & Hne & ->).
    simpl in *. by exists higher, lower, i, hg, n, fn, j, lg, fc.
  - intros (higher' & lower & i & hg & n & fn & j & lg & fc & Hh & Hl & Hhg
            & Hn & Hfn & Hlg & Hfc & Hne & ->).
    rewrite Hhigher in Hh. injection Hh as <-.
    destruct (mapM_lookup _ _ _ i (i, hg) Hess) as (ys & _ & Hc).
    { by apply enumerate_lookup. }
    exists i, (i, hg), ys. split; [by apply enumerate_lookup|]. split; [done|].
    apply bind_ok in Hc as (lower' & Hlower' & Hc). apply index_ok in Hlower'.
    rewrite Hl in Hlower'. injection Hlower' as <-.
    apply (couple_high_edges _ _ _ _ _ Hc).
    by exists n, fn, j, lg, fc.
Qed.

Lemma bucket_edges grids b e :
  assemble_in_bucket grids = Ok b ->
  e ∈ edges b <->
  exists d higher lower i hg n fn j lg fc,
    grids !! d = Some higher /\ grids !! S d = Some lower /\
    higher !! i = Some hg /\
    nodes_per_face hg = Ok n /\ face_signatures hg n = Ok fn /\
    lower !! j = Some lg /\ coupling hg fn n lg = Ok fc /\
    stored fc <> ∅ /\
    e = {| high := (d, i); low := (S d, j); face_cells := fc |}.
Proof.
  unfold assemble_in_bucket. intros H. apply bind_ok in H as (ess & Hess & H).
  injection H as <-. simpl. rewrite (elem_of_concat_mapM _ _ _ _ Hess). split.
  - intros (p & d & ys & Hp & Hc & Hin).
    apply (couple_dim_edges _ _ _ e Hc) in Hin
      as (higher & lower & i & hg & n & fn & j & lg & fc & Hin).
    by exists d, higher, lower, i, hg, n, fn, j, lg, fc.
  - intros (d & higher & lower & i & hg & n & fn & j & lg & fc & Hh & Hl & Hrest).
    assert (Hd : (d < length grids - 1)%nat).
    { apply lookup_lt_Some in Hl. lia. }
    destruct (mapM_lookup _ _ _ d d Hess) as (ys & _ & Hc).
    { by apply lookup_seq. }
    exists d, d, ys. split; [by apply lookup_seq|]. split; [done|].
    apply (couple_dim_edges _ _ _ _ Hc).
    by exists higher, lower, i, hg, n, fn, j, lg, fc.
Qed.

Lemma bucket_pair_runs grids b d higher lower i hg j lg :
  assemble_in_bucket grids = Ok b ->
  grids !! d = Some higher -> grids !! S d = Some lower ->
  higher !! i = Some hg -> lower !! j = Some lg ->
  exists n fn fc,
    nodes_per_face hg = Ok n /\ face_signatures hg n = Ok fn /\
    coupling hg fn n lg = Ok fc.
Proof.
  unfold assemble_in_bucket. intros H Hh Hl Hhg Hlg.
  apply bind_ok in H as (ess & Hess & _).
  assert (Hd : (d < length grids - 1)%nat).
  { apply lookup_lt_Some in Hl. lia. }
  destruct (mapM_lookup _ _ _ d d Hess) as (ys & _ & Hc).
  { by apply lookup_seq. }
  unfold couple_dim in Hc. apply bind_ok in Hc as (higher' & Hh' & Hc).
  apply index_ok in Hh'. rewrite Hh in Hh'. injection Hh' as <-.
  apply bind_ok in Hc as (es & Hes & _).
  destruct (mapM_lookup _ _ _ i (i, hg) Hes) as (ys' & _ & Hc).
  { by apply enumerate_lookup. }
  apply bind_ok in Hc as (lower' & Hl' & Hc). apply index_ok in Hl'.
  rewrite Hl in Hl'. injection Hl' as <-.
  unfold couple_high in Hc. simpl in Hc.
  apply bind_ok in Hc as (n & Hn & Hc). apply bind_ok in Hc as (fn & Hfn & Hc).
  apply bind_ok in Hc as (es' & Hes' & _).
  destruct (mapM_lookup _ _ _ j (j, lg) Hes') as (ys'' & _ & Hc).
  { by apply enumerate_lookup. }
  unfold couple in Hc. apply bind_ok in Hc as (fc & Hfc & _).
  by exists n, fn, fc.
Qed.

End Bucket.

(** C6: for a grid [hg] and a grid [lg] of the next lower dimension,
    [assemble_in_bucket] builds a coupling matrix with one row per cell of
    [lg] and one column per face of [hg], that stores an entry exactly
    where the sorted global nodes of the face are those of the cell; the
    bucket has an edge for the pair exactly when that matrix stores an
    entry, and the edge carries that matrix. *)
Theorem assemble_in_bucket_edges (grids : list (list grid)) (b : GridBucket)
    (d i j : nat) (higher lower : list grid) (hg lg : grid) :
  assemble_in_bucket grids = Ok b ->
  grids !! d = Some higher -> grids !! S d = Some lower ->
  higher !! i = Some hg -> lower !! j = Some lg ->
  exists n fn fc,
    nodes_per_face hg = Ok n /\ face_signatures hg n = Ok fn /\
    coupling hg fn n lg = Ok fc /\
    bshape fc = (num_cells lg, num_faces hg) /\
    (forall c f,
       (c, f) ∈ stored fc <->
       (c < num_cells lg)%nat /\
       exists sig, fn !! f = Some sig /\ cell_signature lg c = Ok sig) /\
    ((exists e, e ∈ edges b /\ high e = (d, i) /\ low e = (S d, j)) <->
     stored fc <> ∅) /\
    (forall e, e ∈ edges b -> high e = (d, i) -> low e = (S d, j) ->
       face_cells e = fc).
Proof.
  intros Hrun Hh Hl Hhg Hlg.
  destruct (bucket_pair_runs grids b d higher lower i hg j lg Hrun Hh Hl Hhg Hlg)
    as (n & fn & fc & Hn & Hfn & Hfc).
  exists n, fn, fc. split; [done|]. split; [done|]. split; [done|].
  destruct (coupling_ok hg fn n lg fc Hfc) as [Hshape Hstored].
  split; [done|]. split; [done|].
  assert (Hedge : forall e, e ∈ edges b -> high e = (d, i) ->
                  low e = (S d, j) -> face_cells e = fc /\ stored fc <> ∅).
  { intros e He Hhigh Hlow.
    apply (bucket_edges grids b e Hrun) in He
      as (d' & higher' & lower' & i' & hg' & n' & fn' & j' & lg' & fc'
          & Hh' & Hl' & Hhg' & Hn' & Hfn' & Hlg' & Hfc' & Hne & ->).
    simpl in Hhigh, Hlow. injection Hhigh as -> ->. injection Hlow as ->.
    rewrite Hh in Hh'. injection Hh' as <-.
    rewrite Hl in Hl'. injection Hl' as <-.
    rewrite Hhg in Hhg'. injection Hhg' as <-.
    rewrite Hlg in Hlg'. injection Hlg' as <-.
    rewrite Hn in Hn'. injection Hn' as <-.
    rewrite Hfn in Hfn'. injection Hfn' as <-.
    rewrite Hfc in Hfc'. injection Hfc' as <-. done. }
  split.
  - split.
    + intros (e & He & Hhigh & Hlow). by apply (Hedge e).
    + intros Hne.
      exists {| high := (d, i); low := (S d, j); face_cells := fc |}.
      split; [|done]. apply (bucket_edges grids b _ Hrun).
      by exists d, higher, lower, i, hg, n, fn, j, lg, fc.
  - intros e He Hhigh Hlow. by apply (Hedge e).
Qed.

Lemma assemble_in_bucket_edges_witness :
  exists b e,
    assemble_in_bucket Examples.fractured_cube = Ok b /\
    e ∈ edges b /\ high e = (0%nat, 0%nat) /\ low e = (1%nat, 0%nat) /\
    (0%nat, 1%nat) ∈ stored (face_cells e).
Proof.
  destruct (assemble_in_bucket Examples.fractured_cube) as [b|err] eqn:Hrun;
    [|vm_compute in Hrun; discriminate].
  destruct (assemble_in_bucket_edges Examples.fractured_cube b 0 0 0
              (Examples.cube8 :: nil) (Examples.square1 :: nil)
              Examples.cube8 Examples.square1 Hrun eq_refl eq_refl eq_refl
              eq_refl)
    as (n & fn & fc & Hn & Hfn & Hfc & _ & Hstored & Hedge & Hsame).
  assert (Hin : (0%nat, 1%nat) ∈ stored fc).
  { apply Hstored. split; [simpl; lia|].
    exists [1; 4; 10; 13]%nat. split; [|reflexivity].
    vm_compute in Hn. injection Hn as <-.
    vm_compute in Hfn. injection Hfn as <-. reflexivity. }
  destruct (proj2 Hedge) as (e & He & Hhigh & Hlow).
  { intros Hempty. rewrite Hempty in Hin. by apply not_elem_of_empty in Hin. }
  exists b, e. repeat split; try done.
  by rewrite (Hsame e He Hhigh Hlow).
Defined.

(** * Further properties of [dual.py] *)

(** ** The source term *)

Section Rhs.

Context {BC : Type}.
Variables (g : grid) (f : list vec3 -> vec) (bc : option BC).
Let nf := num_faces g.
Let nc := num_cells g.

Lemma rhs_regular :
  length (cell_volumes g) = nc -> length (f (cell_centers g)) = nc ->
  rhs g f bc =
  Ok (replicate nf 0 ++
      map (fun p => - (fst p * snd p))
          (zip (cell_volumes g) (f (cell_centers g)))).
Proof.
  intros Hv Hf. unfold rhs, broadcast.
  rewrite decide_True by congruence. simpl.
  unfold assign_tail.
  rewrite length_drop, length_replicate, length_map, length_zip_with, Hv, Hf.
  fold nf nc. replace (nf + nc - (nf + nc - nc))%nat with nc by lia.
  rewrite decide_True by lia. f_equal. f_equal.
  rewrite take_replicate. f_equal. lia.
Qed.

End Rhs.

(** The right-hand side is zero on the flux unknowns and minus the cell
    volume times the source on the pressure unknowns, when the grid holds
    one volume per cell and the source gives one value per cell. *)
Theorem rhs_values {BC : Type} (g : grid) (f : list vec3 -> vec)
    (bc : option BC) :
  length (cell_volumes g) = num_cells g ->
  length (f (cell_centers g)) = num_cells g ->
  exists b,
    rhs g f bc = Ok b /\
    length b = (num_faces g + num_cells g)%nat /\
    (forall i, (i < num_faces g)%nat -> b !! i = Some 0) /\
    (forall c v s, cell_volumes g !! c = Some v ->
       f (cell_centers g) !! c = Some s ->
       b !! (num_faces g + c)%nat = Some (- (v * s))).
Proof.
  intros Hv Hf. eexists. split; [by apply rhs_regular|].
  split; [|split].
  - rewrite length_app, length_replicate, length_map, length_zip_with. lia.
  - intros i Hi. rewrite lookup_app_l by (by rewrite length_replicate).
    by apply lookup_replicate_2.
  - intros c v s Hcv Hcs.
    rewrite lookup_app_r by (rewrite length_replicate; lia).
    rewrite length_replicate.
    replace (num_faces g + c - num_faces g)%nat with c by lia.
    rewrite list_lookup_fmap, lookup_zip_with, Hcv. simpl. by rewrite Hcs.
Qed.

Lemma rhs_values_witness :
  exists b,
    rhs Examples.line2 (fun cs => map (fun _ => 1) cs) (@None unit) = Ok b /\
    b !! 3%nat = Some (- (1 * 1)).
Proof.
  destruct (rhs_values Examples.line2 (fun cs => map (fun _ => 1) cs)
              (@None unit) eq_refl eq_refl) as (b & Hb & _ & _ & Hp).
  exists b. split; [exact Hb|]. by apply (Hp 0%nat).
Defined.

(** [extract] undoes the layout of [rhs]: its flux part is zero and its
    pressure part holds minus the volume times the source of each cell. *)
Theorem extract_rhs {BC : Type} (g : grid) (f : list vec3 -> vec)
    (bc : option BC) :
  length (cell_volumes g) = num_cells g ->
  length (f (cell_centers g)) = num_cells g ->
  (do b <- rhs g f bc; extract g b) =
  Ok (replicate (num_faces g) 0,
      map (fun p => - (fst p * snd p))
          (zip (cell_volumes g) (f (cell_centers g)))).
Proof.
  intros Hv Hf. rewrite rhs_regular by done. simpl. unfold extract.
  rewrite take_app_length', drop_app_length' by (by rewrite length_replicate).
  done.
Qed.

Lemma extract_rhs_witness :
  (do b <- rhs Examples.line2 (fun cs => map (fun _ => 1) cs) (@None unit);
   extract Examples.line2 b) = Ok ([0; 0; 0], [- (1 * 1); - (1 * 1)]).
Proof.
  exact (extract_rhs Examples.line2 (fun cs => map (fun _ => 1) cs)
           (@None unit) eq_refl eq_refl).
Defined.

Lemma broadcast_cases {A : Type} (u v : list A) :
  (length u = length v /\ exists r, broadcast u v = Ok r /\ length r = length u)
  \/ (length u <> length v /\ length u = 1%nat /\
      exists r, broadcast u v = Ok r /\ length r = length v)
  \/ (length u <> length v /\ length u <> 1%nat /\ length v = 1%nat /\
      exists r, broadcast u v = Ok r /\ length r = length u)
  \/ (length u <> length v /\ length u <> 1%nat /\ length v <> 1%nat /\
      broadcast u v = Raise ValueError).
Proof.
  unfold broadcast. case_decide as Hlen.
  - left. split; [done|]. eexists. split; [done|].
    rewrite length_zip_with. lia.
  - right. destruct u as [|x [|x' u]].
    + destruct v as [|y [|y' v]]; simpl in *; try lia.
      * right. left. repeat (split; [simpl; lia|]).
        eexists. split; [done|]. done.
      * right. right. repeat (split; [simpl; lia|]). done.
    + left. repeat (split; [simpl in *; lia|]). eexists. split; [done|].
      by rewrite length_map.
    + right. destruct v as [|y [|y' v]]; simpl in *.
      * right. repeat (split; [simpl; lia|]). done.
      * left. repeat (split; [simpl; lia|]). eexists. split; [done|].
        simpl. by rewrite length_map.
      * right. repeat (split; [simpl; lia|]). done.
Qed.

Lemma assign_tail_cases {A : Type} (a : list A) (lo : nat) (v : list A) :
  let n := (length a - lo)%nat in
  (length v = n /\ is_ok (assign_tail a lo v))
  \/ (length v <> n /\ length v = 1%nat /\ is_ok (assign_tail a lo v))
  \/ (length v <> n /\ length v <> 1%nat /\
      assign_tail a lo v = Raise ValueError).
Proof.
  intros n. unfold assign_tail. rewrite length_drop. fold n.
  case_decide as Hlen.
  - left. split; [done|]. by eexists.
  - right. destruct v as [|x [|x' v]]; simpl in *.
    + right. repeat (split; [simpl; lia|]). done.
    + left. repeat (split; [simpl; lia|]). by eexists.
    + right. repeat (split; [simpl; lia|]). done.
Qed.

(** [rhs] raises nothing but [ValueError], and raises it exactly when the
    volumes and the values of the source cannot be broadcast to one value
    per cell. *)
Theorem rhs_shape_error {BC : Type} (g : grid) (f : list vec3 -> vec)
    (bc : option BC) :
  let lv := length (cell_volumes g) in
  let ls := length (f (cell_centers g)) in
  let nc := num_cells g in
  (forall e, rhs g f bc = Raise e -> e = ValueError) /\
  (is_ok (rhs g f bc) <->
   (lv = ls /\ (lv = nc \/ lv = 1%nat)) \/
   (lv <> ls /\ lv = 1%nat /\ (ls = nc \/ ls = 1%nat)) \/
   (lv <> ls /\ ls = 1%nat /\ (lv = nc \/ lv = 1%nat))).
Proof.
  intros lv ls nc. subst lv ls nc. unfold rhs.
  set (zeros := replicate (num_faces g + num_cells g) 0).
  set (lo := (num_faces g + num_cells g - num_cells g)%nat).
  assert (Hn : (length zeros - lo)%nat = num_cells g).
  { unfold zeros, lo. rewrite length_replicate. lia. }
  assert (Hnot : forall (A : Type) (e : exn), ~ is_ok (@Raise A e)).
  { intros A e [a Ha]. discriminate. }
  destruct (broadcast_cases (cell_volumes g) (f (cell_centers g)))
    as [(Hl & r & -> & Hr)|[(Hl & H1 & r & -> & Hr)|[(Hl & H1 & H2 & r & -> & Hr)
        |(Hl & H1 & H2 & ->)]]]; simpl.
  4:{ split; [by intros e [= <-]|]. split; [by intros ?%Hnot|]. lia. }
  all: set (v := map _ r);
    assert (Hv : length v = length r) by (unfold v; by rewrite length_map);
    destruct (assign_tail_cases zeros lo v) as [(Ha & Hok)|[(Ha & Hb & Hok)
      |(Ha & Hb & Herr)]]; rewrite Hn, Hv, Hr in Ha;
    try (rewrite Hv, Hr in Hb);
    try (split; [intros e He; destruct Hok as [x Hx]; congruence|];
         split; [intros _; lia | intros _; exact Hok]);
    rewrite Herr;
    (split; [by intros e [= <-]|]); (split; [by intros ?%Hnot | lia]).
Qed.

(** ** What a successful call of [matrix] needs *)

Lemma mass_matrix_cells g k mass :
  mass_matrix g k = Ok mass -> (1 <= num_cells g)%nat.
Proof.
  unfold mass_matrix. destruct (num_cells g) as [|n]; [|lia].
  simpl. case_decide; discriminate.
Qed.

Lemma cell_block_ok_inv g k fs c faces A :
  cell_block g k fs c = Ok (faces, A) ->
  exists L, local g k fs c = Ok L /\ consistent (dim g) L = true /\
            faces_loc L = faces /\
            is_ok (inv (G L)) /\ is_ok (inv (K L)).
Proof.
  intros H. pose proof H as H'. unfold cell_block in H'.
  apply bind_ok in H' as (L & HL & H').
  destruct (consistent (dim g) L) eqn:Hc; [|discriminate].
  apply bind_ok in H' as (A' & _ & H'). injection H' as Hf _.
  destruct (cell_block_entries g k fs c faces A H)
    as (L' & Ginv & Kinv & HL' & _ & HG & HK & _).
  rewrite HL in HL'. injection HL' as <-.
  exists L. repeat split; try done; by eexists.
Qed.

Lemma mass_matrix_faces g k mass c faces A f :
  mass_matrix g k = Ok mass -> (c < num_cells g)%nat ->
  cell_block g k (find (cell_faces g) (num_cells g)) c = Ok (faces, A) ->
  f ∈ faces -> (f < fst (shape mass))%nat.
Proof.
  intros Hmass Hc Hblk Hf.
  destruct (mass_matrix_lookup g k mass Hmass) as (blks & Hall & Hlk).
  destruct (blocks_lookup g k blks c Hall Hc) as (blk & Hblk' & Hcb & _).
  rewrite Hblk in Hcb. injection Hcb as <-.
  apply (mass_matrix_keys g k mass f f Hmass).
  rewrite Hlk, decide_True; [done|].
  apply Exists_exists. exists (faces, A). split; [|done].
  apply list_elem_of_lookup. by exists c.
Qed.

(** [matrix] returns a matrix only for a grid of dimension 1, 2 or 3 with
    at least one cell, on which every cell passes the consistency check,
    has invertible matrices [G] and [K], and has faces below [num_faces]. *)
Theorem matrix_requires {BC : Type} (g : grid) (k : second_order_tensor)
    (bc : option BC) (M : sparse) :
  matrix g k bc = Ok M ->
  (1 <= num_cells g)%nat /\ (1 <= dim g <= 3)%nat /\
  forall c, (c < num_cells g)%nat ->
    exists L,
      local g k (find (cell_faces g) (num_cells g)) c = Ok L /\
      consistent (dim g) L = true /\
      is_ok (inv (G L)) /\ is_ok (inv (K L)) /\
      Forall (fun f => (f < num_faces g)%nat) (faces_loc L).
Proof.
  intros HM.
  destruct (matrix_ok g k bc M HM) as (mass & Hmass & Hshape & _ & _).
  pose proof (mass_matrix_cells g k mass Hmass) as Hnc.
  destruct (mass_matrix_lookup g k mass Hmass) as (blks & Hall & _).
  assert (Hcells : forall c, (c < num_cells g)%nat ->
    exists L,
      local g k (find (cell_faces g) (num_cells g)) c = Ok L /\
      consistent (dim g) L = true /\
      is_ok (inv (G L)) /\ is_ok (inv (K L)) /\
      Forall (fun f => (f < num_faces g)%nat) (faces_loc L)).
  { intros c Hc.
    destruct (blocks_lookup g k blks c Hall Hc) as ([faces A] & _ & Hcb & _).
    destruct (cell_block_ok_inv g k _ c faces A Hcb)
      as (L & HL & Hcons & Hfaces & HG & HK).
    exists L. repeat split; try done.
    apply Forall_forall. intros f Hf. rewrite Hfaces in Hf.
    pose proof (mass_matrix_faces g k mass c faces A f Hmass Hc Hcb Hf) as Hlt.
    by rewrite Hshape in Hlt. }
  split; [done|]. split; [|done].
  destruct (Hcells 0%nat ltac:(lia)) as (L & HL & _).
  by destruct (local_inv g k _ 0 L HL) as (?&?&?&?&_&_&_&_&_&?&_).
Qed.

Lemma matrix_requires_witness :
  exists M,
    matrix Examples.line2 Examples.unit_perm2 (@None unit) = Ok M /\
    (1 <= dim Examples.line2 <= 3)%nat.
Proof.
  destruct (matrix Examples.line2 Examples.unit_perm2 (@None unit))
    as [M|e] eqn:HM; [|vm_compute in HM; discriminate].
  exists M. split; [reflexivity|].
  exact (proj1 (proj2 (matrix_requires _ _ _ M HM))).
Defined.



(** ** The projected velocity *)

Lemma gauss_jordan_length cols done todo rows :
  gauss_jordan cols done todo = Ok rows ->
  length rows = (length done + length cols)%nat.
Proof.
  revert done todo. induction cols as [|j cols IH]; intros done todo H.
  - simpl in H. injection H as <-. simpl. lia.
  - simpl in H. destruct (find_pivot j todo) as [[p rest]|]; [|discriminate].
    apply IH in H. rewrite H, length_app, length_map. simpl. lia.
Qed.

Lemma inv_length M N : inv M = Ok N -> length N = length M.
Proof.
  unfold inv. intros H. apply bind_ok in H as (rows & Hrows & H).
  injection H as <-. apply gauss_jordan_length in Hrows.
  rewrite length_map, Hrows, length_seq. done.
Qed.

Lemma Pi_s_length g k fs c L Pi :
  local g k fs c = Ok L -> Pi_s L = Ok Pi -> length Pi = dim g.
Proof.
  intros HL H. unfold Pi_s in H. apply bind_ok in H as (Ginv & HG & H).
  injection H as <-. rewrite length_mmul, (inv_length _ _ HG).
  apply (local_length_G g k fs c L HL).
Qed.

Lemma project_cell_ok_inv g k fs u c col :
  project_cell g k fs u c = Ok col ->
  exists L Pi u_loc,
    local g k fs c = Ok L /\ consistent (dim g) L = true /\
    Pi_s L = Ok Pi /\ mapM (index u) (faces_loc L) = Ok u_loc /\
    col = take 3 (map (fun x => x / diam L) (mv Pi u_loc) ++ [0; 0; 0]).
Proof.
  unfold project_cell. intros H. apply bind_ok in H as (L & HL & H).
  destruct (consistent (dim g) L) eqn:Hc; [|discriminate].
  apply bind_ok in H as (Pi & HPi & H). apply bind_ok in H as (ul & Hul & H).
  injection H as <-. by exists L, Pi, ul.
Qed.

(** [projectU] returns one column of three entries per cell; the entries
    from [g.dim] on are zero. *)
Theorem projectU_shape (g : grid) (k : second_order_tensor) (u : vec)
    (P : list vec) :
  projectU g k u = Ok P ->
  length P = num_cells g /\
  forall c col, P !! c = Some col ->
    length col = 3%nat /\
    forall i, (dim g <= i < 3)%nat -> col !! i = Some 0.
Proof.
  unfold projectU. intros H. split.
  - apply mapM_length in H. by rewrite H, length_seq.
  - intros c col Hcol. apply mapM_ok in H.
    destruct (Forall2_lookup_r _ _ _ _ _ H Hcol) as (c' & _ & Hc).
    apply project_cell_ok_inv in Hc
      as (L & Pi & ul & HL & _ & HPi & _ & ->).
    pose proof (Pi_s_length g k _ c' L Pi HL HPi) as Hlen.
    assert (Hd : (1 <= dim g <= 3)%nat).
    { by destruct (local_inv g k _ c' L HL) as (?&?&?&?&_&_&_&_&_&?&_). }
    set (v := map (fun x => x / diam L) (mv Pi ul)).
    assert (Hv : length v = dim g).
    { unfold v, mv. by rewrite !length_map. }
    split.
    + rewrite length_take, length_app, Hv. cbn [length]. lia.
    + intros i Hi. rewrite lookup_take_lt by lia.
      rewrite lookup_app_r by lia. rewrite Hv.
      destruct (i - dim g)%nat as [|[|[|?]]] eqn:E; simpl; try done. lia.
Qed.

Lemma projectU_shape_witness :
  exists P col,
    projectU Examples.line2 Examples.unit_perm2 [1; 1; 1] = Ok P /\
    P !! 0%nat = Some col /\ col !! 1%nat = Some 0 /\ col !! 2%nat = Some 0.
Proof.
  destruct (projectU Examples.line2 Examples.unit_perm2 [1; 1; 1])
    as [P|e] eqn:HP; [|vm_compute in HP; discriminate].
  destruct (projectU_shape _ _ _ P HP) as [Hlen Hcols].
  destruct (P !! 0%nat) as [col|] eqn:Hcol.
  2:{ apply lookup_ge_None in Hcol. rewrite Hlen in Hcol. simpl in Hcol. lia. }
  exists P, col. split; [reflexivity|]. split; [exact Hcol|].
  destruct (Hcols 0%nat col Hcol) as [_ Hz].
  split; apply Hz; simpl; lia.
Defined.

(** After a successful call of [matrix], [projectU] returns a field for
    every velocity vector that has an entry for every face. *)
Theorem projectU_after_matrix {BC : Type} (g : grid)
    (k : second_order_tensor) (bc : option BC) (M : sparse) (u : vec) :
  matrix g k bc = Ok M ->
  (num_faces g <= length u)%nat ->
  is_ok (projectU g k u).
Proof.
  intros HM Hu.
  destruct (matrix_ok g k bc M HM) as (mass & Hmass & Hshape & _ & _).
  destruct (mass_matrix_lookup g k mass Hmass) as (blks & Hall & _).
  unfold projectU.
  assert (Hcell : forall c, c ∈ seq 0 (num_cells g) ->
            is_ok (project_cell g k (find (cell_faces g) (num_cells g)) u c)).
  { intros c Hc. apply elem_of_seq in Hc as [_ Hc]. simpl in Hc.
    destruct (blocks_lookup g k blks c Hall Hc) as ([faces A] & _ & Hcb & _).
    destruct (cell_block_ok_inv g k _ c faces A Hcb)
      as (L & HL & Hcons & Hfaces & [Ginv HG] & _).
    unfold project_cell. rewrite HL. simpl. rewrite Hcons.
    unfold Pi_s. rewrite HG. simpl.
    destruct (mapM (index u) (faces_loc L)) as [ul|e] eqn:Hul; [by eexists|].
    apply mapM_raise in Hul as (f & Hf & Hidx).
    apply index_raise in Hidx as [_ Hge]. rewrite Hfaces in Hf.
    pose proof (mass_matrix_faces g k mass c faces A f Hmass Hc Hcb Hf) as Hlt.
    rewrite Hshape in Hlt. simpl in Hlt. lia. }
  destruct (mapM _ (seq 0 (num_cells g))) as [P|e] eqn:HP; [by eexists|].
  apply mapM_raise in HP as (c & Hc & He).
  destruct (Hcell c Hc) as [col Hcol]. congruence.
Qed.

Lemma projectU_after_matrix_witness :
  is_ok (projectU Examples.line2 Examples.unit_perm2 [1; 1; 1]).
Proof.
  destruct (matrix Examples.line2 Examples.unit_perm2 (@None unit))
    as [M|e] eqn:HM; [|vm_compute in HM; discriminate].
  apply (projectU_after_matrix Examples.line2 Examples.unit_perm2 None M
           [1; 1; 1] HM).
  simpl. lia.
Defined.

Section ProjectLinear.

Variables a b : Qc.
Let h (x y : Qc) : Qc := a * x + b * y.

Lemma vdot_linear (r ul vl : vec) :
  length ul = length vl ->
  vdot r (zip_with h ul vl) = h (vdot r ul) (vdot r vl).
Proof.
  unfold vdot, h. revert ul vl.
  induction r as [|x r IH]; intros [|y ul] [|z vl] Hlen;
    simpl in *; try discriminate; try ring.
  rewrite IH by lia. ring.
Qed.

Lemma index_zip_with (u v : vec) (faces : list nat) (ul vl : vec) :
  mapM (index u) faces = Ok ul -> mapM (index v) faces = Ok vl ->
  mapM (index (zip_with h u v)) faces = Ok (zip_with h ul vl).
Proof.
  revert ul vl. induction faces as [|f faces IH]; intros ul vl Hu Hv.
  - simpl in *. injection Hu as <-. injection Hv as <-. done.
  - simpl in Hu, Hv.
    apply bind_ok in Hu as (x & Hx & Hu). apply bind_ok in Hu as (ul' & Hul & Hu).
    apply bind_ok in Hv as (y & Hy & Hv). apply bind_ok in Hv as (vl' & Hvl & Hv).
    injection Hu as <-. injection Hv as <-.
    simpl. rewrite (IH ul' vl' Hul Hvl).
    apply index_ok in Hx, Hy.
    assert (Hxy : index (zip_with h u v) f = Ok (h x y)).
    { apply index_ok. by rewrite lookup_zip_with, Hx; simpl; rewrite Hy. }
    by rewrite Hxy.
Qed.

Lemma project_cell_linear g k fs u v c p q :
  project_cell g k fs u c = Ok p -> project_cell g k fs v c = Ok q ->
  project_cell g k fs (zip_with h u v) c = Ok (zip_with h p q).
Proof.
  intros Hp Hq.
  apply project_cell_ok_inv in Hp as (L & Pi & ul & HL & Hc & HPi & Hul & ->).
  apply project_cell_ok_inv in Hq as (L' & Pi' & vl & HL' & _ & HPi' & Hvl & ->).
  rewrite HL in HL'. injection HL' as <-.
  rewrite HPi in HPi'. injection HPi' as <-.
  unfold project_cell. rewrite HL. simpl. rewrite Hc, HPi. simpl.
  rewrite (index_zip_with u v _ ul vl Hul Hvl). simpl. f_equal.
  assert (Hlen : length ul = length vl).
  { apply mapM_length in Hul, Hvl. congruence. }
  rewrite <- zip_with_take.
  rewrite zip_with_app by (unfold mv; by rewrite !length_map).
  f_equal. f_equal.
  - unfold mv. rewrite !map_map.
    generalize Pi as rows. intros rows.
    induction rows as [|r rows IH]; simpl; [done|].
    rewrite IH, (vdot_linear r ul vl Hlen). f_equal.
    unfold h, Qcdiv. ring.
  - simpl. unfold h. repeat f_equal; ring.
Qed.

End ProjectLinear.

(** [projectU] is linear in the velocity: the field of a linear
    combination of two velocity vectors is the combination of their
    fields. *)
Theorem projectU_linear (g : grid) (k : second_order_tensor) (a b : Qc)
    (u v : vec) (P Q : list vec) :
  projectU g k u = Ok P -> projectU g k v = Ok Q ->
  projectU g k (zip_with (fun x y => a * x + b * y) u v) =
  Ok (zip_with (zip_with (fun x y => a * x + b * y)) P Q).
Proof.
  unfold projectU. intros HP HQ. apply mapM_Forall2.
  apply mapM_ok in HP, HQ.
  apply Forall2_same_length_lookup_2.
  - rewrite length_zip_with.
    rewrite <- (Forall2_length _ _ _ HP), <- (Forall2_length _ _ _ HQ). lia.
  - intros c c' col Hc Hcol.
    apply lookup_zip_with_Some in Hcol as (p & q & -> & Hp & Hq).
    destruct (Forall2_lookup_l _ _ _ _ _ HP Hc) as (p' & Hp' & Hcp).
    destruct (Forall2_lookup_l _ _ _ _ _ HQ Hc) as (q' & Hq' & Hcq).
    rewrite Hp in Hp'. injection Hp' as <-.
    rewrite Hq in Hq'. injection Hq' as <-.
    by apply project_cell_linear.
Qed.

Lemma projectU_linear_witness :
  exists P Q,
    projectU Examples.line2 Examples.unit_perm2 [1; 1; 1] = Ok P /\
    projectU Examples.line2 Examples.unit_perm2 [0; 1; 0] = Ok Q /\
    projectU Examples.line2 Examples.unit_perm2
      (zip_with (fun x y => 1 * x + 1 * y) [1; 1; 1] [0; 1; 0]) =
    Ok (zip_with (zip_with (fun x y => 1 * x + 1 * y)) P Q).
Proof.
  destruct (projectU Examples.line2 Examples.unit_perm2 [1; 1; 1])
    as [P|e] eqn:HP; [|vm_compute in HP; discriminate].
  destruct (projectU Examples.line2 Examples.unit_perm2 [0; 1; 0])
    as [Q|e] eqn:HQ; [|vm_compute in HQ; discriminate].
  exists P, Q. split; [reflexivity|]. split; [reflexivity|].
  exact (projectU_linear _ _ 1 1 _ _ P Q HP HQ).
Defined.

(** ** The stored entries of the matrix *)

(** Two faces are coupled in the mass block exactly when they are faces of
    a common cell: the entry at a pair of face indices is stored if and
    only if some cell has both faces. *)
Theorem mass_block_pattern {BC : Type} (g : grid) (k : second_order_tensor)
    (bc : option BC) (M : sparse) (i j : nat) :
  matrix g k bc = Ok M ->
  (i < num_faces g)%nat -> (j < num_faces g)%nat ->
  is_Some (entries M !! (i, j)) <->
  exists c faces A,
    (c < num_cells g)%nat /\
    cell_block g k (find (cell_faces g) (num_cells g)) c = Ok (faces, A) /\
    i ∈ faces /\ j ∈ faces.
Proof.
  intros HM Hi Hj.
  destruct (matrix_mass_block g k bc M HM i j Hi Hj) as (mass & Hmass & ->).
  destruct (mass_matrix_lookup g k mass Hmass) as (blks & Hall & Hlk).
  rewrite Hlk. split.
  - intros Hs. case_decide as Hex; [|by destruct Hs].
    apply Exists_exists in Hex as ([faces A] & Hin & Hi' & Hj').
    apply list_elem_of_lookup in Hin as [c Hc].
    destruct (Forall2_lookup_r _ _ _ _ _ Hall Hc) as (c' & Hc' & Hcb).
    apply lookup_seq in Hc' as [-> Hlt]. simpl in Hcb.
    by exists c, faces, A.
  - intros (c & faces & A & Hc & Hcb & Hi' & Hj').
    destruct (blocks_lookup g k blks c Hall Hc) as (blk & Hblk & Hcb' & _).
    rewrite Hcb in Hcb'. injection Hcb' as <-.
    rewrite decide_True; [done|].
    apply Exists_exists. exists (faces, A). split; [|done].
    apply list_elem_of_lookup. by exists c.
Qed.

Lemma mass_block_pattern_witness :
  exists M,
    matrix Examples.line2 Examples.unit_perm2 (@None unit) = Ok M /\
    ~ is_Some (entries M !! (0%nat, 2%nat)).
Proof.
  destruct (matrix Examples.line2 Examples.unit_perm2 (@None unit))
    as [M|e] eqn:HM; [|vm_compute in HM; discriminate].
  exists M. split; [reflexivity|].
  intros Hs.
  apply (mass_block_pattern Examples.line2 Examples.unit_perm2 None M 0 2 HM)
    in Hs as (c & faces & A & Hc & Hcb & H0 & H2); [|simpl; lia..].
  simpl in Hc.
  destruct c as [|[|c]]; [| |lia]; vm_compute in Hcb;
    injection Hcb as <- _.
  - apply list_elem_of_In in H2. simpl in H2. intuition discriminate.
  - apply list_elem_of_In in H0. simpl in H0. intuition discriminate.
Defined.

Lemma tocoo_columns {V : Type} (A : csc V) (ncols : nat) t :
  t ∈ tocoo A ncols -> (snd (fst t) < ncols)%nat.
Proof.
  unfold tocoo. intros Hin.
  apply list_elem_of_In, in_flat_map in Hin as (c & Hc & Hin).
  apply in_map_iff in Hin as (e & <- & _). simpl.
  apply in_seq in Hc. lia.
Qed.

Lemma incidence_columns (g : grid) f c :
  is_Some (coo_sum (tocoo (cell_faces g) (num_cells g)) !! (f, c)) ->
  (c < num_cells g)%nat.
Proof.
  intros Hs. rewrite coo_sum_lookup in Hs.
  case_decide as Hex; [|by destruct Hs].
  apply Exists_exists in Hex as (t & Hin & Hkey).
  apply tocoo_columns in Hin. by rewrite Hkey in Hin.
Qed.

Section WholeMatrix.

Context {BC : Type}.
Variables (g : grid) (k : second_order_tensor) (bc : option BC) (M : sparse).
Hypothesis HM : matrix g k bc = Ok M.
Hypothesis Hrows : rows_in_range g.
Let nf := num_faces g.
Let nc := num_cells g.

Lemma split_index (i : nat) :
  (i < nf)%nat \/ exists c, i = (nf + c)%nat.
Proof.
  destruct (decide (i < nf)%nat) as [?|Hge]; [by left|].
  right. exists (i - nf)%nat. lia.
Qed.

Lemma matrix_entries_sym :
  (forall c, (c < nc)%nat -> symmetric_perm k c) ->
  forall i j, entries M !! (i, j) = entries M !! (j, i).
Proof.
  intros Hsym i j.
  destruct (split_index i) as [Hi|[ci ->]], (split_index j) as [Hj|[cj ->]].
  - destruct (matrix_mass_block g k bc M HM i j Hi Hj) as (m1 & Hm1 & ->).
    destruct (matrix_mass_block g k bc M HM j i Hj Hi) as (m2 & Hm2 & ->).
    rewrite Hm1 in Hm2. injection Hm2 as <-.
    by apply (mass_matrix_sym g k).
  - by rewrite (matrix_divT_block g k bc M HM), (matrix_div_block g k bc M HM).
  - by rewrite (matrix_divT_block g k bc M HM), (matrix_div_block g k bc M HM).
  - by rewrite !(matrix_pressure_block g k bc M HM).
Qed.

Lemma matrix_entries_bounded i j :
  is_Some (entries M !! (i, j)) -> (i < nf + nc)%nat /\ (j < nf + nc)%nat.
Proof.
  destruct (split_index i) as [Hi|[ci ->]], (split_index j) as [Hj|[cj ->]].
  - intros _. lia.
  - rewrite (matrix_divT_block g k bc M HM) by done.
    rewrite fmap_is_Some. intros Hs%incidence_columns. fold nc in Hs. lia.
  - rewrite (matrix_div_block g k bc M HM) by done.
    rewrite fmap_is_Some. intros Hs%incidence_columns. fold nc in Hs. lia.
  - rewrite (matrix_pressure_block g k bc M HM) by done.
    by intros [? ?].
Qed.

End WholeMatrix.

(** The matrix returned by [matrix] is symmetric as a whole, and stores no
    entry outside its shape, when the stored row indices of the incidence
    matrix are face indices and every permeability is symmetric. *)
Theorem matrix_symmetric {BC : Type} (g : grid) (k : second_order_tensor)
    (bc : option BC) (M : sparse) :
  matrix g k bc = Ok M ->
  rows_in_range g ->
  (forall c, (c < num_cells g)%nat -> symmetric_perm k c) ->
  (forall i j, entries M !! (i, j) = entries M !! (j, i)) /\
  (forall i j, is_Some (entries M !! (i, j)) ->
     (i < fst (shape M))%nat /\ (j < snd (shape M))%nat).
Proof.
  intros HM Hrows Hsym. split.
  - by apply (matrix_entries_sym g k bc M HM Hrows).
  - intros i j Hs.
    destruct (matrix_ok g k bc M HM) as (_ & _ & _ & -> & _). simpl.
    by apply (matrix_entries_bounded g k bc M HM Hrows).
Qed.

Lemma matrix_symmetric_witness :
  exists M,
    matrix Examples.line2 Examples.unit_perm2 (@None unit) = Ok M /\
    entries M !! (1%nat, 4%nat) = entries M !! (4%nat, 1%nat).
Proof.
  destruct (matrix Examples.line2 Examples.unit_perm2 (@None unit))
    as [M|e] eqn:HM; [|vm_compute in HM; discriminate].
  exists M. split; [reflexivity|].
  apply (matrix_symmetric Examples.line2 Examples.unit_perm2 None M HM
           rows_in_range_line2 (fun c _ => symmetric_unit_perm2 c)).
Defined.

(** ** The order of the cells *)

Lemma assemble_mapM g k fs cells acc :
  assemble g k fs cells acc =
  do blks <- mapM (cell_block g k fs) cells;
  Ok (fst (fst acc) ++ flat_map (fun blk => rows_idx (fst blk)) blks,
      snd (fst acc) ++ flat_map (fun blk => cols_idx (fst blk)) blks,
      snd acc ++ flat_map (fun blk => ravel (snd blk)) blks).
Proof.
  revert acc. induction cells as [|c cells IH]; intros [[bI bJ] bdata]; simpl.
  - by rewrite !app_nil_r.
  - destruct (cell_block g k fs c) as [blk|e]; simpl; [|done].
    rewrite IH. simpl.
    destruct (mapM (cell_block g k fs) cells) as [blks|e]; simpl; [|done].
    by rewrite !app_assoc.
Qed.

Lemma vsum_Permutation (u v : vec) : Permutation u v -> vsum u = vsum v.
Proof.
  induction 1 as [|x u v _ IH|x y u|u v w _ IH1 _ IH2]; simpl.
  - done.
  - by rewrite IH.
  - ring.
  - by rewrite IH1.
Qed.

Lemma coo_sum_Permutation (ts1 ts2 : list triplet) :
  Permutation ts1 ts2 -> coo_sum ts1 = coo_sum ts2.
Proof.
  intros Hp. apply map_eq. intros key. rewrite !coo_sum_lookup.
  unfold ksum. rewrite (vsum_Permutation _ _ (Permutation_map (at_key key) Hp)).
  apply decide_ext. rewrite !Exists_exists.
  split; intros (t & Hin & Hk); exists t; (split; [|done]).
  - by rewrite <- Hp.
  - by rewrite Hp.
Qed.

Lemma mapM_Permutation {A B : Type} (f : A -> res B) (l1 l2 : list A) bs1 :
  Permutation l1 l2 -> mapM f l1 = Ok bs1 ->
  exists bs2, mapM f l2 = Ok bs2 /\ Permutation bs1 bs2.
Proof.
  intros Hp. revert bs1.
  induction Hp as [|x l1 l2 _ IH|x y l|l1 l2 l3 _ IH1 _ IH2]; intros bs1 H.
  - simpl in H. injection H as <-. by exists [].
  - simpl in H. apply bind_ok in H as (b & Hb & H).
    apply bind_ok in H as (bs & Hbs & H). injection H as <-.
    destruct (IH bs Hbs) as (bs2 & H2 & Hp2).
    exists (b :: bs2). simpl. rewrite Hb, H2. simpl. split; [done|].
    by constructor.
  - simpl in H. apply bind_ok in H as (b & Hb & H).
    apply bind_ok in H as (bs & Hbs & H). injection H as <-.
    apply bind_ok in Hbs as (b' & Hb' & Hbs).
    apply bind_ok in Hbs as (bs' & Hbs' & Hbs). injection Hbs as <-.
    exists (b' :: b :: bs'). simpl. rewrite Hb', Hb, Hbs'. simpl.
    split; [done|]. constructor.
  - destruct (IH1 bs1 H) as (bs2 & H2 & Hp2).
    destruct (IH2 bs2 H2) as (bs3 & H3 & Hp3).
    exists bs3. split; [done|]. by etrans.
Qed.

(** The assembled matrix does not depend on the order in which the loop
    visits the cells: if the loop runs through for one order, it runs
    through for every other order, and the entries that [coo_matrix] makes
    of the buffers are the same. *)
Theorem assembly_order_irrelevant (g : grid) (k : second_order_tensor)
    (fs : list triplet) (cells1 cells2 : list nat)
    (bI bJ : list nat) (bdata : vec) :
  Permutation cells1 cells2 ->
  assemble g k fs cells1 ([], [], []) = Ok (bI, bJ, bdata) ->
  exists bI' bJ' bdata',
    assemble g k fs cells2 ([], [], []) = Ok (bI', bJ', bdata') /\
    coo_sum (zip (zip bI' bJ') bdata') = coo_sum (zip (zip bI bJ) bdata).
Proof.
  intros Hp H. rewrite assemble_mapM in H |- *.
  apply bind_ok in H as (blks1 & H1 & H). simpl in H. injection H as <- <- <-.
  destruct (mapM_Permutation _ _ _ _ Hp H1) as (blks2 & H2 & Hp2).
  rewrite H2. simpl. do 3 eexists. split; [done|].
  assert (Hsq : forall cells blks, mapM (cell_block g k fs) cells = Ok blks ->
                  Forall square_block blks).
  { intros cells blks Hm. apply mapM_ok in Hm. apply Forall_forall.
    intros blk Hin. apply list_elem_of_lookup in Hin as [c Hc].
    destruct (Forall2_lookup_r _ _ _ _ _ Hm Hc) as (c' & _ & Hblk).
    by eapply cell_block_square. }
  rewrite !zip_blocks by eauto.
  apply coo_sum_Permutation. symmetry.
  by apply Permutation_flat_map.
Qed.

Lemma assembly_order_irrelevant_witness :
  exists bI bJ bdata bI' bJ' bdata',
    assemble Examples.line2 Examples.unit_perm2
      (find (cell_faces Examples.line2) 2) [0; 1]%nat ([], [], [])
      = Ok (bI, bJ, bdata) /\
    assemble Examples.line2 Examples.unit_perm2
      (find (cell_faces Examples.line2) 2) [1; 0]%nat ([], [], [])
      = Ok (bI', bJ', bdata') /\
    coo_sum (zip (zip bI' bJ') bdata') = coo_sum (zip (zip bI bJ) bdata).
Proof.
  destruct (assemble Examples.line2 Examples.unit_perm2
      (find (cell_faces Examples.line2) 2) [0; 1]%nat ([], [], []))
    as [[[bI bJ] bdata]|e] eqn:H; [|vm_compute in H; discriminate].
  destruct (assembly_order_irrelevant Examples.line2 Examples.unit_perm2
              _ [0; 1]%nat [1; 0]%nat bI bJ bdata
              (perm_swap 1%nat 0%nat []) H)
    as (bI' & bJ' & bdata' & H' & Heq).
  exists bI, bJ, bdata, bI', bJ', bdata'. split; [reflexivity|].
  split; [exact H'|exact Heq].
Defined.

(** * Further properties of [meshing.py] *)

(** ** The number of nodes of a face *)

(** For a tensor grid whose name names no simplex grid, a face has
    [2 ^ (dim - 1)] nodes in the dimensions 1, 2 and 3; in any other
    dimension [nodes_per_face] raises [ValueError]. *)
Theorem nodes_per_face_tensor (g : grid) :
  is_tensor g = true ->
  contains "TetrahedralGrid" (name g) = false ->
  contains "TriangleGrid" (name g) = false ->
  nodes_per_face g =
  if decide (1 <= dim g <= 3)%nat then Ok (2 ^ (dim g - 1))%nat
  else Raise ValueError.
Proof.
  intros Ht Htet Htri. unfold nodes_per_face. rewrite Ht, Htet, Htri. simpl.
  destruct (dim g) as [|[|[|[|d]]]]; simpl; try reflexivity.
Qed.

Lemma nodes_per_face_tensor_witness :
  nodes_per_face Examples.cube8 = Ok 4%nat.
Proof.
  exact (nodes_per_face_tensor Examples.cube8 eq_refl eq_refl eq_refl).
Defined.

(** [nodes_per_face] gives 1, 2, 3 or 4, and raises nothing but
    [ValueError], which it raises for every grid whose name holds none of
    the four grid names. *)
Theorem nodes_per_face_range (g : grid) :
  (forall n, nodes_per_face g = Ok n -> (1 <= n <= 4)%nat) /\
  (forall e, nodes_per_face g = Raise e -> e = ValueError) /\
  (is_tensor g = false ->
   contains "TetrahedralGrid" (name g) = false ->
   contains "TriangleGrid" (name g) = false ->
   nodes_per_face g = Raise ValueError).
Proof.
  unfold nodes_per_face. split; [|split].
  - intros n H. repeat (destruct (_ : bool) in H; [injection H as <-; lia|]).
    discriminate.
  - intros e H.
    repeat (destruct (_ : bool) in H; [discriminate|]). by injection H as <-.
  - intros -> -> ->. reflexivity.
Qed.

(** ** The loops of [tag_faces] *)

Section TagLoops.

Lemma tag_lower_frame bnd g g' :
  tag_lower bnd g = Ok g' -> g' = with_face_tags g (face_tags g').
Proof.
  unfold tag_lower. intros H. apply bind_ok in H as (flags & _ & H).
  apply bind_ok in H as (g1 & Hg1 & Hg').
  apply add_face_tag_ok in Hg1 as [-> _].
  apply add_face_tag_ok in Hg' as [-> _]. done.
Qed.



Lemma tag_from_ok g_h mid r :
  tag_from g_h mid = Ok r ->
  exists bnd,
    add_face_tag g_h (boundary_faces g_h) DOMAIN_BOUNDARY = Ok (fst r) /\
    bnd_nodes_of g_h = Ok bnd /\
    mapM (mapM (tag_lower bnd)) mid = Ok (snd r).
Proof.
  unfold tag_from. intros H. apply bind_ok in H as (g_h' & Hg & H).
  apply bind_ok in H as (bnd & Hbnd & H). apply bind_ok in H as (mid' & Hmid & H).
  injection H as <-. by exists bnd.
Qed.

Lemma tag_loop_top top mid r :
  tag_loop top mid = Ok r ->
  Forall2 (fun g g' =>
             add_face_tag g (boundary_faces g) DOMAIN_BOUNDARY = Ok g')
          top (fst r).
Proof.
  revert mid r. induction top as [|g_h top IH]; intros mid r H; simpl in H.
  - injection H as <-. constructor.
  - apply bind_ok in H as (r0 & H0 & H). apply bind_ok in H as (r1 & H1 & H).
    injection H as <-. simpl.
    apply tag_from_ok in H0 as (bnd & Hg & _ & _).
    constructor; [done|]. by eapply IH.
Qed.

Lemma tag_loop_length top mid r :
  tag_loop top mid = Ok r -> length (snd r) = length mid.
Proof.
  revert mid r. induction top as [|g_h top IH]; intros mid r H; simpl in H.
  - by injection H as <-.
  - apply bind_ok in H as (r0 & H0 & H). apply bind_ok in H as (r1 & H1 & H).
    injection H as <-. simpl.
    apply tag_from_ok in H0 as (bnd & _ & _ & Hmid).
    apply mapM_length in Hmid. apply IH in H1. congruence.
Qed.


Lemma tag_faces_ok grids chk grids' :
  tag_faces grids chk = Ok grids' ->
  exists grids1 top r,
    mapM (mapM reset_domain_boundary) grids = Ok grids1 /\
    grids1 !! 0%nat = Some top /\
    (chk = true -> length top = 1%nat) /\
    tag_loop top (slice 1 (length grids1 - 1) grids1) = Ok r /\
    grids' = fst r :: snd r ++ drop (1 + (length grids1 - 2)) grids1.
Proof.
  unfold tag_faces. intros H. apply bind_ok in H as (grids1 & Hreset & H).
  apply bind_ok in H as (top & Htop & H). apply index_ok in Htop.
  destruct (andb chk (negb (length top =? 1)%nat)) eqn:Hchk; [discriminate|].
  apply bind_ok in H as (r & Hloop & H). injection H as <-.
  exists grids1, top, r. repeat split; try done.
  - intros ->. simpl in Hchk. apply negb_false_iff, Nat.eqb_eq in Hchk. done.
  - do 3 f_equal. unfold slice. rewrite length_take, length_drop. lia.
Qed.




End TagLoops.

(** ** The passes over one grid *)

Section TagPasses.

Lemma tag_passes_frame top g g' :
  tag_passes top g = Ok g' -> g' = with_face_tags g (face_tags g').
Proof.
  revert g. induction top as [|g_h top IH]; intros g H; simpl in H.
  - injection H as <-. by destruct g.
  - apply bind_ok in H as (bnd & _ & H). apply bind_ok in H as (g1 & Hg1 & H).
    apply IH in H. apply tag_lower_frame in Hg1.
    rewrite H. rewrite Hg1 at 1. done.
Qed.



End TagPasses.





(** On every grid of the highest dimension, the faces that carry
    DOMAIN_BOUNDARY after [tag_faces] are the boundary faces of the grid;
    the other tags are as before. *)
Theorem tag_faces_top_grid (grids grids' : list (list grid)) (chk : bool)
    (top : list grid) (i : nat) (g_h : grid) :
  tag_faces grids chk = Ok grids' ->
  grids !! 0%nat = Some top -> top !! i = Some g_h ->
  exists top' g_h',
    grids' !! 0%nat = Some top' /\ top' !! i = Some g_h' /\
    g_h' = with_face_tags g_h (face_tags g_h') /\
    forall f,
      face_tags g_h' !! f =
      set_tag DOMAIN_BOUNDARY (bool_decide (f ∈ boundary_faces g_h))
        <$> face_tags g_h !! f.
Proof.
  intros Hrun Htop Hi.
  apply tag_faces_ok in Hrun
    as (grids1 & top1 & r & Hreset & Htop1 & _ & Hloop & ->).
  destruct (mapM_lookup _ _ _ _ _ Hreset Htop) as (top1' & Htop1' & Hmtop).
  rewrite Htop1 in Htop1'. injection Htop1' as <-.
  destruct (mapM_lookup _ _ _ _ _ Hmtop Hi) as (g1 & Hg1 & Hr1).
  pose proof (tag_loop_top _ _ _ Hloop) as Htops.
  destruct (Forall2_lookup_l _ _ _ _ _ Htops Hg1) as (g_h' & Hg_h' & Hadd).
  exists (fst r), g_h'. split; [done|]. split; [done|].
  apply reset_domain_boundary_ok in Hr1. subst g1.
  split.
  - apply add_face_tag_ok in Hadd as [-> _]. done.
  - intros f. rewrite (add_face_tag_lookup _ _ _ _ f Hadd). simpl.
    rewrite list_lookup_fmap. destruct (face_tags g_h !! f) as [t|]; [|done].
    simpl. f_equal. case_bool_decide; by destruct t.
Qed.

Lemma tag_faces_top_grid_witness :
  exists grids' top' g_h',
    tag_faces Examples.fractured_cube true = Ok grids' /\
    grids' !! 0%nat = Some top' /\ top' !! 0%nat = Some g_h' /\
    face_tags g_h' !! 1%nat =
      set_tag DOMAIN_BOUNDARY
        (bool_decide (1%nat ∈ boundary_faces Examples.cube8))
        <$> face_tags Examples.cube8 !! 1%nat.
Proof.
  destruct (tag_faces Examples.fractured_cube true) as [grids'|e] eqn:Hrun;
    [|vm_compute in Hrun; discriminate].
  destruct (tag_faces_top_grid Examples.fractured_cube grids' true
              (Examples.cube8 :: nil) 0 Examples.cube8 Hrun eq_refl eq_refl)
    as (top' & g_h' & Htop' & Hg' & _ & Htags).
  exists grids', top', g_h'. repeat split; try done.
Defined.

(** The grids of the lowest dimension get no tag: [tag_faces] only takes
    DOMAIN_BOUNDARY away from their faces. *)
Theorem tag_faces_lowest (grids grids' : list (list grid)) (chk : bool)
    (j : nat) (gs : list grid) (g : grid) :
  tag_faces grids chk = Ok grids' ->
  (2 <= length grids)%nat ->
  grids !! (length grids - 1)%nat = Some gs -> gs !! j = Some g ->
  exists gs',
    grids' !! (length grids - 1)%nat = Some gs' /\
    gs' !! j =
      Some (with_face_tags g
              (map (set_tag DOMAIN_BOUNDARY false) (face_tags g))).
Proof.
  intros Hrun Hlen Hgs Hg.
  apply tag_faces_ok in Hrun
    as (grids1 & top1 & r & Hreset & Htop1 & _ & Hloop & ->).
  pose proof (mapM_length _ _ _ Hreset) as Hlen1.
  destruct (mapM_lookup _ _ _ _ _ Hreset Hgs) as (gs1 & Hgs1 & Hmap1).
  destruct (mapM_lookup _ _ _ _ _ Hmap1 Hg) as (g1 & Hg1 & Hr1).
  apply reset_domain_boundary_ok in Hr1. subst g1.
  exists gs1. split; [|done].
  pose proof (tag_loop_length _ _ _ Hloop) as Hmid.
  unfold slice in Hmid. rewrite length_take, length_drop in Hmid.
  destruct (length grids) as [|[|m]] eqn:E; [lia|lia|].
  replace (S (S m) - 1)%nat with (S m) in * by lia.
  rewrite lookup_cons_ne_0 by done. simpl.
  rewrite lookup_app_r by lia.
  rewrite lookup_drop. rewrite <- Hgs1. f_equal. lia.
Qed.

Lemma tag_faces_lowest_witness :
  exists grids' gs',
    tag_faces ((Examples.cube8 :: nil) :: (Examples.square1 :: nil) :: nil)
              true = Ok grids' /\
    grids' !! 1%nat = Some gs' /\
    gs' !! 0%nat =
      Some (with_face_tags Examples.square1
              (map (set_tag DOMAIN_BOUNDARY false)
                   (face_tags Examples.square1))).
Proof.
  destruct (tag_faces ((Examples.cube8 :: nil) :: (Examples.square1 :: nil)
                       :: nil) true) as [grids'|e] eqn:Hrun;
    [|vm_compute in Hrun; discriminate].
  destruct (tag_faces_lowest _ grids' true 0 (Examples.square1 :: nil)
              Examples.square1 Hrun ltac:(simpl; lia) eq_refl eq_refl)
    as (gs' & Hgs' & Hg').
  exists grids', gs'. split; [reflexivity|]. split; [exact Hgs'|exact Hg'].
Defined.

(** ** The exceptions of [tag_faces] *)

Section TagRaises.

Lemma mapM_raise_kind {A B : Type} (f : A -> res B) (l : list A)
    (P : exn -> Prop) e :
  (forall a e', f a = Raise e' -> P e') -> mapM f l = Raise e -> P e.
Proof.
  intros Hf H. apply mapM_raise in H as (a & _ & Ha). by apply (Hf a).
Qed.

Lemma reset_raise g e : reset_domain_boundary g = Raise e -> e = IndexError.
Proof.
  unfold reset_domain_boundary, remove_face_tag.
  case_decide; [discriminate|]. by intros [= <-].
Qed.

Lemma add_face_tag_raise g fs tag e :
  add_face_tag g fs tag = Raise e -> e = IndexError.
Proof.
  unfold add_face_tag. intros H.
  apply bind_raise in H as [H|(ts & _ & H)]; [|discriminate].
  apply mapM_raise in H as (f & _ & H). by apply index_raise in H as [-> _].
Qed.

Lemma bnd_nodes_of_raise g e : bnd_nodes_of g = Raise e -> e = IndexError.
Proof.
  unfold bnd_nodes_of. intros H.
  apply bind_raise in H as [H|(cols & _ & H)]; [|discriminate].
  apply mapM_raise in H as (f & _ & H).
  destruct (f <? num_faces g)%nat; [discriminate|]. by injection H as <-.
Qed.

Lemma index_raise_kind {A : Type} (l : list A) i e :
  index l i = Raise e -> e = IndexError.
Proof. intros H. by apply index_raise in H as [-> _]. Qed.

Lemma nodes_glb_raise g e : nodes_glb g = Raise e -> e = IndexError.
Proof.
  unfold nodes_glb. intros H.
  apply bind_raise in H as [H|(lo & _ & H)].
  { apply (mapM_raise_kind _ _ (fun e => e = IndexError)) in H; [done|].
    intros a e'. apply index_raise_kind. }
  apply bind_raise in H as [H|(hi & _ & H)].
  { apply (mapM_raise_kind _ _ (fun e => e = IndexError)) in H; [done|].
    intros a e'. apply index_raise_kind. }
  apply bind_raise in H as [H|(loc & _ & H)].
  { apply (mapM_raise_kind _ _ (fun e => e = IndexError)) in H; [done|].
    intros a e'. apply index_raise_kind. }
  apply (mapM_raise_kind _ _ (fun e => e = IndexError)) in H; [done|].
  intros a e'. apply index_raise_kind.
Qed.

Lemma nodes_per_face_range_aux (g : grid) :
  (forall n, nodes_per_face g = Ok n -> (1 <= n <= 4)%nat) /\
  (forall e, nodes_per_face g = Raise e -> e = ValueError).
Proof.
  unfold nodes_per_face. split.
  - intros n H. repeat (destruct (_ : bool) in H; [injection H as <-; lia|]).
    discriminate.
  - intros e H.
    repeat (destruct (_ : bool) in H; [discriminate|]). by injection H as <-.
Qed.

Lemma tag_lower_raise bnd g e :
  tag_lower bnd g = Raise e -> e = IndexError \/ e = ValueError.
Proof.
  unfold tag_lower, tip_flags. intros H.
  apply bind_raise in H as [H|(flags & _ & H)].
  - apply bind_raise in H as [H|(glb & _ & H)].
    { left. by apply nodes_glb_raise in H. }
    apply bind_raise in H as [H|(n & _ & H)].
    { right. by apply (proj2 (nodes_per_face_range_aux g)) in H. }
    apply bind_raise in H as [H|(cols & _ & H)]; [|discriminate].
    unfold reshape_F in H. case_decide; [discriminate|].
    right. by injection H as <-.
  - apply bind_raise in H as [H|(g1 & _ & H)];
      left; by apply add_face_tag_raise in H.
Qed.

End TagRaises.

Lemma tag_loop_raise top mid e :
  tag_loop top mid = Raise e -> e = IndexError \/ e = ValueError.
Proof.
  revert mid. induction top as [|g_h top IH]; intros mid H; simpl in H.
  - discriminate.
  - apply bind_raise in H as [H|(r0 & _ & H)].
    + unfold tag_from in H.
      apply bind_raise in H as [H|(g_h' & _ & H)].
      { left. by apply add_face_tag_raise in H. }
      apply bind_raise in H as [H|(bnd & _ & H)].
      { left. by apply bnd_nodes_of_raise in H. }
      apply bind_raise in H as [H|(mid' & _ & H)]; [|discriminate].
      apply mapM_raise in H as (gs & _ & H).
      apply mapM_raise in H as (g & _ & H).
      by apply tag_lower_raise in H.
    + apply bind_raise in H as [H|(r1 & _ & H)]; [|discriminate].
      by apply IH in H.
Qed.

(** [tag_faces] raises the assertion error only when a single grid of the
    highest dimension is required and the first list holds another number
    of grids; on grids with one tag entry per face it then does raise
    it. *)
Theorem tag_faces_assertion (grids : list (list grid)) (chk : bool) :
  (tag_faces grids chk = Raise AssertionError ->
   chk = true /\
   exists top, grids !! 0%nat = Some top /\ length top <> 1%nat) /\
  (forall top,
     chk = true -> grids !! 0%nat = Some top -> length top <> 1%nat ->
     Forall (Forall (fun g => length (face_tags g) = num_faces g)) grids ->
     tag_faces grids chk = Raise AssertionError).
Proof.
  split.
  - unfold tag_faces. intros H.
    apply bind_raise in H as [H|(grids1 & Hreset & H)].
    { apply mapM_raise in H as (gs & _ & H).
      apply mapM_raise in H as (g & _ & H).
      apply reset_raise in H. discriminate. }
    apply bind_raise in H as [H|(top1 & Htop1 & H)].
    { apply index_raise_kind in H. discriminate. }
    apply index_ok in Htop1.
    destruct chk; simpl in H.
    + destruct (length top1 =? 1)%nat eqn:E; simpl in H.
      * apply bind_raise in H as [H|(r & _ & H)]; [|discriminate].
        apply tag_loop_raise in H as [?|?]; discriminate.
      * split; [done|]. apply Nat.eqb_neq in E.
        apply mapM_ok in Hreset.
        destruct (Forall2_lookup_r _ _ _ _ _ Hreset Htop1) as (top & Htop & Hm).
        exists top. split; [done|]. apply mapM_length in Hm. lia.
    + apply bind_raise in H as [H|(r & _ & H)]; [|discriminate].
      apply tag_loop_raise in H as [?|?]; discriminate.
  - intros top -> Htop Hlen Hwf. unfold tag_faces.
    assert (Hres : forall gs, Forall (fun g => length (face_tags g) = num_faces g) gs ->
              is_ok (mapM reset_domain_boundary gs)).
    { intros gs Hgs. destruct (mapM reset_domain_boundary gs) eqn:E; [by eexists|].
      apply mapM_raise in E as (g & Hg & E). rewrite Forall_forall in Hgs.
      unfold reset_domain_boundary, remove_face_tag in E.
      rewrite length_replicate, decide_True in E by (symmetry; by apply Hgs).
      discriminate. }
    destruct (mapM (mapM reset_domain_boundary) grids) as [grids1|e] eqn:E.
    2:{ apply mapM_raise in E as (gs & Hgs & E). rewrite Forall_forall in Hwf.
        destruct (Hres gs (Hwf gs Hgs)) as [x Hx]. congruence. }
    simpl. destruct (mapM_lookup _ _ _ _ _ E Htop) as (top1 & Htop1 & Hm).
    apply index_ok in Htop1. rewrite Htop1. simpl.
    apply mapM_length in Hm.
    destruct (length top1 =? 1)%nat eqn:E1; [|done].
    apply Nat.eqb_eq in E1. lia.
Qed.

(** ** What [tag_faces] leaves as it is *)

Section TagFrame.

Lemma tags_grow_refl g : tags_grow g g.
Proof.
  split; [by destruct g|]. apply Forall2_same_length_lookup_2; [done|].
  intros i t t' Ht Ht'. rewrite Ht in Ht'. by injection Ht' as <-.
Qed.

Lemma tags_grow_trans g1 g2 g3 :
  tags_grow g1 g2 -> tags_grow g2 g3 -> tags_grow g1 g3.
Proof.
  intros [H12 F12] [H23 F23]. split.
  - rewrite H23. rewrite H12 at 1. done.
  - apply Forall2_same_length_lookup_2.
    + rewrite (Forall2_length _ _ _ F12). apply (Forall2_length _ _ _ F23).
    + intros i t t3 Ht Ht3.
      destruct (Forall2_lookup_l _ _ _ _ _ F12 Ht) as (t2 & Ht2 & Hfr & Htip).
      destruct (Forall2_lookup_l _ _ _ _ _ F23 Ht2) as (t3' & Ht3' & Hfr' & Htip').
      rewrite Ht3 in Ht3'. injection Ht3' as <-.
      split; [congruence | auto].
Qed.

Lemma foldl_alter_length (h : tagset -> tagset) fs (tags : list tagset) :
  length (foldl (fun tags i => alter h i tags) tags fs) = length tags.
Proof.
  revert tags. induction fs as [|i fs IH]; intros tags; simpl; [done|].
  by rewrite IH, length_alter.
Qed.

Lemma add_face_tag_grow g fs tag g' :
  add_face_tag g fs tag = Ok g' -> tag <> FRACTURE -> tags_grow g g'.
Proof.
  intros H Htag.
  pose proof (fun f => add_face_tag_lookup _ _ _ _ f H) as Hlk.
  apply add_face_tag_ok in H as [-> _]. split; [done|]. simpl in *.
  apply Forall2_same_length_lookup_2.
  - by rewrite foldl_alter_length.
  - intros i t t' Ht Ht'. rewrite (Hlk i), Ht in Ht'. simpl in Ht'.
    injection Ht' as <-. case_bool_decide; [|done].
    destruct tag; simpl; done.
Qed.

Lemma reset_grow g g1 : reset_domain_boundary g = Ok g1 -> tags_grow g g1.
Proof.
  intros ->%reset_domain_boundary_ok. split; [done|]. simpl.
  apply Forall2_same_length_lookup_2; [by rewrite length_map|].
  intros i t t' Ht Ht'. rewrite list_lookup_fmap, Ht in Ht'.
  by injection Ht' as <-.
Qed.

Lemma tag_lower_grow bnd g g' : tag_lower bnd g = Ok g' -> tags_grow g g'.
Proof.
  unfold tag_lower. intros H. apply bind_ok in H as (flags & _ & H).
  apply bind_ok in H as (g1 & Hg1 & Hg').
  eapply tags_grow_trans; eapply add_face_tag_grow; eauto; discriminate.
Qed.

Lemma Forall2_Forall2_trans (R : grid -> grid -> Prop) l1 l2 l3 :
  (forall x y z, R x y -> R y z -> R x z) ->
  Forall2 (Forall2 R) l1 l2 -> Forall2 (Forall2 R) l2 l3 ->
  Forall2 (Forall2 R) l1 l3.
Proof.
  intros HR H12. revert l3. induction H12 as [|a b l1 l2 Hab _ IH]; intros l3 H23.
  - inversion H23. constructor.
  - inversion H23 as [|? c ? l3' Hbc H23']; subst. constructor; [|by apply IH].
    clear -HR Hab Hbc. revert c Hbc.
    induction Hab as [|x y a b Hxy _ IH]; intros c Hbc.
    + inversion Hbc. constructor.
    + inversion Hbc; subst. constructor; eauto.
Qed.

Lemma tag_from_grow g_h mid r :
  tag_from g_h mid = Ok r ->
  tags_grow g_h (fst r) /\ Forall2 (Forall2 tags_grow) mid (snd r).
Proof.
  intros H. apply tag_from_ok in H as (bnd & Hg & _ & Hmid). split.
  - eapply add_face_tag_grow; [done|discriminate].
  - apply mapM_ok in Hmid. eapply Forall2_impl; [done|].
    intros gs gs' Hgs. simpl in Hgs. apply mapM_ok in Hgs.
    eapply Forall2_impl; [done|]. intros g g'. apply tag_lower_grow.
Qed.

Lemma tag_loop_grow top mid r :
  tag_loop top mid = Ok r ->
  Forall2 tags_grow top (fst r) /\ Forall2 (Forall2 tags_grow) mid (snd r).
Proof.
  revert mid r. induction top as [|g_h top IH]; intros mid r H; simpl in H.
  - injection H as <-. simpl. split; [constructor|].
    apply Forall2_same_length_lookup_2; [done|].
    intros i gs gs' Hgs Hgs'. rewrite Hgs in Hgs'. injection Hgs' as <-.
    apply Forall2_same_length_lookup_2; [done|].
    intros j g g' Hg Hg'. rewrite Hg in Hg'. injection Hg' as <-.
    apply tags_grow_refl.
  - apply bind_ok in H as (r0 & H0 & H). apply bind_ok in H as (r1 & H1 & H).
    injection H as <-. simpl.
    apply tag_from_grow in H0 as [Hg Hmid]. apply IH in H1 as [Htop Hmid'].
    split; [by constructor|].
    eapply Forall2_Forall2_trans; eauto using tags_grow_trans.
Qed.

End TagFrame.

(** [tag_faces] changes nothing but face tags, on no grid does it touch
    FRACTURE, and it takes TIP from no face: the lists of grids keep their
    shape, every grid keeps all its other fields and the number of its tag
    entries, every face keeps its FRACTURE flag, and a face that carried
    TIP still carries it. *)
Theorem tag_faces_frame (grids grids' : list (list grid)) (chk : bool) :
  tag_faces grids chk = Ok grids' ->
  Forall2 (Forall2 tags_grow) grids grids'.
Proof.
  intros Hrun.
  apply tag_faces_ok in Hrun
    as (grids1 & top1 & r & Hreset & Htop1 & _ & Hloop & ->).
  apply (Forall2_Forall2_trans _ _ grids1); [apply tags_grow_trans| |].
  - apply mapM_ok in Hreset. eapply Forall2_impl; [done|].
    intros gs gs' Hgs. simpl in Hgs. apply mapM_ok in Hgs.
    eapply Forall2_impl; [done|]. intros g g'. apply reset_grow.
  - apply tag_loop_grow in Hloop as [Htop Hmid].
    destruct grids1 as [|top1' tl]; [discriminate|].
    simpl in Htop1. injection Htop1 as ->.
    simpl in *. rewrite Nat.sub_0_r in *.
    unfold slice in Hmid. simpl in Hmid. rewrite drop_0 in Hmid.
    constructor; [done|].
    rewrite <- (take_drop (length tl - 1) tl) at 1.
    apply Forall2_app; [done|].
    apply Forall2_same_length_lookup_2; [done|].
    intros i gs gs' Hgs Hgs'. rewrite Hgs in Hgs'. injection Hgs' as <-.
    apply Forall2_same_length_lookup_2; [done|].
    intros j g g' Hg Hg'. rewrite Hg in Hg'. injection Hg' as <-.
    apply tags_grow_refl.
Qed.

Lemma tag_faces_frame_witness :
  exists grids',
    tag_faces Examples.fractured_cube true = Ok grids' /\
    Forall2 (Forall2 tags_grow) Examples.fractured_cube grids'.
Proof.
  destruct (tag_faces Examples.fractured_cube true) as [grids'|e] eqn:Hrun;
    [|vm_compute in Hrun; discriminate].
  exists grids'. split; [reflexivity|].
  exact (tag_faces_frame Examples.fractured_cube grids' true Hrun).
Defined.

(** * Further properties of [assemble_in_bucket] *)

Lemma face_signatures_length hg n fn :
  face_signatures hg n = Ok fn ->
  length fn = num_faces hg /\
  length (indices (face_nodes hg)) = (n * num_faces hg)%nat.
Proof.
  unfold face_signatures, reshape_F. intros H.
  apply bind_ok in H as (fn_loc & Hloc & H).
  case_decide as Hlen; [|discriminate]. injection Hloc as <-.
  apply bind_ok in H as (fn' & Hfn & H). injection H as <-.
  apply mapM_length in Hfn. split; [|done].
  by rewrite length_map, Hfn, length_map, length_seq.
Qed.

(** Every edge of the bucket joins a grid to a grid of the next list;
    its matrix has one row per cell of the lower grid and one column per
    face of the higher grid, stores at least one entry, and stores entries
    only inside its shape. *)
Theorem bucket_edges_adjacent (grids : list (list grid)) (b : GridBucket)
    (e : bucket_edge) :
  assemble_in_bucket grids = Ok b -> e ∈ edges b ->
  exists d i j higher lower hg lg,
    high e = (d, i) /\ low e = (S d, j) /\
    grids !! d = Some higher /\ higher !! i = Some hg /\
    grids !! S d = Some lower /\ lower !! j = Some lg /\
    bshape (face_cells e) = (num_cells lg, num_faces hg) /\
    stored (face_cells e) <> ∅ /\
    forall c f, (c, f) ∈ stored (face_cells e) ->
      (c < num_cells lg)%nat /\ (f < num_faces hg)%nat.
Proof.
  intros Hrun He.
  apply (bucket_edges grids b e Hrun) in He
    as (d & higher & lower & i & hg & n & fn & j & lg & fc
        & Hh & Hl & Hhg & Hn & Hfn & Hlg & Hfc & Hne & ->).
  exists d, i, j, higher, lower, hg, lg. simpl.
  destruct (coupling_ok hg fn n lg fc Hfc) as [Hshape Hstored].
  do 8 (split; [done|]).
  intros c f Hin. apply Hstored in Hin as (Hc & sig & Hsig & _).
  split; [done|]. apply lookup_lt_Some in Hsig.
  by rewrite (proj1 (face_signatures_length hg n fn Hfn)) in Hsig.
Qed.

Lemma bucket_edges_adjacent_witness :
  exists b e,
    assemble_in_bucket Examples.fractured_cube = Ok b /\ e ∈ edges b /\
    stored (face_cells e) <> ∅.
Proof.
  destruct (assemble_in_bucket Examples.fractured_cube) as [b|err] eqn:Hrun;
    [|vm_compute in Hrun; discriminate].
  assert (He : exists e, e ∈ edges b).
  { vm_compute in Hrun. injection Hrun as <-. eexists. simpl. left. }
  destruct He as [e He]. exists b, e. split; [reflexivity|]. split; [exact He|].
  destruct (bucket_edges_adjacent Examples.fractured_cube b e Hrun He)
    as (d & i & j & higher & lower & hg & lg & _ & _ & _ & _ & _ & _ & _ & Hne & _).
  exact Hne.
Defined.

(** [assemble_in_bucket] returns a bucket only if every grid that is not
    in the last list has a known number of nodes per face and a
    [face_nodes] matrix with that many stored indices for each face,
    whether or not there is a grid in the next list. *)
Theorem bucket_requires (grids : list (list grid)) (b : GridBucket)
    (d i : nat) (higher : list grid) (hg : grid) :
  assemble_in_bucket grids = Ok b ->
  (S d < length grids)%nat ->
  grids !! d = Some higher -> higher !! i = Some hg ->
  exists n,
    nodes_per_face hg = Ok n /\
    length (indices (face_nodes hg)) = (n * num_faces hg)%nat.
Proof.
  unfold assemble_in_bucket. intros H Hd Hh Hhg.
  apply bind_ok in H as (ess & Hess & _).
  destruct (mapM_lookup _ _ _ d d Hess) as (ys & _ & Hc).
  { apply lookup_seq. split; [done|]. lia. }
  unfold couple_dim in Hc. apply bind_ok in Hc as (higher' & Hh' & Hc).
  apply index_ok in Hh'. rewrite Hh in Hh'. injection Hh' as <-.
  apply bind_ok in Hc as (es & Hes & _).
  destruct (mapM_lookup _ _ _ i (i, hg) Hes) as (ys' & _ & Hc).
  { by apply enumerate_lookup. }
  apply bind_ok in Hc as (lower & _ & Hc).
  unfold couple_high in Hc. simpl in Hc.
  apply bind_ok in Hc as (n & Hn & Hc). apply bind_ok in Hc as (fn & Hfn & _).
  exists n. split; [done|]. by apply (face_signatures_length hg n fn).
Qed.

Lemma bucket_requires_witness :
  exists n,
    nodes_per_face Examples.cube8 = Ok n /\
    length (indices (face_nodes Examples.cube8))
      = (n * num_faces Examples.cube8)%nat.
Proof.
  destruct (assemble_in_bucket Examples.fractured_cube) as [b|err] eqn:Hrun;
    [|vm_compute in Hrun; discriminate].
  exact (bucket_requires Examples.fractured_cube b 0 0
           (Examples.cube8 :: nil) Examples.cube8 Hrun
           ltac:(simpl; lia) eq_refl eq_refl).
Defined.

(** With fewer than two lists of grids there is nothing to couple: the
    bucket holds the grids and no edge. *)
Theorem bucket_without_edges (grids : list (list grid)) :
  (length grids <= 1)%nat ->
  assemble_in_bucket grids = Ok {| nodes := concat grids; edges := [] |}.
Proof.
  intros Hlen. unfold assemble_in_bucket.
  replace (length grids - 1)%nat with 0%nat by lia. reflexivity.
Qed.

Lemma bucket_without_edges_witness :
  assemble_in_bucket ((Examples.cube8 :: nil) :: nil) =
  Ok {| nodes := Examples.cube8 :: nil; edges := [] |}.
Proof.
  exact (bucket_without_edges ((Examples.cube8 :: nil) :: nil)
           (le_n 1)).
Defined.
